(** * Completion queues of the usNIC provider (prov/usnic/src/usdf_cq.c)

    A shallow embedding of the completion-queue code: the entry copier, the
    hard-mode readers, the ring of soft entries with its producers and
    consumers, the blocking readers with their back-off, promotion of a queue
    to soft mode, and open and close.

    Conventions of the embedding.
    - Pointers and handles are integers, [0] being [NULL]; pointers into the
      ring of soft entries count in elements, so [entry++] adds [1].
    - [size_t] values are integers reduced modulo [2^64] where the code does
      arithmetic on them.
    - A function returning [ssize_t] or [int] returns a [retval]: [Val z] is
      the value [z] as returned, [Err e] is the negated code [-e].
    - The hardware queue is a schedule of poll outcomes, one per call of
      [usd_poll_cq]; the allocator is a schedule of allocation outcomes. *)

From Stdlib Require Import ZArith List Bool Lia.
From stdpp Require Import base list.
Import ListNotations.

Local Open Scope Z_scope.

(** ** Declarations the file takes from its headers *)

Inductive fi_errno : Type :=
| FI_EAGAIN | FI_EAVAIL | FI_EBUSY | FI_ENOMEM | FI_EINVAL | FI_ENOSYS
| FI_EOPNOTSUPP | FI_EIO | FI_ECRC | FI_ETRUNC | FI_ETIMEDOUT | FI_EOTHER.

Inductive retval : Type :=
| Val (z : Z)
| Err (e : fi_errno).

Definition FI_SUCCESS : Z := 0.

(** Constants of headers that are not part of the translated file
    (usdf_cq.h, usdf.h, usd.h, rdma/fabric.h, rdma/fi_errno.h), taken as
    parameters: the size of the header buffer entry advertised as prefix,
    the size of the wire header, the mode and flag bits, the settings of the
    back-off, and the numbers of the error codes. *)
Record usdf_consts : Type := {
  USDF_HDR_BUF_ENTRY : Z;
  sizeof_usd_udp_hdr : Z;
  FI_MSG_PREFIX : Z;
  FI_MSG : Z;
  FI_SEND : Z;
  FI_RECV : Z;
  SREAD_INIT_SLEEP_TIME_US : Z;
  SREAD_MAX_SLEEP_TIME_US : Z;
  SREAD_EXP_BASE : Z;
  errno_val : fi_errno -> Z
}.

Inductive usd_completion_type : Type :=
| USD_COMPTYPE_SEND
| USD_COMPTYPE_RECV
| USD_COMPTYPE_OTHER (code : Z).

Inductive usd_completion_status : Type :=
| USD_COMPSTAT_SUCCESS
| USD_COMPSTAT_ERROR_CRC
| USD_COMPSTAT_ERROR_TRUNC
| USD_COMPSTAT_ERROR_TIMEOUT
| USD_COMPSTAT_ERROR_INTERNAL.

(** Modelled from the spec: the numbering of [enum usd_completion_status]
    (usnic_direct.h), a status being success or one of CRC mismatch,
    truncation, timeout and internal; success is the [0] the code tests the
    field against. *)
Definition status_code (s : usd_completion_status) : Z :=
  match s with
  | USD_COMPSTAT_SUCCESS => 0
  | USD_COMPSTAT_ERROR_CRC => 1
  | USD_COMPSTAT_ERROR_TRUNC => 2
  | USD_COMPSTAT_ERROR_TIMEOUT => 3
  | USD_COMPSTAT_ERROR_INTERNAL => 4
  end.

(** Modelled from the spec: [struct usd_completion] (usnic_direct.h), a raw
    completion tagged as send or receive that carries a context, a byte count
    and a status; [uc_ep_mode] is [uc_qp->uq_context->ep_mode]. *)
Record usd_completion : Type := {
  uc_type : usd_completion_type;
  uc_status : usd_completion_status;
  uc_context : Z;
  uc_bytes : Z;
  uc_ep_mode : Z
}.

Inductive fi_cq_format : Type :=
| FI_CQ_FORMAT_UNSPEC
| FI_CQ_FORMAT_CONTEXT
| FI_CQ_FORMAT_MSG
| FI_CQ_FORMAT_DATA
| FI_CQ_FORMAT_TAGGED.

Inductive fi_wait_obj : Type :=
| FI_WAIT_NONE
| FI_WAIT_UNSPEC
| FI_WAIT_SET
| FI_WAIT_FD
| FI_WAIT_MUTEX_COND.

Record fi_cq_attr : Type := {
  size : Z;
  format : fi_cq_format;
  wait_obj : fi_wait_obj
}.

(** The three output records. *)
Inductive cq_entry : Type :=
| fi_cq_entry (op_context : Z)
| fi_cq_msg_entry (op_context flags len : Z)
| fi_cq_data_entry (op_context flags len buf data : Z).

Record fi_cq_err_entry : Type := {
  err_op_context : Z;
  err_flags : Z;
  err_err : Z;
  err_prov_errno : Z
}.

(** Modelled from the spec: [struct usdf_cq_soft_entry] (usdf.h), a
    normalized completion with context, flags, length, buffer, immediate data
    and provider error code. *)
Record usdf_cq_soft_entry : Type := {
  cse_context : Z;
  cse_flags : Z;
  cse_len : Z;
  cse_buf : Z;
  cse_data : Z;
  cse_prov_errno : Z
}.

(** Modelled from the spec: the discriminator of the last operation on the
    ring (usdf.h); [USDF_SOFT_CQ_READ] is the value of zeroed storage. *)
Inductive soft_cq_op : Type :=
| USDF_SOFT_CQ_READ
| USDF_SOFT_CQ_WRITE.

(** The six operation tables, compared by address in the code; [ops_null] is
    the null pointer a fresh [calloc] leaves. *)
Inductive fi_ops_cq : Type :=
| ops_null
| usdf_cq_context_ops
| usdf_cq_context_soft_ops
| usdf_cq_msg_ops
| usdf_cq_msg_soft_ops
| usdf_cq_data_ops
| usdf_cq_data_soft_ops.

Definition fi_ops_cq_eqb (a b : fi_ops_cq) : bool :=
  match a, b with
  | ops_null, ops_null
  | usdf_cq_context_ops, usdf_cq_context_ops
  | usdf_cq_context_soft_ops, usdf_cq_context_soft_ops
  | usdf_cq_msg_ops, usdf_cq_msg_ops
  | usdf_cq_msg_soft_ops, usdf_cq_msg_soft_ops
  | usdf_cq_data_ops, usdf_cq_data_ops
  | usdf_cq_data_soft_ops, usdf_cq_data_soft_ops => true
  | _, _ => false
  end.

(** Modelled from the spec: [struct usdf_cq_hard] (usdf.h), a hardware queue
    bound to a soft queue, with its reference count.
    [cqh_addr] is the address of the binding itself, as [malloc] returned it.
    The owner [cqh_cq] is the queue holding the binding in its list and
    [cqh_progress] is always [usdf_progress_hard_cq]. *)
Record usdf_cq_hard : Type := {
  cqh_addr : Z;
  cqh_ucq : Z;
  cqh_refcnt : Z
}.

(** Modelled from the spec: [struct usdf_cq] (usdf.h), whose hard-mode
    fields and soft-mode fields share storage.  The union [c] overlays
    [c.hard.cq_cq] and the first member of [c.soft], [cq_comps]: both are
    read from [c_word0], which is why [usdf_cq_make_soft] saves [cq_cq]
    before it fills in the soft part, and restores it.  The other members
    of [c.soft] follow.  [cq_slots] is the block [cq_comps] points to. *)
Record usdf_cq : Type := {
  cq_ops : fi_ops_cq;
  cq_refcnt : Z;
  cq_attr : fi_cq_attr;
  c_word0 : Z;
  cq_end : Z;
  cq_head : Z;
  cq_tail : Z;
  cq_last_op : soft_cq_op;
  cq_list : list usdf_cq_hard;
  cq_comp : usd_completion;
  cq_slots : list usdf_cq_soft_entry
}.

Definition cq_cq (cq : usdf_cq) : Z := c_word0 cq.
Definition cq_comps (cq : usdf_cq) : Z := c_word0 cq.

Definition wrap64 (z : Z) : Z := z mod 2 ^ 64.

(** ** Entry copier *)

Definition usdf_cqe_to_flags (K : usdf_consts) (comp : usd_completion) : Z :=
  match uc_type comp with
  | USD_COMPTYPE_SEND => Z.lor (FI_MSG K) (FI_SEND K)
  | USD_COMPTYPE_RECV => Z.lor (FI_MSG K) (FI_RECV K)
  | USD_COMPTYPE_OTHER _ => 0
  end.

Definition is_recv (t : usd_completion_type) : bool :=
  match t with USD_COMPTYPE_RECV => true | _ => false end.

Definition prefix_mode (K : usdf_consts) (src : usd_completion) : bool :=
  negb (Z.land (uc_ep_mode src) (FI_MSG_PREFIX K) =? 0).

Definition usdf_cq_adjust_len (K : usdf_consts) (src : usd_completion)
    (len : Z) : Z :=
  if is_recv (uc_type src) then
    if prefix_mode K src then
      wrap64 (len + wrap64 (USDF_HDR_BUF_ENTRY K - sizeof_usd_udp_hdr K))
    else
      wrap64 (len - sizeof_usd_udp_hdr K)
  else
    if prefix_mode K src then wrap64 (len + USDF_HDR_BUF_ENTRY K)
    else len.

(** The copier writes one record at [dst] and returns [FI_SUCCESS], or writes
    nothing and returns [-FI_EOPNOTSUPP]. *)
Definition usdf_cq_copy_cq_entry (K : usdf_consts) (src : usd_completion)
    (fmt : fi_cq_format) : retval * option cq_entry :=
  match fmt with
  | FI_CQ_FORMAT_CONTEXT =>
      (Val FI_SUCCESS, Some (fi_cq_entry (uc_context src)))
  | FI_CQ_FORMAT_MSG =>
      (Val FI_SUCCESS,
       Some (fi_cq_msg_entry (uc_context src) (usdf_cqe_to_flags K src)
               (usdf_cq_adjust_len K src (uc_bytes src))))
  | FI_CQ_FORMAT_DATA =>
      (Val FI_SUCCESS,
       Some (fi_cq_data_entry (uc_context src) (usdf_cqe_to_flags K src)
               (usdf_cq_adjust_len K src (uc_bytes src)) 0 0))
  | _ => (Err FI_EOPNOTSUPP, None)
  end.

Definition usdf_cq_copy_soft_entry (src : usdf_cq_soft_entry)
    (dst_format : fi_cq_format) : retval * option cq_entry :=
  match dst_format with
  | FI_CQ_FORMAT_CONTEXT =>
      (Val FI_SUCCESS, Some (fi_cq_entry (cse_context src)))
  | FI_CQ_FORMAT_MSG =>
      (Val FI_SUCCESS,
       Some (fi_cq_msg_entry (cse_context src) (cse_flags src) (cse_len src)))
  | FI_CQ_FORMAT_DATA =>
      (Val FI_SUCCESS,
       Some (fi_cq_data_entry (cse_context src) (cse_flags src) (cse_len src)
               (cse_buf src) (cse_data src)))
  | _ => (Err FI_EOPNOTSUPP, None)
  end.

(** The length field of an output record, when the format carries one. *)
Definition entry_len_field (e : cq_entry) : option Z :=
  match e with
  | fi_cq_entry _ => None
  | fi_cq_msg_entry _ _ len => Some len
  | fi_cq_data_entry _ _ len _ _ => Some len
  end.

Definition entry_context (e : cq_entry) : Z :=
  match e with
  | fi_cq_entry c => c
  | fi_cq_msg_entry c _ _ => c
  | fi_cq_data_entry c _ _ _ _ => c
  end.

Definition length_carrying (fmt : fi_cq_format) : bool :=
  match fmt with
  | FI_CQ_FORMAT_MSG | FI_CQ_FORMAT_DATA => true
  | _ => false
  end.

(** ** Field updates of [struct usdf_cq] *)

Definition set_cq_ops (v : fi_ops_cq) (cq : usdf_cq) : usdf_cq :=
  {| cq_ops := v; cq_refcnt := cq_refcnt cq; cq_attr := cq_attr cq;
     c_word0 := c_word0 cq; cq_end := cq_end cq; cq_head := cq_head cq;
     cq_tail := cq_tail cq; cq_last_op := cq_last_op cq;
     cq_list := cq_list cq; cq_comp := cq_comp cq; cq_slots := cq_slots cq |}.

Definition set_c_word0 (v : Z) (cq : usdf_cq) : usdf_cq :=
  {| cq_ops := cq_ops cq; cq_refcnt := cq_refcnt cq; cq_attr := cq_attr cq;
     c_word0 := v; cq_end := cq_end cq; cq_head := cq_head cq;
     cq_tail := cq_tail cq; cq_last_op := cq_last_op cq;
     cq_list := cq_list cq; cq_comp := cq_comp cq; cq_slots := cq_slots cq |}.

Definition set_cq_end (v : Z) (cq : usdf_cq) : usdf_cq :=
  {| cq_ops := cq_ops cq; cq_refcnt := cq_refcnt cq; cq_attr := cq_attr cq;
     c_word0 := c_word0 cq; cq_end := v; cq_head := cq_head cq;
     cq_tail := cq_tail cq; cq_last_op := cq_last_op cq;
     cq_list := cq_list cq; cq_comp := cq_comp cq; cq_slots := cq_slots cq |}.

Definition set_cq_head (v : Z) (cq : usdf_cq) : usdf_cq :=
  {| cq_ops := cq_ops cq; cq_refcnt := cq_refcnt cq; cq_attr := cq_attr cq;
     c_word0 := c_word0 cq; cq_end := cq_end cq; cq_head := v;
     cq_tail := cq_tail cq; cq_last_op := cq_last_op cq;
     cq_list := cq_list cq; cq_comp := cq_comp cq; cq_slots := cq_slots cq |}.

Definition set_cq_tail (v : Z) (cq : usdf_cq) : usdf_cq :=
  {| cq_ops := cq_ops cq; cq_refcnt := cq_refcnt cq; cq_attr := cq_attr cq;
     c_word0 := c_word0 cq; cq_end := cq_end cq; cq_head := cq_head cq;
     cq_tail := v; cq_last_op := cq_last_op cq;
     cq_list := cq_list cq; cq_comp := cq_comp cq; cq_slots := cq_slots cq |}.

Definition set_cq_last_op (v : soft_cq_op) (cq : usdf_cq) : usdf_cq :=
  {| cq_ops := cq_ops cq; cq_refcnt := cq_refcnt cq; cq_attr := cq_attr cq;
     c_word0 := c_word0 cq; cq_end := cq_end cq; cq_head := cq_head cq;
     cq_tail := cq_tail cq; cq_last_op := v;
     cq_list := cq_list cq; cq_comp := cq_comp cq; cq_slots := cq_slots cq |}.

Definition set_cq_list (v : list usdf_cq_hard) (cq : usdf_cq) : usdf_cq :=
  {| cq_ops := cq_ops cq; cq_refcnt := cq_refcnt cq; cq_attr := cq_attr cq;
     c_word0 := c_word0 cq; cq_end := cq_end cq; cq_head := cq_head cq;
     cq_tail := cq_tail cq; cq_last_op := cq_last_op cq;
     cq_list := v; cq_comp := cq_comp cq; cq_slots := cq_slots cq |}.

Definition set_cq_comp (v : usd_completion) (cq : usdf_cq) : usdf_cq :=
  {| cq_ops := cq_ops cq; cq_refcnt := cq_refcnt cq; cq_attr := cq_attr cq;
     c_word0 := c_word0 cq; cq_end := cq_end cq; cq_head := cq_head cq;
     cq_tail := cq_tail cq; cq_last_op := cq_last_op cq;
     cq_list := cq_list cq; cq_comp := v; cq_slots := cq_slots cq |}.

Definition set_cq_slots (v : list usdf_cq_soft_entry) (cq : usdf_cq)
    : usdf_cq :=
  {| cq_ops := cq_ops cq; cq_refcnt := cq_refcnt cq; cq_attr := cq_attr cq;
     c_word0 := c_word0 cq; cq_end := cq_end cq; cq_head := cq_head cq;
     cq_tail := cq_tail cq; cq_last_op := cq_last_op cq;
     cq_list := cq_list cq; cq_comp := cq_comp cq; cq_slots := v |}.

Definition set_uc_status (s : usd_completion_status) (c : usd_completion)
    : usd_completion :=
  {| uc_type := uc_type c; uc_status := s; uc_context := uc_context c;
     uc_bytes := uc_bytes c; uc_ep_mode := uc_ep_mode c |}.

(** ** The hardware queue *)

(** One outcome per call of [usd_poll_cq]: [Some comp] for a return of [0]
    with [comp] filled in, [None] for [-EAGAIN].  A schedule that has run out
    answers [-EAGAIN] for ever. *)
Definition hw_queue : Type := list (option usd_completion).

Definition usd_poll_cq (q : hw_queue) : option usd_completion * hw_queue :=
  match q with
  | [] => (None, [])
  | r :: q' => (r, q')
  end.

Definition sticky_set (cq : usdf_cq) : bool :=
  negb (status_code (uc_status (cq_comp cq)) =? 0).

Definition comp_failed (comp : usd_completion) : bool :=
  negb (status_code (uc_status comp) =? 0).

(** The formats for which the readers know [entry_len]. *)
Definition entry_len_known (fmt : fi_cq_format) : bool :=
  match fmt with
  | FI_CQ_FORMAT_CONTEXT | FI_CQ_FORMAT_MSG | FI_CQ_FORMAT_DATA => true
  | _ => false
  end.

(** What a reader leaves behind: the value returned, the records written to
    the caller's buffer in order, the queue, the environment it polled, and
    the quanta passed to [usleep] in order. *)
Record run (W : Type) : Type := {
  ret : retval;
  buf : list cq_entry;
  cq_after : usdf_cq;
  world : W;
  slept : list Z
}.
Arguments ret {W} _.
Arguments buf {W} _.
Arguments cq_after {W} _.
Arguments world {W} _.
Arguments slept {W} _.

Definition nonempty {A : Type} (l : list A) : bool :=
  match l with [] => false | _ => true end.

Definition count_of (b : list cq_entry) : Z := Z.of_nat (length b).

(** ** Hard-mode reader *)

(** The loop of [usdf_cq_read_common]; [n] is the number of records that
    still fit between [entry] and [last], [b] the records written so far and
    [r] the current value of [ret]. *)
Fixpoint usdf_cq_read_loop (K : usdf_consts) (fmt : fi_cq_format) (n : nat)
    (cq : usdf_cq) (hw : hw_queue) (b : list cq_entry) (r : retval)
    : run hw_queue :=
  let finish r cq hw :=
    {| ret := if nonempty b then Val (count_of b) else r;
       buf := b; cq_after := cq; world := hw; slept := [] |} in
  match n with
  | O => finish r cq hw
  | S n' =>
      match usd_poll_cq hw with
      | (None, hw') => finish (Err FI_EAGAIN) cq hw'
      | (Some comp, hw') =>
          let cq' := set_cq_comp comp cq in
          if comp_failed comp then finish (Err FI_EAVAIL) cq' hw'
          else
            match usdf_cq_copy_cq_entry K comp fmt with
            | (Val _, Some e) =>
                usdf_cq_read_loop K fmt n' cq' hw' (b ++ [e]) (Val FI_SUCCESS)
            | (r', _) =>
                {| ret := r'; buf := b; cq_after := cq'; world := hw';
                   slept := [] |}
            end
      end
  end.

Definition usdf_cq_read_common (K : usdf_consts) (fmt : fi_cq_format)
    (count : nat) (cq : usdf_cq) (hw : hw_queue) : run hw_queue :=
  if sticky_set cq then
    {| ret := Err FI_EAVAIL; buf := []; cq_after := cq; world := hw;
       slept := [] |}
  else if negb (entry_len_known fmt) then
    {| ret := Val 0; buf := []; cq_after := cq; world := hw; slept := [] |}
  else usdf_cq_read_loop K fmt count cq hw [] (Val 0).

(** ** Blocking reads: the back-off *)

(** The quantum after one empty attempt: the value of [sleep_time_us] after
    the two statements that follow [usleep]. *)
Definition next_sleep (K : usdf_consts) (sleep_time_us : Z) : Z :=
  let s := if sleep_time_us <? SREAD_MAX_SLEEP_TIME_US K
           then wrap64 (sleep_time_us * SREAD_EXP_BASE K)
           else sleep_time_us in
  Z.min s (SREAD_MAX_SLEEP_TIME_US K).

(** The product of two [int]s as the processor leaves it: the low 32 bits
    of the product, read as a signed number.  It is the product itself when
    that is an [int]. *)
Definition int_mul (a b : Z) : Z := (a * b + 2 ^ 31) mod 2 ^ 32 - 2 ^ 31.

(** The test [timeout_ms >= 0 && time_spent_us >= 1000 * timeout_ms]: the
    product is one of [int]s and is converted to [size_t] for the comparison
    with [time_spent_us]. *)
Definition deadline_passed (timeout_ms time_spent_us : Z) : bool :=
  (0 <=? timeout_ms) && (wrap64 (int_mul 1000 timeout_ms) <=? time_spent_us).

(** The loop of [usdf_cq_sread_common].  Each turn of the loop takes one unit
    of [fuel]; [None] says the call is still in the loop when the fuel is
    spent. *)
Fixpoint usdf_cq_sread_loop (K : usdf_consts) (fmt : fi_cq_format)
    (timeout_ms : Z) (fuel : nat) (n : nat) (cq : usdf_cq) (hw : hw_queue)
    (b : list cq_entry) (sleep_time_us time_spent_us : Z) (sl : list Z)
    : option (run hw_queue) :=
  let finish cq hw :=
    Some {| ret := if nonempty b then Val (count_of b) else Err FI_EAGAIN;
            buf := b; cq_after := cq; world := hw; slept := sl |} in
  match fuel with
  | O => None
  | S fuel' =>
      match n with
      | O => finish cq hw
      | S n' =>
          match usd_poll_cq hw with
          | (None, hw') =>
              if nonempty b then finish cq hw'
              else if deadline_passed timeout_ms time_spent_us
              then finish cq hw'
              else
                usdf_cq_sread_loop K fmt timeout_ms fuel' n cq hw' b
                  (next_sleep K sleep_time_us)
                  (wrap64 (time_spent_us + sleep_time_us))
                  (sl ++ [sleep_time_us])
          | (Some comp, hw') =>
              let cq' := set_cq_comp comp cq in
              if comp_failed comp then
                if nonempty b then finish cq' hw'
                else Some {| ret := Err FI_EAVAIL; buf := b; cq_after := cq';
                             world := hw'; slept := sl |}
              else
                match usdf_cq_copy_cq_entry K comp fmt with
                | (Val _, Some e) =>
                    usdf_cq_sread_loop K fmt timeout_ms fuel' n' cq' hw'
                      (b ++ [e]) sleep_time_us time_spent_us sl
                | (r', _) =>
                    Some {| ret := r'; buf := b; cq_after := cq';
                            world := hw'; slept := sl |}
                end
          end
      end
  end.

Definition usdf_cq_sread_common (K : usdf_consts) (fmt : fi_cq_format)
    (timeout_ms : Z) (fuel : nat) (count : nat) (cq : usdf_cq)
    (hw : hw_queue) : option (run hw_queue) :=
  if sticky_set cq then
    Some {| ret := Err FI_EAVAIL; buf := []; cq_after := cq; world := hw;
            slept := [] |}
  else if negb (entry_len_known fmt) then
    Some {| ret := Val 0; buf := []; cq_after := cq; world := hw;
            slept := [] |}
  else
    usdf_cq_sread_loop K fmt timeout_ms fuel count cq hw []
      (SREAD_INIT_SLEEP_TIME_US K) 0 [].

(** ** The ring of soft entries *)

Definition zero_entry : usdf_cq_soft_entry :=
  {| cse_context := 0; cse_flags := 0; cse_len := 0; cse_buf := 0;
     cse_data := 0; cse_prov_errno := 0 |}.

(** Index in [cq_slots] of the element a ring pointer designates. *)
Definition slot_index (cq : usdf_cq) (p : Z) : nat :=
  Z.to_nat (p - cq_comps cq).

Definition slot_at (cq : usdf_cq) (p : Z) : usdf_cq_soft_entry :=
  default zero_entry (cq_slots cq !! slot_index cq p).

Definition is_write (o : soft_cq_op) : bool :=
  match o with USDF_SOFT_CQ_WRITE => true | USDF_SOFT_CQ_READ => false end.

Definition is_read (o : soft_cq_op) : bool :=
  match o with USDF_SOFT_CQ_READ => true | USDF_SOFT_CQ_WRITE => false end.

Definition ring_full (cq : usdf_cq) : bool :=
  (cq_head cq =? cq_tail cq) && is_write (cq_last_op cq).

(** [entry++] followed by the wrap written [if (entry != cq_end)]. *)
Definition advance_head (cq : usdf_cq) (entry : Z) : Z :=
  if negb (entry + 1 =? cq_end cq) then entry + 1 else cq_comps cq.

(** [tail++] followed by the wrap written [if (tail == cq_end)]. *)
Definition advance_tail (cq : usdf_cq) (tail : Z) : Z :=
  if tail + 1 =? cq_end cq then cq_comps cq else tail + 1.

Definition usdf_cq_post_soft (cq : usdf_cq) (context len prov_errno : Z)
    : usdf_cq :=
  let entry := cq_head cq in
  if ring_full cq then cq
  else
    let old := slot_at cq entry in
    let new := {| cse_context := context; cse_flags := cse_flags old;
                  cse_len := len; cse_buf := cse_buf old;
                  cse_data := cse_data old; cse_prov_errno := prov_errno |} in
    set_cq_last_op USDF_SOFT_CQ_WRITE
      (set_cq_head (advance_head cq entry)
         (set_cq_slots (<[slot_index cq entry := new]> (cq_slots cq)) cq)).

(** [usdf_progress_hard_cq], by recursion on the schedule [q] of the
    hardware queue [hcq->cqh_ucq]: each turn of the [do] loop polls once into
    the local [comp]. *)
Fixpoint usdf_progress_hard_cq (q : hw_queue) (cq : usdf_cq)
    : usdf_cq * hw_queue :=
  match q with
  | [] => (cq, [])
  | None :: q' => (cq, q')
  | Some comp :: q' =>
      let entry := cq_head cq in
      if ring_full cq then (cq, q')
      else
        let old := slot_at cq entry in
        let new := {| cse_context := uc_context (cq_comp cq);
                      cse_flags := 0;
                      cse_len := uc_bytes (cq_comp cq);
                      cse_buf := 0;
                      cse_data := 0;
                      cse_prov_errno := cse_prov_errno old |} in
        usdf_progress_hard_cq q'
          (set_cq_last_op USDF_SOFT_CQ_WRITE
             (set_cq_head (advance_head cq entry)
                (set_cq_slots (<[slot_index cq entry := new]> (cq_slots cq))
                   cq)))
  end.

(** ** Soft-mode readers *)

(** How the scan of the ring ends: by leaving the [while] loop with the local
    [tail], or by a [return] from inside it. *)
Inductive scan_exit : Type :=
| LoopDone (tail : Z)
| Returned (r : retval).

(** The loop [while (entry < last)] shared by [usdf_cq_read_common_soft] and
    [usdf_cq_sread_common_soft]; [n] counts the records that still fit, [b]
    holds those written so far. *)
Fixpoint soft_scan (fmt : fi_cq_format) (n : nat) (cq : usdf_cq) (tail : Z)
    (b : list cq_entry) : scan_exit * list cq_entry * usdf_cq :=
  match n with
  | O => (LoopDone tail, b, cq)
  | S n' =>
      if (tail =? cq_head cq) && is_read (cq_last_op cq)
      then (LoopDone tail, b, cq)
      else if 0 <? cse_prov_errno (slot_at cq tail) then
        if nonempty b then (LoopDone tail, b, cq)
        else (Returned (Err FI_EAVAIL), b, cq)
      else
        match usdf_cq_copy_soft_entry (slot_at cq tail) fmt with
        | (Val _, Some e) =>
            soft_scan fmt n' (set_cq_last_op USDF_SOFT_CQ_READ cq)
              (advance_tail cq tail) (b ++ [e])
        | (r, _) => (Returned r, b, cq)
        end
  end.

Section SoftReaders.

(** The progress sweep of the domain is outside the translated file: it may
    post to the ring of this queue and depends on an environment [env] of
    its own. *)
Variable env : Type.
Variable usdf_domain_progress : env -> usdf_cq -> env * usdf_cq.

Definition usdf_cq_read_common_soft (fmt : fi_cq_format) (count : nat)
    (cq : usdf_cq) (w : env) : run env :=
  if sticky_set cq then
    {| ret := Err FI_EAVAIL; buf := []; cq_after := cq; world := w;
       slept := [] |}
  else
    let '(w1, cq1) := usdf_domain_progress w cq in
    if negb (entry_len_known fmt) then
      {| ret := Err FI_EOPNOTSUPP; buf := []; cq_after := cq1;
         world := w1; slept := [] |}
    else
      match soft_scan fmt count cq1 (cq_tail cq1) [] with
      | (LoopDone tail, b, cq2) =>
          {| ret := if nonempty b then Val (count_of b) else Err FI_EAGAIN;
             buf := b; cq_after := set_cq_tail tail cq2; world := w1;
             slept := [] |}
      | (Returned r, b, cq2) =>
          {| ret := r; buf := b; cq_after := cq2; world := w1;
             slept := [] |}
      end.

(** The loop [while (1)] of [usdf_cq_sread_common_soft]; the caller's
    buffer is empty at the start of every turn, since a turn that wrote a
    record returns. *)
Fixpoint usdf_cq_sread_soft_loop (K : usdf_consts) (fmt : fi_cq_format)
    (timeout_ms : Z) (fuel : nat) (count : nat) (cq : usdf_cq) (w : env)
    (sleep_time_us time_spent_us : Z) (sl : list Z) : option (run env) :=
  match fuel with
  | O => None
  | S fuel' =>
      let '(w1, cq1) := usdf_domain_progress w cq in
      match soft_scan fmt count cq1 (cq_tail cq1) [] with
      | (Returned r, b, cq2) =>
          Some {| ret := r; buf := b; cq_after := cq2; world := w1;
                  slept := sl |}
      | (LoopDone tail, b, cq2) =>
          if nonempty b then
            Some {| ret := Val (count_of b); buf := b;
                    cq_after := set_cq_tail tail cq2; world := w1;
                    slept := sl |}
          else if deadline_passed timeout_ms time_spent_us then
            Some {| ret := Err FI_EAGAIN; buf := b; cq_after := cq2;
                    world := w1; slept := sl |}
          else
            usdf_cq_sread_soft_loop K fmt timeout_ms fuel' count cq2 w1
              (next_sleep K sleep_time_us)
              (wrap64 (time_spent_us + sleep_time_us))
              (sl ++ [sleep_time_us])
      end
  end.

Definition usdf_cq_sread_common_soft (K : usdf_consts)
    (fmt : fi_cq_format) (timeout_ms : Z) (fuel : nat) (count : nat)
    (cq : usdf_cq) (w : env) : option (run env) :=
  if negb (entry_len_known fmt) then
    Some {| ret := Err FI_EOPNOTSUPP; buf := []; cq_after := cq;
            world := w; slept := [] |}
  else
    usdf_cq_sread_soft_loop K fmt timeout_ms fuel count cq w
      (SREAD_INIT_SLEEP_TIME_US K) 0 [].

End SoftReaders.

Arguments usdf_cq_read_common_soft {env} _ _ _ _ _.
Arguments usdf_cq_sread_soft_loop {env} _ _ _ _ _ _ _ _ _ _ _.
Arguments usdf_cq_sread_common_soft {env} _ _ _ _ _ _ _ _.

(** A progress sweep that finds nothing to do. *)
Definition idle_progress (w : unit) (cq : usdf_cq) : unit * usdf_cq := (w, cq).

(** A progress sweep that posts what a schedule tells it: one batch of
    [(context, len, prov_errno)] per call, each passed to
    [usdf_cq_post_soft]. *)
Definition post_all (cq : usdf_cq) (batch : list (Z * Z * Z)) : usdf_cq :=
  fold_left (fun c p => usdf_cq_post_soft c (fst (fst p)) (snd (fst p)) (snd p))
    batch cq.

Definition scheduled_progress (w : list (list (Z * Z * Z))) (cq : usdf_cq)
    : list (list (Z * Z * Z)) * usdf_cq :=
  match w with
  | [] => ([], cq)
  | batch :: w' => (w', post_all cq batch)
  end.

(** ** Reading an error *)

Definition usdf_cq_readerr (K : usdf_consts) (cq : usdf_cq)
    : retval * option fi_cq_err_entry * usdf_cq :=
  if status_code (uc_status (cq_comp cq)) =? 0 then (Err FI_EAGAIN, None, cq)
  else
    let entry :=
      {| err_op_context := uc_context (cq_comp cq);
         err_flags := 0;
         err_err := errno_val K FI_EIO;
         err_prov_errno :=
           match uc_status (cq_comp cq) with
           | USD_COMPSTAT_SUCCESS => FI_SUCCESS
           | USD_COMPSTAT_ERROR_CRC => errno_val K FI_ECRC
           | USD_COMPSTAT_ERROR_TRUNC => errno_val K FI_ETRUNC
           | USD_COMPSTAT_ERROR_TIMEOUT => errno_val K FI_ETIMEDOUT
           | USD_COMPSTAT_ERROR_INTERNAL => errno_val K FI_EOTHER
           end |} in
    (Val 1, Some entry,
     set_cq_comp (set_uc_status USD_COMPSTAT_SUCCESS (cq_comp cq)) cq).

Definition usdf_cq_readerr_soft (K : usdf_consts) (cq : usdf_cq)
    : retval * option fi_cq_err_entry * usdf_cq :=
  let tail := cq_tail cq in
  let entry :=
    {| err_op_context := cse_context (slot_at cq tail);
       err_flags := 0;
       err_err := errno_val K FI_EIO;
       err_prov_errno := cse_prov_errno (slot_at cq tail) |} in
  (Val 1, Some entry, set_cq_tail (advance_tail cq tail) cq).

(** ** The allocator *)

(** [alloc_plan] lists what the coming calls of [calloc] and [malloc] return,
    [0] for a failure; a plan that has run out fails.  [live] holds the blocks
    handed out and not yet freed. *)
Record heap : Type := {
  alloc_plan : list Z;
  live : list Z
}.

Definition alloc (h : heap) : Z * heap :=
  match alloc_plan h with
  | [] => (0, h)
  | p :: plan =>
      (p, {| alloc_plan := plan;
             live := if p =? 0 then live h else p :: live h |})
  end.

Definition free (p : Z) (h : heap) : heap :=
  {| alloc_plan := alloc_plan h;
     live := List.filter (fun q => negb (q =? p)) (live h) |}.

(** ** Mode switch *)

Definition soft_ops_of (fmt : fi_cq_format) : option fi_ops_cq :=
  match fmt with
  | FI_CQ_FORMAT_CONTEXT => Some usdf_cq_context_soft_ops
  | FI_CQ_FORMAT_MSG => Some usdf_cq_msg_soft_ops
  | FI_CQ_FORMAT_DATA => Some usdf_cq_data_soft_ops
  | _ => None
  end.

Definition hard_ops_of (fmt : fi_cq_format) : option fi_ops_cq :=
  match fmt with
  | FI_CQ_FORMAT_CONTEXT => Some usdf_cq_context_ops
  | FI_CQ_FORMAT_MSG => Some usdf_cq_msg_ops
  | FI_CQ_FORMAT_DATA => Some usdf_cq_data_ops
  | _ => None
  end.

Definition usdf_cq_is_soft (cq : usdf_cq) : bool :=
  match soft_ops_of (format (cq_attr cq)) with
  | Some soft_ops => fi_ops_cq_eqb (cq_ops cq) soft_ops
  | None => false
  end.

Definition usdf_cq_make_soft (cq : usdf_cq) (h : heap)
    : retval * usdf_cq * heap :=
  match hard_ops_of (format (cq_attr cq)), soft_ops_of (format (cq_attr cq))
  with
  | Some hard_ops, Some soft_ops =>
      if fi_ops_cq_eqb (cq_ops cq) hard_ops then
        (* save the CQ before we trash the union *)
        let ucq := cq_cq cq in
        let cq1 := set_cq_list [] cq in
        let '(comps, h1) := alloc h in
        let cq2 :=
          set_cq_slots
            (if comps =? 0 then []
             else replicate (Z.to_nat (size (cq_attr cq))) zero_entry)
            (set_c_word0 comps cq1) in
        if comps =? 0 then (Err FI_ENOMEM, cq2, h1)
        else
          let cq3 :=
            set_cq_tail comps
              (set_cq_head comps
                 (set_cq_end (comps + size (cq_attr cq)) cq2)) in
          if negb (ucq =? 0) then
            let '(hcq, h2) := alloc h1 in
            if hcq =? 0 then
              (Err FI_ENOMEM, set_c_word0 ucq (set_cq_slots [] cq3),
               free comps h2)
            else
              let binding := {| cqh_addr := hcq; cqh_ucq := ucq;
                                cqh_refcnt := cq_refcnt cq |} in
              (Val 0,
               set_cq_ops soft_ops (set_cq_list (binding :: cq_list cq3) cq3),
               h2)
          else (Val 0, set_cq_ops soft_ops cq3, h1)
      else (Val 0, cq, h)
  | _, _ => (Val 0, cq, h)
  end.

(** ** Open *)

Definition set_attr_size (v : Z) (a : fi_cq_attr) : fi_cq_attr :=
  {| size := v; format := format a; wait_obj := wait_obj a |}.

Definition set_attr_format (v : fi_cq_format) (a : fi_cq_attr) : fi_cq_attr :=
  {| size := size a; format := v; wait_obj := wait_obj a |}.

Definition is_wait_none (o : fi_wait_obj) : bool :=
  match o with FI_WAIT_NONE => true | _ => false end.

Definition is_unspec (f : fi_cq_format) : bool :=
  match f with FI_CQ_FORMAT_UNSPEC => true | _ => false end.

(** [uda_max_cqe] is [udp->dom_fabric->fab_dev_attrs->uda_max_cqe]; the
    result carries the attributes as the call leaves them. *)
Definition usdf_cq_process_attr (attr : fi_cq_attr) (uda_max_cqe : Z)
    : retval * fi_cq_attr :=
  if negb (is_wait_none (wait_obj attr)) then (Err FI_ENOSYS, attr)
  else if uda_max_cqe <? size attr then (Err FI_EINVAL, attr)
  else
    let attr1 := if size attr =? 0 then set_attr_size uda_max_cqe attr
                 else attr in
    let attr2 := if is_unspec (format attr1)
                 then set_attr_format FI_CQ_FORMAT_CONTEXT attr1
                 else attr1 in
    (Val 0, attr2).

Definition zero_completion : usd_completion :=
  {| uc_type := USD_COMPTYPE_SEND; uc_status := USD_COMPSTAT_SUCCESS;
     uc_context := 0; uc_bytes := 0; uc_ep_mode := 0 |}.

(** The queue [calloc] returns, with the fields [usdf_cq_open] stores before
    its [switch]; [cq_attr] is still zeroed. *)
Definition fresh_cq : usdf_cq :=
  {| cq_ops := ops_null; cq_refcnt := 0;
     cq_attr := {| size := 0; format := FI_CQ_FORMAT_UNSPEC;
                   wait_obj := FI_WAIT_NONE |};
     c_word0 := 0; cq_end := 0; cq_head := 0; cq_tail := 0;
     cq_last_op := USDF_SOFT_CQ_READ; cq_list := [];
     cq_comp := zero_completion; cq_slots := [] |}.

Definition set_cq_attr (v : fi_cq_attr) (cq : usdf_cq) : usdf_cq :=
  {| cq_ops := cq_ops cq; cq_refcnt := cq_refcnt cq; cq_attr := v;
     c_word0 := c_word0 cq; cq_end := cq_end cq; cq_head := cq_head cq;
     cq_tail := cq_tail cq; cq_last_op := cq_last_op cq;
     cq_list := cq_list cq; cq_comp := cq_comp cq; cq_slots := cq_slots cq |}.

(** What [usdf_cq_open] leaves: the value returned, the caller's attributes,
    the queue stored through [cq_o] if any, and the allocator. *)
Record opened : Type := {
  open_ret : retval;
  open_attr : fi_cq_attr;
  open_cq : option usdf_cq;
  open_heap : heap
}.

Definition usdf_cq_open (uda_max_cqe : Z) (attr : fi_cq_attr) (h : heap)
    : opened :=
  match usdf_cq_process_attr attr uda_max_cqe with
  | (Val 0, attr') =>
      let '(p, h1) := alloc h in
      if p =? 0 then
        {| open_ret := Err FI_ENOMEM; open_attr := attr'; open_cq := None;
           open_heap := h1 |}
      else
        match hard_ops_of (format attr') with
        | Some ops =>
            {| open_ret := Val 0; open_attr := attr';
               open_cq := Some (set_cq_attr attr' (set_cq_ops ops fresh_cq));
               open_heap := h1 |}
        | None =>
            {| open_ret := Err FI_ENOSYS; open_attr := attr';
               open_cq := None; open_heap := free p h1 |}
        end
  | (r, attr') =>
      {| open_ret := r; open_attr := attr'; open_cq := None;
         open_heap := h |}
  end.

(** ** Close *)

(** What [usdf_cq_close] leaves: the value returned, the queue, the hardware
    queues [usd_destroy_cq] destroyed, the bindings freed, and whether the
    queue itself was freed. *)
Record closed : Type := {
  close_ret : retval;
  close_cq : usdf_cq;
  destroyed : list Z;
  freed_bindings : list Z;
  freed_cq : bool
}.

Section Close.

(** [usd_destroy_cq] is outside the translated file; it answers [0] when
    it destroyed the hardware queue and an error code otherwise. *)
Variable usd_destroy_cq : Z -> Z.

(** The loop [while (!TAILQ_EMPTY(&cq->c.soft.cq_list))]; [l] is the list
    of bindings, [d] and [f] hold what was destroyed and freed so far.  The
    first component is [None] when the loop ends with the list empty. *)
Fixpoint close_soft_loop (l : list usdf_cq_hard) (d f : list Z)
    : option retval * list usdf_cq_hard * list Z * list Z :=
  match l with
  | [] => (None, [], d, f)
  | hcq :: l' =>
      if 0 <? cqh_refcnt hcq then (Some (Err FI_EBUSY), l, d, f)
      else if negb (cqh_ucq hcq =? 0) then
        let r := usd_destroy_cq (cqh_ucq hcq) in
        if negb (r =? 0) then (Some (Val r), l', d, f)
        else close_soft_loop l' (d ++ [cqh_ucq hcq]) (f ++ [cqh_addr hcq])
      else close_soft_loop l' d (f ++ [cqh_addr hcq])
  end.

Definition usdf_cq_close (cq : usdf_cq) : closed :=
  if 0 <? cq_refcnt cq then
    {| close_ret := Err FI_EBUSY; close_cq := cq; destroyed := [];
       freed_bindings := []; freed_cq := false |}
  else if usdf_cq_is_soft cq then
    match close_soft_loop (cq_list cq) [] [] with
    | (Some r, l, d, f) =>
        {| close_ret := r; close_cq := set_cq_list l cq; destroyed := d;
           freed_bindings := f; freed_cq := false |}
    | (None, l, d, f) =>
        {| close_ret := Val 0; close_cq := set_cq_list l cq;
           destroyed := d; freed_bindings := f; freed_cq := true |}
    end
  else if negb (cq_cq cq =? 0) then
    let r := usd_destroy_cq (cq_cq cq) in
    if negb (r =? 0) then
      {| close_ret := Val r; close_cq := cq; destroyed := [];
         freed_bindings := []; freed_cq := false |}
    else
      {| close_ret := Val 0; close_cq := cq; destroyed := [cq_cq cq];
         freed_bindings := []; freed_cq := true |}
  else
    {| close_ret := Val 0; close_cq := cq; destroyed := [];
       freed_bindings := []; freed_cq := true |}.

End Close.

(** ** The ring as the readers see it *)

(** Offsets from [cq_comps]: [c] is the capacity, [h] the head and [t] the
    tail.  [ring_len] is the number of entries between tail and head and
    [ring_pos] the offset of the [i]-th of them. *)
Definition ring_len (c h t : Z) (o : soft_cq_op) : Z :=
  if h =? t then (if is_write o then c else 0)
  else if t <? h then h - t
  else h - t + c.

Definition ring_pos (c t i : Z) : Z :=
  if t + i <? c then t + i else t + i - c.

Definition ring_items (slots : list usdf_cq_soft_entry) (c h t : Z)
    (o : soft_cq_op) : list usdf_cq_soft_entry :=
  map (fun i => default zero_entry
                  (slots !! Z.to_nat (ring_pos c t (Z.of_nat i))))
      (seq 0 (Z.to_nat (ring_len c h t o))).

Definition ring_cap (cq : usdf_cq) : Z := cq_end cq - cq_comps cq.

(** The entries a reader will meet, oldest first. *)
Definition ring_contents (cq : usdf_cq) : list usdf_cq_soft_entry :=
  ring_items (cq_slots cq) (ring_cap cq) (cq_head cq - cq_comps cq)
    (cq_tail cq - cq_comps cq) (cq_last_op cq).

(** The pointers of the ring lie inside the block of [ring_cap] entries. *)
Definition ring_wf (cq : usdf_cq) : Prop :=
  0 < ring_cap cq /\
  length (cq_slots cq) = Z.to_nat (ring_cap cq) /\
  cq_comps cq <= cq_head cq < cq_end cq /\
  cq_comps cq <= cq_tail cq < cq_end cq.

Definition ring_empty (cq : usdf_cq) : bool :=
  (cq_tail cq =? cq_head cq) && is_read (cq_last_op cq).

(** The entry [usdf_cq_post_soft] leaves in the slot under the head. *)
Definition posted_entry (cq : usdf_cq) (context len prov_errno : Z)
    : usdf_cq_soft_entry :=
  {| cse_context := context;
     cse_flags := cse_flags (slot_at cq (cq_head cq));
     cse_len := len;
     cse_buf := cse_buf (slot_at cq (cq_head cq));
     cse_data := cse_data (slot_at cq (cq_head cq));
     cse_prov_errno := prov_errno |}.

(** The part of a soft entry that [usdf_cq_post_soft] stores. *)
Definition posted (e : usdf_cq_soft_entry) : Z * Z * Z :=
  (cse_context e, cse_len e, cse_prov_errno e).

Definition is_success (e : usdf_cq_soft_entry) : Prop :=
  cse_prov_errno e <= 0.

(** The record the soft copier writes for an entry in a known format. *)
Definition soft_record (fmt : fi_cq_format) (e : usdf_cq_soft_entry)
    : cq_entry :=
  match fmt with
  | FI_CQ_FORMAT_MSG =>
      fi_cq_msg_entry (cse_context e) (cse_flags e) (cse_len e)
  | FI_CQ_FORMAT_DATA =>
      fi_cq_data_entry (cse_context e) (cse_flags e) (cse_len e)
        (cse_buf e) (cse_data e)
  | _ => fi_cq_entry (cse_context e)
  end.

(** The record the hard copier writes for a completion in a known format. *)
Definition hard_record (K : usdf_consts) (fmt : fi_cq_format)
    (c : usd_completion) : cq_entry :=
  match fmt with
  | FI_CQ_FORMAT_MSG =>
      fi_cq_msg_entry (uc_context c) (usdf_cqe_to_flags K c)
        (usdf_cq_adjust_len K c (uc_bytes c))
  | FI_CQ_FORMAT_DATA =>
      fi_cq_data_entry (uc_context c) (usdf_cqe_to_flags K c)
        (usdf_cq_adjust_len K c (uc_bytes c)) 0 0
  | _ => fi_cq_entry (uc_context c)
  end.

(** The length the length-adjustment rule promises, follows the wording of
    the rule: a receive loses the header outside header-prefix mode and
    gains the padding inside it; a send gains the prefix inside it only. *)
Definition spec_reported_len (K : usdf_consts) (src : usd_completion)
    (L : Z) : Z :=
  match uc_type src, prefix_mode K src with
  | USD_COMPTYPE_RECV, false => L - sizeof_usd_udp_hdr K
  | USD_COMPTYPE_RECV, true =>
      L + (USDF_HDR_BUF_ENTRY K - sizeof_usd_udp_hdr K)
  | USD_COMPTYPE_SEND, true => L + USDF_HDR_BUF_ENTRY K
  | USD_COMPTYPE_SEND, false => L
  | USD_COMPTYPE_OTHER _, true => L + USDF_HDR_BUF_ENTRY K
  | USD_COMPTYPE_OTHER _, false => L
  end.

(** The back-off sequence the description of the poller promises: it starts
    at the initial quantum and each further quantum is the previous one times
    the base, capped at the maximum. *)
Fixpoint spec_quanta (K : usdf_consts) (q : Z) (n : nat) : list Z :=
  match n with
  | O => []
  | S n' =>
      q :: spec_quanta K (Z.min (q * SREAD_EXP_BASE K)
                            (SREAD_MAX_SLEEP_TIME_US K)) n'
  end.

(** ** Sample values *)

(** A choice of the constants, used by the examples. *)
Definition sample_consts : usdf_consts :=
  {| USDF_HDR_BUF_ENTRY := 64;
     sizeof_usd_udp_hdr := 42;
     FI_MSG_PREFIX := Z.shiftl 1 58;
     FI_MSG := Z.shiftl 1 1;
     FI_SEND := Z.shiftl 1 10;
     FI_RECV := Z.shiftl 1 9;
     SREAD_INIT_SLEEP_TIME_US := 1;
     SREAD_MAX_SLEEP_TIME_US := 5000;
     SREAD_EXP_BASE := 2;
     errno_val := fun e =>
       match e with
       | FI_EAGAIN => 11 | FI_EAVAIL => 259 | FI_EBUSY => 16
       | FI_ENOMEM => 12 | FI_EINVAL => 22 | FI_ENOSYS => 38
       | FI_EOPNOTSUPP => 95 | FI_EIO => 5 | FI_ECRC => 260
       | FI_ETRUNC => 261 | FI_ETIMEDOUT => 110 | FI_EOTHER => 257
       end |}.

Definition sample_attr (fmt : fi_cq_format) (n : Z) : fi_cq_attr :=
  {| size := n; format := fmt; wait_obj := FI_WAIT_NONE |}.

(** A hard-mode queue of format [fmt] and depth [n] bound to the hardware
    queue [ucq]. *)
Definition sample_hard_cq (fmt : fi_cq_format) (n ucq : Z) : usdf_cq :=
  set_c_word0 ucq
    (set_cq_attr (sample_attr fmt n)
       (set_cq_ops (default ops_null (hard_ops_of fmt)) fresh_cq)).

(** A soft-mode queue of format [fmt] with an empty ring of [n] zeroed
    entries at address [base] and no binding. *)
Definition sample_soft_cq (fmt : fi_cq_format) (n base : Z) : usdf_cq :=
  set_cq_slots (replicate (Z.to_nat n) zero_entry)
    (set_cq_tail base
       (set_cq_head base
          (set_cq_end (base + n)
             (set_c_word0 base
                (set_cq_attr (sample_attr fmt n)
                   (set_cq_ops (default ops_null (soft_ops_of fmt))
                      fresh_cq)))))).

Definition sample_comp (t : usd_completion_type) (s : usd_completion_status)
    (ctx bytes : Z) : usd_completion :=
  {| uc_type := t; uc_status := s; uc_context := ctx; uc_bytes := bytes;
     uc_ep_mode := 0 |}.

(** ** Vocabulary for close *)

(** A binding that close can dispose of: nothing refers to it and its
    hardware queue, if it has one, is destroyed without error. *)
Definition released (usd_destroy_cq : Z -> Z) (hcq : usdf_cq_hard) : Prop :=
  cqh_refcnt hcq <= 0 /\
  (cqh_ucq hcq = 0 \/ usd_destroy_cq (cqh_ucq hcq) = 0).

(** The hardware queues of a list of bindings, and their addresses. *)
Definition ucqs_of (l : list usdf_cq_hard) : list Z :=
  List.filter (fun u => negb (u =? 0)) (map cqh_ucq l).

Definition addrs_of (l : list usdf_cq_hard) : list Z := map cqh_addr l.

(** A destroy primitive that fails with [-22] on the hardware queue [1]. *)
Definition sample_destroy (ucq : Z) : Z := if ucq =? 1 then -22 else 0.

(** A soft queue with two bindings: the first unreferenced, over the
    hardware queue [1]; the second referenced once, over [2]. *)
Definition sample_two_bindings : usdf_cq :=
  set_cq_list
    [ {| cqh_addr := 8192; cqh_ucq := 1; cqh_refcnt := 0 |};
      {| cqh_addr := 8256; cqh_ucq := 2; cqh_refcnt := 1 |} ]
    (sample_soft_cq FI_CQ_FORMAT_MSG 4 4096).

(** ** Vocabulary for the readers *)

(** Why a scan that has passed over the entries [good] goes no further: the
    caller's buffer of [n] records is full, the ring holds nothing more, or
    the next entry carries an error. *)
Definition scan_stops (n : nat) (good rest : list usdf_cq_soft_entry) : Prop :=
  length good = n \/ rest = [] \/
  exists e rest', rest = e :: rest' /\ 0 < cse_prov_errno e.

(** The same for polls of the hardware queue [hw] left after the successful
    completions: the buffer is full, nothing is available, or the next
    completion failed. *)
Definition polls_stop (n : nat) (good : list usd_completion) (hw : hw_queue)
    : Prop :=
  length good = n \/ fst (usd_poll_cq hw) = None \/
  exists c, fst (usd_poll_cq hw) = Some c /\ comp_failed c = true.

(** A succession of non-blocking soft reads of [counts] records each, with an
    idle progress sweep: the records returned, in order, and the queue
    left. *)
Fixpoint soft_reads (fmt : fi_cq_format) (counts : list nat) (cq : usdf_cq)
    : list cq_entry * usdf_cq :=
  match counts with
  | [] => ([], cq)
  | k :: ks =>
      let r := usdf_cq_read_common_soft idle_progress fmt k cq tt in
      let '(bs, cq') := soft_reads fmt ks (cq_after r) in
      (buf r ++ bs, cq')
  end.

(** The queue after [usd_poll_cq] has stored the completions [good], one
    after the other, in [cq_comp]. *)
Definition polled (good : list usd_completion) (cq : usdf_cq) : usdf_cq :=
  fold_left (fun c g => set_cq_comp g c) good cq.

Definition succeeded (c : usd_completion) : Prop := comp_failed c = false.

(** A soft queue whose ring of four holds one successful entry and then one
    entry with the provider error code [5]. *)
Definition sample_ring_with_error : usdf_cq :=
  post_all (sample_soft_cq FI_CQ_FORMAT_MSG 4 4096) [(7, 10, 0); (8, 20, 5)].

(** ** Vocabulary for the back-off *)

(** What the back-off needs of its constants: the initial quantum lies
    between zero and the maximum, the base is at least one, and a quantum
    below the maximum can be multiplied by the base in a [size_t]. *)
Definition backoff_consts_ok (K : usdf_consts) : Prop :=
  0 <= SREAD_INIT_SLEEP_TIME_US K <= SREAD_MAX_SLEEP_TIME_US K /\
  1 <= SREAD_EXP_BASE K /\
  SREAD_MAX_SLEEP_TIME_US K * SREAD_EXP_BASE K < 2 ^ 64.

(** The quanta a blocking read has slept follow the promised sequence and
    stay below the maximum. *)
Definition backoff_trace (K : usdf_consts) (sl : list Z) : Prop :=
  sl = spec_quanta K (SREAD_INIT_SLEEP_TIME_US K) (length sl) /\
  Forall (fun q => q <= SREAD_MAX_SLEEP_TIME_US K) sl.

(** A hardware queue that yields nothing for [k] polls, then what [hw]
    tells. *)
Definition after_empty_polls (k : nat) (hw : hw_queue) : hw_queue :=
  replicate k None ++ hw.

(** ** Reads that resolve the source address *)

(** The hardware queues of the device by address: [dev p] is the queue
    behind the handle [p], and [None] when [p] is not the address of a
    hardware queue. *)
Definition device : Type := Z -> option hw_queue.

Definition dev_set (p : Z) (hw : hw_queue) (dev : device) : device :=
  fun q => if q =? p then Some hw else dev q.

Section ReadFrom.

(** What lies outside the translated file: [hdr_source comp] is the pair
    [(hdr->uh_ip.saddr, hdr->uh_udp.source)] of the wire header kept for the
    queue slot the completion designates; [fi_av_insert a sin] inserts one
    address in the address vector [a] and yields the vector, the value it
    returns and the handle it stores through [src_addr];
    [FI_ADDR_NOTAVAIL] is the constant of rdma/fabric.h. *)
Variable av : Type.
Variable hdr_source : usd_completion -> Z * Z.
Variable fi_av_insert : av -> Z * Z -> av * Z * Z.
Variable FI_ADDR_NOTAVAIL : Z.

(** The loop of [usdf_cq_readfrom_context]; [n] counts the records that
    still fit, [b] holds the records written, [addrs] the handles written
    through [src_addr], which moves on after a receive completion only, and
    [r] is the current value of [ret].  The world of the run is the hardware
    queue, the address vector and the handles written. *)
Fixpoint usdf_cq_readfrom_loop (n : nat) (cq : usdf_cq) (hw : hw_queue)
    (a : av) (b : list cq_entry) (addrs : list Z) (r : retval)
    : run (hw_queue * av * list Z) :=
  let finish r cq hw :=
    {| ret := if nonempty b then Val (count_of b) else r;
       buf := b; cq_after := cq; world := (hw, a, addrs); slept := [] |} in
  match n with
  | O => finish r cq hw
  | S n' =>
      match usd_poll_cq hw with
      | (None, hw') => finish (Val 0) cq hw'
      | (Some comp, hw') =>
          let cq' := set_cq_comp comp cq in
          if comp_failed comp then finish (Err FI_EAVAIL) cq' hw'
          else if is_recv (uc_type comp) then
            let '(a', rv, h) := fi_av_insert a (hdr_source comp) in
            usdf_cq_readfrom_loop n' cq' hw' a'
              (b ++ [fi_cq_entry (uc_context comp)])
              (addrs ++ [if negb (rv =? 1) then FI_ADDR_NOTAVAIL else h])
              (Val rv)
          else
            usdf_cq_readfrom_loop n' cq' hw' a
              (b ++ [fi_cq_entry (uc_context comp)]) addrs (Val 0)
      end
  end.

Definition usdf_cq_readfrom_context (count : nat) (cq : usdf_cq)
    (hw : hw_queue) (a : av) : run (hw_queue * av * list Z) :=
  if sticky_set cq then
    {| ret := Err FI_EAVAIL; buf := []; cq_after := cq;
       world := (hw, a, []); slept := [] |}
  else usdf_cq_readfrom_loop count cq hw a [] [] (Val 0).

(** [usdf_cq_readfrom_context_soft] has the body of the hard-mode function,
    the handle included: it polls [cq->c.hard.cq_cq], the word that holds
    [c.soft.cq_comps] once the queue is soft, and looks neither at the ring
    nor at the bindings.  The first turn of the loop reads
    [ucq->ucq_desc_ring] and calls [usd_poll_cq] on that handle; [None] is
    the call whose handle is not the address of a hardware queue, for which
    the source defines no result.  The world of the run is the device, the
    address vector and the handles written. *)
Definition usdf_cq_readfrom_context_soft (count : nat) (cq : usdf_cq)
    (dev : device) (a : av) : option (run (device * av * list Z)) :=
  if sticky_set cq then
    Some {| ret := Err FI_EAVAIL; buf := []; cq_after := cq;
            world := (dev, a, []); slept := [] |}
  else
    match count with
    | O =>
        Some {| ret := Val 0; buf := []; cq_after := cq;
                world := (dev, a, []); slept := [] |}
    | S _ =>
        match dev (cq_cq cq) with
        | None => None
        | Some hw =>
            let r := usdf_cq_readfrom_loop count cq hw a [] [] (Val 0) in
            let '(hw', a', addrs) := world r in
            Some {| ret := ret r; buf := buf r; cq_after := cq_after r;
                    world := (dev_set (cq_cq cq) hw' dev, a', addrs);
                    slept := [] |}
        end
    end.

(** The handle a receive completion gets. *)
Definition resolved (a : av) (comp : usd_completion) : Z :=
  let '(_, rv, h) := fi_av_insert a (hdr_source comp) in
  if negb (rv =? 1) then FI_ADDR_NOTAVAIL else h.

(** The handles of the receive completions among [l], resolved one after
    the other from the address vector [a], and the vector left. *)
Fixpoint resolve_all (a : av) (l : list usd_completion) : list Z * av :=
  match l with
  | [] => ([], a)
  | comp :: l' =>
      if is_recv (uc_type comp) then
        let '(a', _, _) := fi_av_insert a (hdr_source comp) in
        let '(hs, a'') := resolve_all a' l' in
        (resolved a comp :: hs, a'')
      else resolve_all a l'
  end.

End ReadFrom.

Arguments usdf_cq_readfrom_loop {av} _ _ _ _ _ _ _ _ _ _.
Arguments usdf_cq_readfrom_context {av} _ _ _ _ _ _ _.
Arguments usdf_cq_readfrom_context_soft {av} _ _ _ _ _ _ _.
Arguments resolved {av} _ _ _ _ _.
Arguments resolve_all {av} _ _ _ _ _.

(** An address vector that numbers the addresses it is given from [100] on
    and refuses the source port [0]. *)
Definition sample_av_insert (a : Z) (sin : Z * Z) : Z * Z * Z :=
  if snd sin =? 0 then (a, 0, 0) else (a + 1, 1, 100 + a).

Definition sample_hdr_source (comp : usd_completion) : Z * Z :=
  (uc_context comp, uc_bytes comp).

(** ** Error strings *)

(** [strncpy dst s n] for a source string of the characters [s], none of
    them zero, into a buffer [dst] of at least [n] bytes: the first [n]
    characters of [s], padded with zeros up to [n], replace the first [n]
    bytes of [dst]. *)
Definition strncpy (dst s : list Z) (n : nat) : list Z :=
  take n (s ++ replicate (n - length s) 0) ++ drop n dst.

(** What [usdf_cq_strerror] returns: the static string of [fi_strerror], or
    the caller's buffer with its new contents. *)
Inductive strerror_result : Type :=
| StaticString (s : list Z)
| InBuffer (contents : list Z).

(** [fi_strerror] is outside the translated file; [buf] is [None] for a
    null pointer. *)
Definition usdf_cq_strerror (fi_strerror : Z -> list Z) (prov_errno : Z)
    (buf : option (list Z)) (len : nat) : strerror_result :=
  match buf, len with
  | Some dst, S m =>
      InBuffer (<[m := 0]> (strncpy dst (fi_strerror prov_errno) (S m)))
  | _, _ => StaticString (fi_strerror prov_errno)
  end.

(** The characters of the C string at the start of a buffer. *)
Fixpoint c_string (l : list Z) : list Z :=
  match l with
  | [] => []
  | c :: l' => if c =? 0 then [] else c :: c_string l'
  end.

(** ** The operation tables *)

(** Entry points of a table, by name of the function the table holds. *)
Inductive read_entry : Type :=
| read_hard (fmt : fi_cq_format)
| read_soft (fmt : fi_cq_format).

Inductive readfrom_entry : Type :=
| usdf_cq_readfrom_context_entry
| usdf_cq_readfrom_context_soft_entry
| fi_no_cq_readfrom.

Inductive readerr_entry : Type :=
| usdf_cq_readerr_entry
| usdf_cq_readerr_soft_entry.

(** The members [.read] and [.sread] take the same reader. *)
Definition ops_read (o : fi_ops_cq) : option read_entry :=
  match o with
  | ops_null => None
  | usdf_cq_context_ops => Some (read_hard FI_CQ_FORMAT_CONTEXT)
  | usdf_cq_context_soft_ops => Some (read_soft FI_CQ_FORMAT_CONTEXT)
  | usdf_cq_msg_ops => Some (read_hard FI_CQ_FORMAT_MSG)
  | usdf_cq_msg_soft_ops => Some (read_soft FI_CQ_FORMAT_MSG)
  | usdf_cq_data_ops => Some (read_hard FI_CQ_FORMAT_DATA)
  | usdf_cq_data_soft_ops => Some (read_soft FI_CQ_FORMAT_DATA)
  end.

Definition ops_readfrom (o : fi_ops_cq) : option readfrom_entry :=
  match o with
  | ops_null => None
  | usdf_cq_context_ops => Some usdf_cq_readfrom_context_entry
  | usdf_cq_context_soft_ops => Some usdf_cq_readfrom_context_soft_entry
  | _ => Some fi_no_cq_readfrom
  end.

Definition ops_readerr (o : fi_ops_cq) : option readerr_entry :=
  match o with
  | ops_null => None
  | usdf_cq_context_ops | usdf_cq_msg_ops | usdf_cq_data_ops =>
      Some usdf_cq_readerr_entry
  | _ => Some usdf_cq_readerr_soft_entry
  end.

(** A succession of promotions of one queue, each with the allocator as the
    one before left it; the values returned, first call first. *)
Fixpoint make_soft_times (n : nat) (cq : usdf_cq) (h : heap)
    : list retval * usdf_cq * heap :=
  match n with
  | O => ([], cq, h)
  | S n' =>
      let '(r, cq1, h1) := usdf_cq_make_soft cq h in
      let '(rs, cq2, h2) := make_soft_times n' cq1 h1 in
      (r :: rs, cq2, h2)
  end.

(** ** Vocabulary for the producers *)

(** The three stores both producers end with: the entry [new] goes to the
    slot under the head, the head moves on with wrap, and the last operation
    becomes a write. *)
Definition ring_push (cq : usdf_cq) (new : usdf_cq_soft_entry) : usdf_cq :=
  set_cq_last_op USDF_SOFT_CQ_WRITE
    (set_cq_head (advance_head cq (cq_head cq))
       (set_cq_slots (<[slot_index cq (cq_head cq) := new]> (cq_slots cq))
          cq)).

(** The entry [usdf_progress_hard_cq] leaves in the slot under the head. *)
Definition pumped_entry (cq : usdf_cq) : usdf_cq_soft_entry :=
  {| cse_context := uc_context (cq_comp cq);
     cse_flags := 0;
     cse_len := uc_bytes (cq_comp cq);
     cse_buf := 0;
     cse_data := 0;
     cse_prov_errno := cse_prov_errno (slot_at cq (cq_head cq)) |}.

(** What an entry pushed by the pump carries, whatever was polled. *)
Definition pumped_from (cq : usdf_cq) (e : usdf_cq_soft_entry) : Prop :=
  cse_context e = uc_context (cq_comp cq) /\
  cse_len e = uc_bytes (cq_comp cq) /\
  cse_flags e = 0 /\ cse_buf e = 0 /\ cse_data e = 0.

(** The room left in the ring. *)
Definition ring_room (cq : usdf_cq) : nat :=
  (Z.to_nat (ring_cap cq) - length (ring_contents cq))%nat.

(** ** Vocabulary for the error-read and the waits *)

(** The provider error code the hard-mode error-read reports for a status. *)
Definition status_errno (K : usdf_consts) (s : usd_completion_status) : Z :=
  match s with
  | USD_COMPSTAT_SUCCESS => FI_SUCCESS
  | USD_COMPSTAT_ERROR_CRC => errno_val K FI_ECRC
  | USD_COMPSTAT_ERROR_TRUNC => errno_val K FI_ETRUNC
  | USD_COMPSTAT_ERROR_TIMEOUT => errno_val K FI_ETIMEDOUT
  | USD_COMPSTAT_ERROR_INTERNAL => errno_val K FI_EOTHER
  end.

(** The time a blocking read has slept, in microseconds. *)
Definition total_slept (sl : list Z) : Z := fold_right Z.add 0 sl.

(** * Properties *)

(** ** Tactics *)

(** Case analysis on the integer tests of a goal and of its hypotheses. *)
Ltac ztests :=
  repeat match goal with
  | |- context [?a =? ?b] => destruct (Z.eqb_spec a b)
  | |- context [?a <? ?b] => destruct (Z.ltb_spec a b)
  | |- context [?a <=? ?b] => destruct (Z.leb_spec a b)
  | H : context [?a =? ?b] |- _ => destruct (Z.eqb_spec a b)
  | H : context [?a <? ?b] |- _ => destruct (Z.ltb_spec a b)
  | H : context [?a <=? ?b] |- _ => destruct (Z.leb_spec a b)
  end.

(** Well-formedness of the ring of a given queue, by evaluation. *)
Ltac ring_wf_eval :=
  vm_compute; repeat split; try reflexivity; intro; discriminate.

(** ** Entry copier *)

Lemma wrap64_small (z : Z) : 0 <= z < 2 ^ 64 -> wrap64 z = z.
Proof. intros H. unfold wrap64. now apply Z.mod_small. Qed.

Lemma wrap64_add_r (a b : Z) : wrap64 (a + wrap64 b) = wrap64 (a + b).
Proof. unfold wrap64. now rewrite Z.add_mod_idemp_r by lia. Qed.

Lemma adjust_len_spec (K : usdf_consts) (src : usd_completion) (L : Z) :
  0 <= L < 2 ^ 64 ->
  0 <= spec_reported_len K src L < 2 ^ 64 ->
  usdf_cq_adjust_len K src L = spec_reported_len K src L.
Proof.
  intros HL Hfit. unfold usdf_cq_adjust_len, spec_reported_len in *.
  destruct (uc_type src), (prefix_mode K src); simpl;
    rewrite ?wrap64_add_r; try reflexivity; now apply wrap64_small.
Qed.

(** C7, counterexample.  A receive completion of [10] bytes outside
    header-prefix mode, with a header of [42] bytes: the copier reports the
    length [2 ^ 64 - 32], and not [L - header_size]. *)
Lemma C7_counterexample :
  let src := sample_comp USD_COMPTYPE_RECV USD_COMPSTAT_SUCCESS 7 10 in
  length_carrying FI_CQ_FORMAT_MSG = true /\
  uc_type src = USD_COMPTYPE_RECV /\
  prefix_mode sample_consts src = false /\
  uc_bytes src = 10 /\
  sizeof_usd_udp_hdr sample_consts = 42 /\
  exists e,
    usdf_cq_copy_cq_entry sample_consts src FI_CQ_FORMAT_MSG =
      (Val FI_SUCCESS, Some e) /\
    entry_len_field e = Some (2 ^ 64 - 32) /\
    entry_len_field e <>
      Some (uc_bytes src - sizeof_usd_udp_hdr sample_consts).
Proof.
  repeat (split; [reflexivity |]).
  eexists. split; [reflexivity |]. split; [reflexivity |].
  vm_compute. discriminate.
Qed.

(** C7, as the code has it.  In a length-carrying format the copier reports,
    for a completion of raw length [L], the length the rule gives:
    [L - header_size] for a receive outside header-prefix mode,
    [L + (advertised_prefix_size - header_size)] for a receive inside it,
    [L + advertised_prefix_size] for a send inside it and [L] for a send
    outside it, when that length is a [size_t]: a receive outside
    header-prefix mode has to be as long as the header at least. *)
Theorem C7_copier_length_adjustment (K : usdf_consts) (src : usd_completion)
    (fmt : fi_cq_format) (L : Z) :
  length_carrying fmt = true ->
  uc_bytes src = L ->
  0 <= L < 2 ^ 64 ->
  0 <= spec_reported_len K src L < 2 ^ 64 ->
  exists e,
    usdf_cq_copy_cq_entry K src fmt = (Val FI_SUCCESS, Some e) /\
    entry_len_field e = Some (spec_reported_len K src L) /\
    (uc_type src = USD_COMPTYPE_RECV -> prefix_mode K src = false ->
     entry_len_field e = Some (L - sizeof_usd_udp_hdr K)) /\
    (uc_type src = USD_COMPTYPE_RECV -> prefix_mode K src = true ->
     entry_len_field e =
       Some (L + (USDF_HDR_BUF_ENTRY K - sizeof_usd_udp_hdr K))) /\
    (uc_type src = USD_COMPTYPE_SEND -> prefix_mode K src = true ->
     entry_len_field e = Some (L + USDF_HDR_BUF_ENTRY K)) /\
    (uc_type src = USD_COMPTYPE_SEND -> prefix_mode K src = false ->
     entry_len_field e = Some L).
Proof.
  intros Hfmt Hbytes HL Hfit.
  pose proof (adjust_len_spec K src L HL Hfit) as Hadj.
  destruct fmt; try discriminate Hfmt; simpl; rewrite Hbytes, Hadj;
    eexists; (split; [reflexivity |]); simpl;
    (split; [reflexivity |]);
    unfold spec_reported_len;
    repeat split; intros Ht Hp; now rewrite Ht, Hp.
Qed.

Lemma C7_copier_length_adjustment_witness :
  exists e,
    usdf_cq_copy_cq_entry sample_consts
      (sample_comp USD_COMPTYPE_RECV USD_COMPSTAT_SUCCESS 7 100)
      FI_CQ_FORMAT_MSG = (Val FI_SUCCESS, Some e) /\
    entry_len_field e = Some 58.
Proof.
  destruct (C7_copier_length_adjustment sample_consts
              (sample_comp USD_COMPTYPE_RECV USD_COMPSTAT_SUCCESS 7 100)
              FI_CQ_FORMAT_MSG 100) as [e [He [Hlen _]]].
  - reflexivity.
  - reflexivity.
  - lia.
  - change (0 <= 58 < 2 ^ 64). lia.
  - exists e. split; [exact He | exact Hlen].
Defined.

(** ** Open *)

Lemma process_attr_format (attr : fi_cq_attr) (m : Z) (attr' : fi_cq_attr) :
  usdf_cq_process_attr attr m = (Val 0, attr') ->
  format attr' = if is_unspec (format attr) then FI_CQ_FORMAT_CONTEXT
                 else format attr.
Proof.
  unfold usdf_cq_process_attr.
  destruct (is_wait_none (wait_obj attr)); simpl; [| discriminate].
  destruct (m <? size attr); [discriminate |].
  intros H. injection H as <-.
  destruct (size attr =? 0); simpl; destruct (is_unspec (format attr));
    reflexivity.
Qed.

(** C10.  An open call whose attributes pass validation and leave the format
    unspecified rewrites the caller's attributes to the context-only format
    and, unless the allocation of the queue fails, creates the queue with the
    context-only operation table and the context-only format. *)
Theorem C10_open_defaults_to_context (uda_max_cqe : Z) (attr : fi_cq_attr)
    (h : heap) :
  fst (usdf_cq_process_attr attr uda_max_cqe) = Val 0 ->
  format attr = FI_CQ_FORMAT_UNSPEC ->
  let o := usdf_cq_open uda_max_cqe attr h in
  format (open_attr o) = FI_CQ_FORMAT_CONTEXT /\
  (fst (alloc h) = 0 -> open_ret o = Err FI_ENOMEM /\ open_cq o = None) /\
  (fst (alloc h) <> 0 ->
   open_ret o = Val 0 /\
   exists cq, open_cq o = Some cq /\
     cq_ops cq = usdf_cq_context_ops /\
     format (cq_attr cq) = FI_CQ_FORMAT_CONTEXT /\
     cq_attr cq = open_attr o /\
     usdf_cq_is_soft cq = false).
Proof.
  intros Hok Hfmt. unfold usdf_cq_open.
  destruct (usdf_cq_process_attr attr uda_max_cqe) as [r attr'] eqn:Hp.
  simpl in Hok. subst r.
  pose proof (process_attr_format _ _ _ Hp) as Hf.
  rewrite Hfmt in Hf. simpl in Hf.
  destruct (alloc h) as [p h1]. simpl.
  destruct (Z.eqb_spec p 0) as [-> | Hne]; simpl.
  - repeat split; try assumption; intros; congruence.
  - rewrite Hf. simpl. split; [assumption |].
    split; [intros; congruence |]. intros _. split; [reflexivity |].
    eexists. split; [reflexivity |]. simpl.
    unfold usdf_cq_is_soft. simpl. rewrite Hf. repeat split; assumption.
Qed.

Lemma C10_open_defaults_to_context_witness :
  let o := usdf_cq_open 1024 (sample_attr FI_CQ_FORMAT_UNSPEC 0)
             {| alloc_plan := [4096]; live := [] |} in
  format (open_attr o) = FI_CQ_FORMAT_CONTEXT /\
  open_ret o = Val 0 /\
  exists cq, open_cq o = Some cq /\ cq_ops cq = usdf_cq_context_ops.
Proof.
  destruct (C10_open_defaults_to_context 1024
              (sample_attr FI_CQ_FORMAT_UNSPEC 0)
              {| alloc_plan := [4096]; live := [] |})
    as [Hattr [_ Hsome]].
  - reflexivity.
  - reflexivity.
  - destruct Hsome as [Hret [cq [Hcq [Hops _]]]].
    + simpl. discriminate.
    + split; [exact Hattr |]. split; [exact Hret |].
      exists cq. split; [exact Hcq | exact Hops].
Defined.

(** ** Mode switch *)

Lemma soft_ops_not_hard (fmt : fi_cq_format) (s hd : fi_ops_cq) :
  soft_ops_of fmt = Some s -> hard_ops_of fmt = Some hd ->
  fi_ops_cq_eqb s hd = false.
Proof. destruct fmt; simpl; intros; simplify_eq; reflexivity. Qed.

Lemma fi_ops_cq_eqb_eq (a b : fi_ops_cq) :
  fi_ops_cq_eqb a b = true <-> a = b.
Proof. destruct a, b; simpl; split; intros; congruence. Qed.

(** C9.  Promotion is idempotent: on a queue that is already in soft mode,
    or whose format has no operation table, [usdf_cq_make_soft] returns
    success and leaves the queue and the allocator as they were, so no second
    ring is allocated and no binding is added. *)
Theorem C9_make_soft_idempotent (cq : usdf_cq) (h : heap) :
  usdf_cq_is_soft cq = true \/ soft_ops_of (format (cq_attr cq)) = None ->
  usdf_cq_make_soft cq h = (Val 0, cq, h).
Proof.
  unfold usdf_cq_is_soft, usdf_cq_make_soft.
  destruct (soft_ops_of (format (cq_attr cq))) as [s |] eqn:Hs.
  - intros [Hsoft | Hnone]; [| discriminate].
    apply fi_ops_cq_eqb_eq in Hsoft.
    destruct (hard_ops_of (format (cq_attr cq))) as [hd |] eqn:Hh;
      [| reflexivity].
    rewrite Hsoft, (soft_ops_not_hard _ _ _ Hs Hh). reflexivity.
  - intros _. destruct (hard_ops_of (format (cq_attr cq))); reflexivity.
Qed.

Lemma C9_make_soft_idempotent_witness :
  usdf_cq_make_soft (sample_soft_cq FI_CQ_FORMAT_MSG 4 4096)
    {| alloc_plan := [8192]; live := [4096] |}
  = (Val 0, sample_soft_cq FI_CQ_FORMAT_MSG 4 4096,
     {| alloc_plan := [8192]; live := [4096] |}).
Proof.
  apply (C9_make_soft_idempotent (sample_soft_cq FI_CQ_FORMAT_MSG 4 4096)).
  left. reflexivity.
Defined.

(** C2.  Promotion of a hard-mode queue bound to the hardware queue [77]:
    when the allocation of the ring fails the call returns [-FI_ENOMEM] with
    the hard operation table still in place, but the handle of the hardware
    queue has been overwritten by the null pointer of the failed allocation;
    when the ring is allocated and the allocation of the binding fails the
    handle is put back. *)
Theorem C2_ring_alloc_failure_loses_hw_queue :
  let cq := sample_hard_cq FI_CQ_FORMAT_CONTEXT 4 77 in
  let '(r1, cq1, h1) :=
    usdf_cq_make_soft cq {| alloc_plan := [0]; live := [] |} in
  let '(r2, cq2, h2) :=
    usdf_cq_make_soft cq {| alloc_plan := [4096; 0]; live := [] |} in
  cq_cq cq = 77 /\
  r1 = Err FI_ENOMEM /\ cq_ops cq1 = usdf_cq_context_ops /\
  usdf_cq_is_soft cq1 = false /\ cq_cq cq1 = 0 /\
  r2 = Err FI_ENOMEM /\ cq_ops cq2 = usdf_cq_context_ops /\
  usdf_cq_is_soft cq2 = false /\ cq_cq cq2 = 77 /\ live h2 = [].
Proof. vm_compute. repeat split; reflexivity. Qed.

(** ** The pump *)

(** C1.  The pump on a soft queue whose field [cq_comp] still holds an old
    send completion (context [5], [50] bytes), with one failed receive
    completion (context [7], [100] bytes, CRC error) waiting in the hardware
    queue: the entry pushed carries context [5] and length [50], taken from
    [cq_comp] and not from the completion polled, and its provider error code
    is left as the slot had it. *)
Theorem C1_pump_pushes_stale_completion :
  let cq := set_cq_comp (sample_comp USD_COMPTYPE_SEND USD_COMPSTAT_SUCCESS
                           5 50)
              (sample_soft_cq FI_CQ_FORMAT_MSG 2 4096) in
  let comp := sample_comp USD_COMPTYPE_RECV USD_COMPSTAT_ERROR_CRC 7 100 in
  let '(cq', q') := usdf_progress_hard_cq [Some comp] cq in
  ring_contents cq = [] /\
  q' = [] /\
  ring_contents cq' =
    [ {| cse_context := 5; cse_flags := 0; cse_len := 50; cse_buf := 0;
         cse_data := 0; cse_prov_errno := 0 |} ] /\
  ring_contents (usdf_cq_post_soft cq (uc_context comp) (uc_bytes comp)
                   (status_code (uc_status comp))) =
    [ {| cse_context := 7; cse_flags := 0; cse_len := 100; cse_buf := 0;
         cse_data := 0; cse_prov_errno := 1 |} ].
Proof. vm_compute. repeat split; reflexivity. Qed.

(** ** Reading an error *)

(** C3.  An error-read on a soft queue whose ring is empty: the call returns
    [1], not [-FI_EAGAIN], hands out the zeroed slot under the tail as an
    error and moves the tail, after which the ring no longer looks empty.
    The hard-mode error-read on a queue without an error returns
    [-FI_EAGAIN]. *)
Theorem C3_readerr_soft_on_empty_ring :
  let cq := sample_soft_cq FI_CQ_FORMAT_MSG 2 4096 in
  let '(r, e, cq') := usdf_cq_readerr_soft sample_consts cq in
  ring_contents cq = [] /\
  r = Val 1 /\
  e = Some {| err_op_context := 0; err_flags := 0; err_err := 5;
              err_prov_errno := 0 |} /\
  cq_tail cq = 4096 /\ cq_tail cq' = 4097 /\
  ring_contents cq' = [zero_entry] /\
  fst (fst (usdf_cq_readerr sample_consts
              (sample_hard_cq FI_CQ_FORMAT_MSG 2 77))) = Err FI_EAGAIN.
Proof. vm_compute. repeat split; reflexivity. Qed.

(** ** Close *)

Lemma close_soft_loop_released (destroy : Z -> Z)
    (pre rest : list usdf_cq_hard) (d f : list Z) :
  Forall (released destroy) pre ->
  close_soft_loop destroy (pre ++ rest) d f =
  close_soft_loop destroy rest (d ++ ucqs_of pre) (f ++ addrs_of pre).
Proof.
  intros Hpre. revert d f.
  induction Hpre as [| hcq pre [Href Hucq] _ IH]; intros d f; simpl.
  - unfold ucqs_of, addrs_of. simpl. now rewrite !app_nil_r.
  - destruct (Z.ltb_spec 0 (cqh_refcnt hcq)); [lia |].
    unfold ucqs_of, addrs_of in *. simpl.
    destruct (Z.eqb_spec (cqh_ucq hcq) 0) as [Hz | Hnz]; simpl.
    + rewrite IH. now rewrite <- app_assoc.
    + destruct Hucq as [Hz | Hok]; [contradiction |].
      rewrite Hok. simpl. rewrite IH. now rewrite <- !app_assoc.
Qed.

(** C5, counterexample.  A soft queue with no reference of its own whose
    second binding is still referenced, while the destruction of the hardware
    queue of the first binding fails: close returns that failure and not
    [-FI_EBUSY]. *)
Lemma C5_counterexample :
  let r := usdf_cq_close sample_destroy sample_two_bindings in
  cq_refcnt sample_two_bindings = 0 /\
  usdf_cq_is_soft sample_two_bindings = true /\
  Exists (fun hcq => cqh_refcnt hcq <> 0) (cq_list sample_two_bindings) /\
  close_ret r = Val (-22) /\
  close_ret r <> Err FI_EBUSY.
Proof.
  vm_compute. repeat split; try reflexivity; try discriminate.
  apply Exists_cons_tl, Exists_cons_hd. discriminate.
Qed.

(** C5, as the code has it.  Close returns [-FI_EBUSY] and touches nothing
    while the queue's own reference count is nonzero.  Otherwise, on a soft
    queue, close walks the bindings in list order, disposing of each one it
    passes: it stops with [-FI_EBUSY] at the first binding still referenced,
    and with the error of [usd_destroy_cq] at the first hardware queue it
    fails to destroy; the queue is freed, and [0] returned, only when every
    binding was disposed of.  On a hard queue a failure to destroy the
    hardware queue is returned and the queue is not freed.  No failure frees
    the queue. *)
Theorem C5_close_protocol (usd_destroy_cq : Z -> Z) (cq : usdf_cq)
    (pre post : list usdf_cq_hard) (hcq : usdf_cq_hard) :
  0 <= cq_refcnt cq ->
  let r := usdf_cq_close usd_destroy_cq cq in
  (cq_refcnt cq <> 0 ->
   close_ret r = Err FI_EBUSY /\ close_cq r = cq /\ destroyed r = [] /\
   freed_bindings r = [] /\ freed_cq r = false) /\
  (cq_refcnt cq = 0 -> usdf_cq_is_soft cq = true ->
   cq_list cq = pre ++ hcq :: post ->
   Forall (released usd_destroy_cq) pre ->
   (cqh_refcnt hcq > 0 ->
    close_ret r = Err FI_EBUSY /\ freed_cq r = false /\
    destroyed r = ucqs_of pre /\ freed_bindings r = addrs_of pre /\
    cq_list (close_cq r) = hcq :: post) /\
   (cqh_refcnt hcq <= 0 -> cqh_ucq hcq <> 0 ->
    usd_destroy_cq (cqh_ucq hcq) <> 0 ->
    close_ret r = Val (usd_destroy_cq (cqh_ucq hcq)) /\
    freed_cq r = false /\
    destroyed r = ucqs_of pre /\ freed_bindings r = addrs_of pre /\
    cq_list (close_cq r) = post)) /\
  (cq_refcnt cq = 0 -> usdf_cq_is_soft cq = true ->
   Forall (released usd_destroy_cq) (cq_list cq) ->
   close_ret r = Val 0 /\ freed_cq r = true /\
   destroyed r = ucqs_of (cq_list cq) /\
   freed_bindings r = addrs_of (cq_list cq) /\
   cq_list (close_cq r) = []) /\
  (cq_refcnt cq = 0 -> usdf_cq_is_soft cq = false -> cq_cq cq <> 0 ->
   usd_destroy_cq (cq_cq cq) <> 0 ->
   close_ret r = Val (usd_destroy_cq (cq_cq cq)) /\ freed_cq r = false /\
   close_cq r = cq) /\
  (freed_cq r = true -> close_ret r = Val 0).
Proof.
  intros Hnonneg r. subst r. unfold usdf_cq_close.
  destruct (Z.ltb_spec 0 (cq_refcnt cq)) as [Hpos | Hzero].
  - simpl. repeat split; try reflexivity; try (intros; lia); try discriminate.
  - split; [intros; lia |].
    split; [| split; [| split]].
    + intros _ Hsoft Hlist Hpre. rewrite Hsoft, Hlist.
      rewrite (close_soft_loop_released _ _ _ _ _ Hpre). simpl.
      split.
      * intros Href. destruct (Z.ltb_spec 0 (cqh_refcnt hcq)); [| lia].
        simpl. repeat split; reflexivity.
      * intros Href Hucq Hfail.
        destruct (Z.ltb_spec 0 (cqh_refcnt hcq)); [lia |].
        destruct (Z.eqb_spec (cqh_ucq hcq) 0); [contradiction |]. simpl.
        destruct (Z.eqb_spec (usd_destroy_cq (cqh_ucq hcq)) 0);
          [contradiction |].
        simpl. repeat split; reflexivity.
    + intros _ Hsoft Hall. rewrite Hsoft.
      pose proof (close_soft_loop_released usd_destroy_cq (cq_list cq) []
                    [] [] Hall) as Hloop.
      rewrite app_nil_r in Hloop. rewrite Hloop. simpl.
      repeat split; reflexivity.
    + intros _ Hhard Hucq Hfail. rewrite Hhard.
      destruct (Z.eqb_spec (cq_cq cq) 0); [contradiction |]. simpl.
      destruct (Z.eqb_spec (usd_destroy_cq (cq_cq cq)) 0);
        [contradiction |].
      simpl. repeat split; reflexivity.
    + destruct (usdf_cq_is_soft cq).
      * destruct (close_soft_loop usd_destroy_cq (cq_list cq) [] [])
          as [[[[ret0 |] l] d] f]; simpl; [discriminate | reflexivity].
      * destruct (Z.eqb_spec (cq_cq cq) 0); simpl; [reflexivity |].
        destruct (Z.eqb_spec (usd_destroy_cq (cq_cq cq)) 0); simpl;
          [reflexivity | discriminate].
Qed.

Lemma C5_close_protocol_witness :
  let r := usdf_cq_close sample_destroy
             (set_cq_list
                [ {| cqh_addr := 8192; cqh_ucq := 3; cqh_refcnt := 0 |};
                  {| cqh_addr := 8256; cqh_ucq := 2; cqh_refcnt := 1 |} ]
                (sample_soft_cq FI_CQ_FORMAT_MSG 4 4096)) in
  close_ret r = Err FI_EBUSY /\ freed_cq r = false /\ destroyed r = [3].
Proof.
  destruct (C5_close_protocol sample_destroy
              (set_cq_list
                 [ {| cqh_addr := 8192; cqh_ucq := 3; cqh_refcnt := 0 |};
                   {| cqh_addr := 8256; cqh_ucq := 2; cqh_refcnt := 1 |} ]
                 (sample_soft_cq FI_CQ_FORMAT_MSG 4 4096))
              [ {| cqh_addr := 8192; cqh_ucq := 3; cqh_refcnt := 0 |} ]
              []
              {| cqh_addr := 8256; cqh_ucq := 2; cqh_refcnt := 1 |})
    as [_ [Hsoft _]].
  - simpl. lia.
  - destruct Hsoft as [Hbusy _].
    + reflexivity.
    + reflexivity.
    + reflexivity.
    + constructor; [| constructor]. split; simpl; [lia | right; reflexivity].
    + destruct Hbusy as [Hret [Hfree [Hd _]]].
      * simpl. lia.
      * split; [exact Hret |]. split; [exact Hfree | exact Hd].
Defined.

(** ** The ring: arithmetic of head and tail *)

Lemma ring_len_range (c h t : Z) (o : soft_cq_op) :
  0 < c -> 0 <= h < c -> 0 <= t < c -> 0 <= ring_len c h t o <= c.
Proof.
  intros Hc Hh Ht. unfold ring_len. destruct o; simpl; ztests; lia.
Qed.

Lemma ring_len_zero (c h t : Z) (o : soft_cq_op) :
  0 < c -> 0 <= h < c -> 0 <= t < c ->
  (ring_len c h t o = 0 <-> (t =? h) && is_read o = true).
Proof.
  intros Hc Hh Ht. unfold ring_len.
  destruct o; simpl; ztests; split; intros; try lia; try congruence.
Qed.

Lemma ring_len_full (c h t : Z) (o : soft_cq_op) :
  0 < c -> 0 <= h < c -> 0 <= t < c ->
  (ring_len c h t o = c <-> (h =? t) && is_write o = true).
Proof.
  intros Hc Hh Ht. unfold ring_len.
  destruct o; simpl; ztests; split; intros; try lia; try congruence.
Qed.

Lemma ring_len_push (c h t : Z) (o : soft_cq_op) :
  0 < c -> 0 <= h < c -> 0 <= t < c ->
  (h =? t) && is_write o = false ->
  ring_len c (if h + 1 =? c then 0 else h + 1) t USDF_SOFT_CQ_WRITE =
  ring_len c h t o + 1.
Proof.
  intros Hc Hh Ht. unfold ring_len.
  destruct o; simpl; ztests; intros; try lia; try congruence.
Qed.

Lemma ring_len_pop (c h t : Z) (o : soft_cq_op) :
  0 < c -> 0 <= h < c -> 0 <= t < c ->
  (t =? h) && is_read o = false ->
  ring_len c h (if t + 1 =? c then 0 else t + 1) USDF_SOFT_CQ_READ =
  ring_len c h t o - 1.
Proof.
  intros Hc Hh Ht. unfold ring_len.
  destruct o; simpl; ztests; intros; try lia; try congruence.
Qed.

Lemma ring_pos_range (c t i : Z) :
  0 < c -> 0 <= t < c -> 0 <= i < c -> 0 <= ring_pos c t i < c.
Proof. intros. unfold ring_pos. ztests; lia. Qed.

(** The head is the position just after the last entry. *)
Lemma ring_pos_head (c h t : Z) (o : soft_cq_op) :
  0 < c -> 0 <= h < c -> 0 <= t < c ->
  (h =? t) && is_write o = false ->
  ring_pos c t (ring_len c h t o) = h.
Proof.
  intros Hc Hh Ht. unfold ring_pos, ring_len.
  destruct o; simpl; ztests; intros; try lia; try congruence.
Qed.

(** The entries lie at distinct positions, none of them the head of a ring
    that is not full. *)
Lemma ring_pos_not_head (c h t i : Z) (o : soft_cq_op) :
  0 < c -> 0 <= h < c -> 0 <= t < c ->
  (h =? t) && is_write o = false ->
  0 <= i < ring_len c h t o ->
  ring_pos c t i <> h.
Proof.
  intros Hc Hh Ht. unfold ring_pos, ring_len.
  destruct o; simpl; ztests; intros; try lia; try congruence.
Qed.

Lemma ring_pos_shift (c t i : Z) :
  0 < c -> 0 <= t < c -> 0 <= i < c ->
  ring_pos c (if t + 1 =? c then 0 else t + 1) i = ring_pos c t (i + 1).
Proof. intros. unfold ring_pos. ztests; lia. Qed.

Lemma ring_pos_first (c t : Z) : 0 < c -> 0 <= t < c -> ring_pos c t 0 = t.
Proof. intros. unfold ring_pos. ztests; lia. Qed.

(** ** The ring: entries *)

Lemma ring_items_push (slots : list usdf_cq_soft_entry) (c h t : Z)
    (o : soft_cq_op) (new : usdf_cq_soft_entry) :
  0 < c -> 0 <= h < c -> 0 <= t < c ->
  length slots = Z.to_nat c ->
  (h =? t) && is_write o = false ->
  ring_items (<[Z.to_nat h := new]> slots) c
    (if h + 1 =? c then 0 else h + 1) t USDF_SOFT_CQ_WRITE =
  ring_items slots c h t o ++ [new].
Proof.
  intros Hc Hh Ht Hlen Hroom. unfold ring_items.
  rewrite (ring_len_push c h t o Hc Hh Ht Hroom).
  pose proof (ring_len_range c h t o Hc Hh Ht) as Hr.
  replace (Z.to_nat (ring_len c h t o + 1))
    with (S (Z.to_nat (ring_len c h t o))) by lia.
  rewrite seq_S, map_app. simpl. f_equal.
  - apply map_ext_in. intros i Hi. apply in_seq in Hi.
    rewrite list_lookup_insert_ne; [reflexivity |].
    pose proof (ring_pos_not_head c h t (Z.of_nat i) o Hc Hh Ht Hroom).
    assert (ring_len c h t o < c).
    { pose proof (ring_len_full c h t o Hc Hh Ht) as Hf.
      destruct (Z.eq_dec (ring_len c h t o) c) as [E | E]; [| lia].
      apply Hf in E. congruence. }
    pose proof (ring_pos_range c t (Z.of_nat i) Hc Ht). lia.
  - rewrite Z2Nat.id by lia.
    rewrite (ring_pos_head c h t o Hc Hh Ht Hroom).
    rewrite list_lookup_insert_eq by lia. reflexivity.
Qed.

Lemma ring_items_pop (slots : list usdf_cq_soft_entry) (c h t : Z)
    (o : soft_cq_op) :
  0 < c -> 0 <= h < c -> 0 <= t < c ->
  (t =? h) && is_read o = false ->
  ring_items slots c h t o =
  default zero_entry (slots !! Z.to_nat t)
    :: ring_items slots c h (if t + 1 =? c then 0 else t + 1)
         USDF_SOFT_CQ_READ.
Proof.
  intros Hc Hh Ht Hsome. unfold ring_items.
  rewrite (ring_len_pop c h t o Hc Hh Ht Hsome).
  pose proof (ring_len_range c h t o Hc Hh Ht) as Hr.
  assert (ring_len c h t o <> 0) as Hnz.
  { intros E. apply (ring_len_zero c h t o Hc Hh Ht) in E. congruence. }
  replace (Z.to_nat (ring_len c h t o))
    with (S (Z.to_nat (ring_len c h t o - 1))) by lia.
  cbn [map seq]. f_equal.
  - change (Z.of_nat 0) with 0. now rewrite (ring_pos_first c t Hc Ht).
  - rewrite <- seq_shift, map_map. apply map_ext_in.
    intros i Hi. apply in_seq in Hi.
    assert (0 <= Z.of_nat i < c) as Hic by lia.
    rewrite (ring_pos_shift c t (Z.of_nat i) Hc Ht Hic).
    replace (Z.of_nat (S i)) with (Z.of_nat i + 1) by lia. reflexivity.
Qed.

(** ** The ring: push *)

Lemma ring_contents_length (cq : usdf_cq) :
  length (ring_contents cq) =
  Z.to_nat (ring_len (ring_cap cq) (cq_head cq - cq_comps cq)
              (cq_tail cq - cq_comps cq) (cq_last_op cq)).
Proof.
  unfold ring_contents, ring_items. now rewrite length_map, length_seq.
Qed.

Lemma ring_full_length (cq : usdf_cq) :
  ring_wf cq ->
  (ring_full cq = true <->
   length (ring_contents cq) = Z.to_nat (ring_cap cq)).
Proof.
  intros (Hc & Hlen & Hh & Ht). unfold ring_cap in *.
  rewrite ring_contents_length. unfold ring_full, ring_cap.
  pose proof (ring_len_full (cq_end cq - cq_comps cq)
                (cq_head cq - cq_comps cq) (cq_tail cq - cq_comps cq)
                (cq_last_op cq)) as Hf.
  pose proof (ring_len_range (cq_end cq - cq_comps cq)
                (cq_head cq - cq_comps cq) (cq_tail cq - cq_comps cq)
                (cq_last_op cq)) as Hr.
  replace (cq_head cq - cq_comps cq =? cq_tail cq - cq_comps cq)
    with (cq_head cq =? cq_tail cq) in Hf by (ztests; lia).
  rewrite <- Hf by lia. split; intros; lia.
Qed.

Lemma ring_empty_length (cq : usdf_cq) :
  ring_wf cq ->
  (ring_empty cq = true <-> ring_contents cq = []).
Proof.
  intros (Hc & Hlen & Hh & Ht). unfold ring_cap in *.
  rewrite <- length_zero_iff_nil, ring_contents_length.
  unfold ring_empty, ring_cap.
  pose proof (ring_len_zero (cq_end cq - cq_comps cq)
                (cq_head cq - cq_comps cq) (cq_tail cq - cq_comps cq)
                (cq_last_op cq)) as Hz.
  pose proof (ring_len_range (cq_end cq - cq_comps cq)
                (cq_head cq - cq_comps cq) (cq_tail cq - cq_comps cq)
                (cq_last_op cq)) as Hr.
  replace (cq_tail cq - cq_comps cq =? cq_head cq - cq_comps cq)
    with (cq_tail cq =? cq_head cq) in Hz by (ztests; lia).
  rewrite <- Hz by lia. split; intros; lia.
Qed.

Lemma post_soft_full (cq : usdf_cq) (context len prov_errno : Z) :
  ring_full cq = true -> usdf_cq_post_soft cq context len prov_errno = cq.
Proof. intros H. unfold usdf_cq_post_soft. now rewrite H. Qed.

Lemma post_soft_room (cq : usdf_cq) (context len prov_errno : Z) :
  ring_wf cq -> ring_full cq = false ->
  ring_wf (usdf_cq_post_soft cq context len prov_errno) /\
  ring_cap (usdf_cq_post_soft cq context len prov_errno) = ring_cap cq /\
  ring_contents (usdf_cq_post_soft cq context len prov_errno) =
  ring_contents cq ++ [posted_entry cq context len prov_errno].
Proof.
  intros (Hc & Hlen & Hh & Ht) Hroom. unfold ring_cap in *.
  unfold usdf_cq_post_soft. rewrite Hroom.
  unfold ring_wf, ring_contents, ring_cap, advance_head, slot_index,
    cq_comps in *. simpl.
  rewrite length_insert.
  assert ((if negb (cq_head cq + 1 =? cq_end cq) then cq_head cq + 1
           else c_word0 cq) - c_word0 cq =
          (if cq_head cq - c_word0 cq + 1 =? cq_end cq - c_word0 cq
           then 0 else cq_head cq - c_word0 cq + 1)) as Hadv
    by (ztests; simpl; lia).
  split; [| split; [reflexivity |]].
  - repeat split; try assumption; try lia; ztests; simpl; lia.
  - rewrite Hadv. apply ring_items_push; try lia.
    unfold ring_full in Hroom.
    replace (cq_head cq - c_word0 cq =? cq_tail cq - c_word0 cq)
      with (cq_head cq =? cq_tail cq) by (ztests; lia).
    exact Hroom.
Qed.

Lemma posted_posted_entry (cq : usdf_cq) (context len prov_errno : Z) :
  posted (posted_entry cq context len prov_errno) =
  (context, len, prov_errno).
Proof. reflexivity. Qed.

(** A run of pushes fills the room that is left, in order, and drops the
    rest. *)
Lemma post_all_spec (pushes : list (Z * Z * Z)) (cq : usdf_cq) :
  ring_wf cq ->
  ring_wf (post_all cq pushes) /\
  ring_cap (post_all cq pushes) = ring_cap cq /\
  map posted (ring_contents (post_all cq pushes)) =
  map posted (ring_contents cq) ++
  firstn (Z.to_nat (ring_cap cq) - length (ring_contents cq))%nat pushes.
Proof.
  revert cq. induction pushes as [| [[ctx len] e] pushes IH]; intros cq Hwf.
  - simpl. rewrite firstn_nil, app_nil_r. auto.
  - unfold post_all in *. simpl.
    destruct (ring_full cq) eqn:Hfull.
    + rewrite post_soft_full by assumption.
      destruct (IH cq Hwf) as (Hwf' & Hcap & Hc).
      split; [assumption |]. split; [assumption |]. rewrite Hc.
      apply ring_full_length in Hfull; [| assumption].
      rewrite Hfull, Nat.sub_diag. reflexivity.
    + destruct (post_soft_room cq ctx len e Hwf Hfull)
        as (Hwf1 & Hcap1 & Hc1).
      destruct (IH _ Hwf1) as (Hwf' & Hcap & Hc).
      split; [assumption |]. split; [congruence |].
      rewrite Hc, Hc1, Hcap1, map_app, length_app. simpl.
      rewrite <- app_assoc. f_equal.
      assert (length (ring_contents cq) < Z.to_nat (ring_cap cq))%nat.
      { pose proof (ring_full_length cq Hwf) as Hf.
        rewrite ring_contents_length in *.
        destruct Hwf as (Hc0 & _ & Hh & Ht). unfold ring_cap in *.
        pose proof (ring_len_range (cq_end cq - cq_comps cq)
                      (cq_head cq - cq_comps cq) (cq_tail cq - cq_comps cq)
                      (cq_last_op cq)).
        destruct (Nat.eq_dec
                    (Z.to_nat (ring_len (cq_end cq - cq_comps cq)
                                 (cq_head cq - cq_comps cq)
                                 (cq_tail cq - cq_comps cq) (cq_last_op cq)))
                    (Z.to_nat (cq_end cq - cq_comps cq))) as [E | E].
        - apply Hf in E. congruence.
        - lia. }
      replace (Z.to_nat (ring_cap cq) - length (ring_contents cq))%nat
        with (S (Z.to_nat (ring_cap cq)
                 - (length (ring_contents cq) + 1)))%nat by lia.
      reflexivity.
Qed.

(** ** The ring: scan *)

Lemma set_cq_tail_id (cq : usdf_cq) : set_cq_tail (cq_tail cq) cq = cq.
Proof. now destruct cq. Qed.

Lemma set_cq_last_op_id (cq : usdf_cq) :
  set_cq_last_op (cq_last_op cq) cq = cq.
Proof. now destruct cq. Qed.

(** One turn of the scan on a ring that is not empty. *)
Lemma ring_pop (cq : usdf_cq) :
  ring_wf cq -> ring_empty cq = false ->
  let cq' := set_cq_tail (advance_tail cq (cq_tail cq))
               (set_cq_last_op USDF_SOFT_CQ_READ cq) in
  ring_wf cq' /\
  ring_contents cq = slot_at cq (cq_tail cq) :: ring_contents cq'.
Proof.
  intros (Hc & Hlen & Hh & Ht) Hsome cq'. subst cq'.
  unfold ring_wf, ring_contents, ring_cap, advance_tail, slot_at, slot_index,
    ring_empty, cq_comps in *. simpl.
  assert ((if cq_tail cq + 1 =? cq_end cq then c_word0 cq
           else cq_tail cq + 1) - c_word0 cq =
          (if cq_tail cq - c_word0 cq + 1 =? cq_end cq - c_word0 cq
           then 0 else cq_tail cq - c_word0 cq + 1)) as Hadv
    by (ztests; simpl; lia).
  split.
  - repeat split; try assumption; try lia; ztests; simpl; lia.
  - rewrite Hadv. apply ring_items_pop; try lia.
    replace (cq_tail cq - c_word0 cq =? cq_head cq - c_word0 cq)
      with (cq_tail cq =? cq_head cq) by (ztests; lia).
    exact Hsome.
Qed.

Lemma copy_soft_entry_known (fmt : fi_cq_format) (e : usdf_cq_soft_entry) :
  entry_len_known fmt = true ->
  usdf_cq_copy_soft_entry e fmt = (Val FI_SUCCESS, Some (soft_record fmt e)).
Proof. destruct fmt; simpl; intros; congruence. Qed.

(** The scan passes over a run of successful entries, writing one record for
    each, as far as the caller's buffer has room. *)
Lemma soft_scan_successes (fmt : fi_cq_format) :
  entry_len_known fmt = true ->
  forall (good : list usdf_cq_soft_entry) (n : nat) (cq : usdf_cq) (tail : Z)
         (b : list cq_entry) (rest : list usdf_cq_soft_entry),
    ring_wf (set_cq_tail tail cq) ->
    ring_contents (set_cq_tail tail cq) = good ++ rest ->
    Forall is_success good ->
    (length good <= n)%nat ->
    exists cq' tail',
      soft_scan fmt n cq tail b =
      soft_scan fmt (n - length good) cq' tail'
        (b ++ map (soft_record fmt) good) /\
      ring_wf (set_cq_tail tail' cq') /\
      ring_contents (set_cq_tail tail' cq') = rest /\
      sticky_set cq' = sticky_set cq /\
      cq_head cq' = cq_head cq /\
      (good = [] -> cq' = cq /\ tail' = tail).
Proof.
  intros Hfmt. induction good as [| e good IH];
    intros n cq tail b rest Hwf Hc Hgood Hn.
  - exists cq, tail. simpl. rewrite Nat.sub_0_r, app_nil_r.
    split; [reflexivity |]. split; [assumption |]. split; [assumption |].
    auto.
  - destruct n as [| n]; [simpl in Hn; lia |].
    assert (ring_empty (set_cq_tail tail cq) = false) as Hne.
    { destruct (ring_empty (set_cq_tail tail cq)) eqn:E; [| reflexivity].
      apply ring_empty_length in E; [| assumption].
      rewrite E in Hc. discriminate. }
    destruct (ring_pop _ Hwf Hne) as [Hwf1 Hc1].
    rewrite Hc in Hc1. simpl in Hc1. injection Hc1 as He Hrest.
    change (slot_at (set_cq_tail tail cq) tail) with (slot_at cq tail) in He.
    inversion Hgood as [| ? ? Hsucc Hgood']; subst.
    destruct (IH n (set_cq_last_op USDF_SOFT_CQ_READ cq)
                (advance_tail cq tail)
                (b ++ [soft_record fmt (slot_at cq tail)]) rest)
      as (cq' & tail' & Hscan & Hwf' & Hc' & Hst & Hhd & _).
    + exact Hwf1.
    + symmetry. exact Hrest.
    + exact Hgood'.
    + simpl in Hn. lia.
    + exists cq', tail'. simpl soft_scan.
      change ((tail =? cq_head cq) && is_read (cq_last_op cq))
        with (ring_empty (set_cq_tail tail cq)).
      rewrite Hne.
      unfold is_success in Hsucc.
      destruct (Z.ltb_spec 0 (cse_prov_errno (slot_at cq tail))); [lia |].
      rewrite (copy_soft_entry_known fmt _ Hfmt).
      rewrite Hscan. simpl. rewrite <- app_assoc. simpl.
      split; [reflexivity |]. split; [assumption |].
      split; [assumption |]. split; [assumption |].
      split; [assumption |]. intros E. discriminate E.
Qed.

(** The scan returns [-FI_EAVAIL] on meeting an error entry first, and stops
    in front of one met later. *)
Lemma soft_scan_error (fmt : fi_cq_format) (n : nat) (cq : usdf_cq)
    (tail : Z) (b : list cq_entry) (e : usdf_cq_soft_entry)
    (rest : list usdf_cq_soft_entry) :
  ring_wf (set_cq_tail tail cq) ->
  ring_contents (set_cq_tail tail cq) = e :: rest ->
  0 < cse_prov_errno e ->
  soft_scan fmt (S n) cq tail b =
  (if nonempty b then LoopDone tail else Returned (Err FI_EAVAIL), b, cq).
Proof.
  intros Hwf Hc Herr.
  assert (ring_empty (set_cq_tail tail cq) = false) as Hne.
  { destruct (ring_empty (set_cq_tail tail cq)) eqn:E; [| reflexivity].
    apply ring_empty_length in E; [| assumption].
    rewrite E in Hc. discriminate. }
  destruct (ring_pop _ Hwf Hne) as [_ Hc1].
  rewrite Hc in Hc1. simpl in Hc1. injection Hc1 as He _.
  change (slot_at (set_cq_tail tail cq) tail) with (slot_at cq tail) in He.
  simpl soft_scan.
  change ((tail =? cq_head cq) && is_read (cq_last_op cq))
    with (ring_empty (set_cq_tail tail cq)).
  rewrite Hne, <- He.
  destruct (Z.ltb_spec 0 (cse_prov_errno e)); [| lia].
  destruct (nonempty b); reflexivity.
Qed.

(** The scan of an empty ring, or into a full buffer, ends at once. *)
Lemma soft_scan_stop (fmt : fi_cq_format) (n : nat) (cq : usdf_cq)
    (tail : Z) (b : list cq_entry) :
  ring_wf (set_cq_tail tail cq) ->
  n = O \/ ring_contents (set_cq_tail tail cq) = [] ->
  soft_scan fmt n cq tail b = (LoopDone tail, b, cq).
Proof.
  intros Hwf [-> | Hc]; [reflexivity |].
  destruct n as [| n]; [reflexivity |].
  apply ring_empty_length in Hc; [| assumption].
  simpl soft_scan.
  change ((tail =? cq_head cq) && is_read (cq_last_op cq))
    with (ring_empty (set_cq_tail tail cq)).
  now rewrite Hc.
Qed.

Lemma nonempty_map {A B : Type} (f : A -> B) (l : list A) :
  nonempty (map f l) = nonempty l.
Proof. now destruct l. Qed.

Lemma count_of_map {A : Type} (f : A -> cq_entry) (l : list A) :
  count_of (map f l) = Z.of_nat (length l).
Proof. unfold count_of. now rewrite length_map. Qed.

(** A scan that passes over at least one entry leaves the loop with the
    records of the entries passed, whatever stops it. *)
Lemma soft_scan_some (fmt : fi_cq_format) (n : nat) (cq : usdf_cq) (tail : Z)
    (good rest : list usdf_cq_soft_entry) :
  entry_len_known fmt = true ->
  ring_wf (set_cq_tail tail cq) ->
  ring_contents (set_cq_tail tail cq) = good ++ rest ->
  Forall is_success good ->
  (length good <= n)%nat ->
  good <> [] ->
  scan_stops n good rest ->
  exists cq' tail',
    soft_scan fmt n cq tail [] =
    (LoopDone tail', map (soft_record fmt) good, cq') /\
    ring_wf (set_cq_tail tail' cq') /\
    ring_contents (set_cq_tail tail' cq') = rest /\
    sticky_set cq' = sticky_set cq.
Proof.
  intros Hfmt Hwf Hc Hgood Hn Hne Hstop.
  destruct (soft_scan_successes fmt Hfmt good n cq tail [] rest Hwf Hc Hgood
              Hn) as (cq' & tail' & Hscan & Hwf' & Hc' & Hst & _ & _).
  exists cq', tail'. rewrite Hscan. simpl.
  split; [| auto].
  destruct Hstop as [Hfull | [Hnil | (e & rest' & Hrest & Herr)]].
  - apply soft_scan_stop; [assumption |]. left. lia.
  - apply soft_scan_stop; [assumption |]. right. congruence.
  - destruct (n - length good)%nat as [| m] eqn:Hm.
    + apply soft_scan_stop; [assumption |]. now left.
    + rewrite (soft_scan_error fmt m cq' tail' _ e rest' Hwf'); try congruence.
      rewrite nonempty_map. destruct good; [congruence | reflexivity].
Qed.

Section SoftReaderFacts.

Variable env : Type.
Variable usdf_domain_progress : env -> usdf_cq -> env * usdf_cq.

(** A non-blocking soft read that finds [good], at least one successful
    entry, in front of whatever stops it. *)
Lemma read_soft_some (fmt : fi_cq_format) (count : nat) (cq cq1 : usdf_cq)
    (w w1 : env) (good rest : list usdf_cq_soft_entry) :
  entry_len_known fmt = true ->
  sticky_set cq = false ->
  usdf_domain_progress w cq = (w1, cq1) ->
  ring_wf cq1 ->
  ring_contents cq1 = good ++ rest ->
  Forall is_success good ->
  (length good <= count)%nat ->
  good <> [] ->
  scan_stops count good rest ->
  let r := usdf_cq_read_common_soft usdf_domain_progress fmt count cq w in
  ret r = Val (Z.of_nat (length good)) /\
  buf r = map (soft_record fmt) good /\
  slept r = [] /\
  ring_wf (cq_after r) /\
  ring_contents (cq_after r) = rest /\
  sticky_set (cq_after r) = sticky_set cq1.
Proof.
  intros Hfmt Hst Hp Hwf Hc Hgood Hn Hne Hstop r. subst r.
  unfold usdf_cq_read_common_soft. rewrite Hst, Hp, Hfmt. simpl.
  rewrite <- (set_cq_tail_id cq1) in Hwf, Hc.
  destruct (soft_scan_some fmt count cq1 (cq_tail cq1) good rest Hfmt Hwf
              Hc Hgood Hn Hne Hstop)
    as (cq' & tail' & Hscan & Hwf' & Hc' & Hst').
  rewrite Hscan. cbv beta iota. rewrite nonempty_map, count_of_map.
  destruct good as [| e good]; [congruence |].
  cbn [nonempty ret buf slept cq_after].
  split; [reflexivity |]. split; [reflexivity |]. split; [reflexivity |].
  split; [exact Hwf' |]. split; [exact Hc' | exact Hst'].
Qed.

(** A non-blocking soft read that meets an error entry first. *)
Lemma read_soft_error_first (fmt : fi_cq_format) (count : nat)
    (cq cq1 : usdf_cq) (w w1 : env) (e : usdf_cq_soft_entry)
    (rest : list usdf_cq_soft_entry) :
  entry_len_known fmt = true ->
  sticky_set cq = false ->
  usdf_domain_progress w cq = (w1, cq1) ->
  ring_wf cq1 ->
  ring_contents cq1 = e :: rest ->
  0 < cse_prov_errno e ->
  (0 < count)%nat ->
  let r := usdf_cq_read_common_soft usdf_domain_progress fmt count cq w in
  ret r = Err FI_EAVAIL /\ buf r = [] /\ slept r = [] /\ cq_after r = cq1.
Proof.
  intros Hfmt Hst Hp Hwf Hc Herr Hn r. subst r.
  unfold usdf_cq_read_common_soft. rewrite Hst, Hp, Hfmt. simpl.
  destruct count as [| n]; [lia |].
  rewrite <- (set_cq_tail_id cq1) in Hwf, Hc.
  rewrite (soft_scan_error fmt n cq1 (cq_tail cq1) [] e rest Hwf Hc Herr).
  simpl. auto.
Qed.

(** A blocking soft read returns in the turn of its loop that finds an
    entry: no quantum is added to those slept before. *)
Lemma sread_soft_some (K : usdf_consts) (fmt : fi_cq_format)
    (timeout_ms : Z) (fuel count : nat) (cq cq1 : usdf_cq) (w w1 : env)
    (s t : Z) (sl : list Z) (good rest : list usdf_cq_soft_entry) :
  entry_len_known fmt = true ->
  usdf_domain_progress w cq = (w1, cq1) ->
  ring_wf cq1 ->
  ring_contents cq1 = good ++ rest ->
  Forall is_success good ->
  (length good <= count)%nat ->
  good <> [] ->
  scan_stops count good rest ->
  exists r,
    usdf_cq_sread_soft_loop usdf_domain_progress K fmt timeout_ms (S fuel)
      count cq w s t sl = Some r /\
    ret r = Val (Z.of_nat (length good)) /\
    buf r = map (soft_record fmt) good /\
    slept r = sl /\
    ring_wf (cq_after r) /\
    ring_contents (cq_after r) = rest.
Proof.
  intros Hfmt Hp Hwf Hc Hgood Hn Hne Hstop.
  simpl. rewrite Hp.
  rewrite <- (set_cq_tail_id cq1) in Hwf, Hc.
  destruct (soft_scan_some fmt count cq1 (cq_tail cq1) good rest Hfmt Hwf
              Hc Hgood Hn Hne Hstop)
    as (cq' & tail' & Hscan & Hwf' & Hc' & Hst').
  rewrite Hscan. rewrite nonempty_map, count_of_map.
  destruct good as [| e good]; [congruence |].
  cbn [nonempty]. eexists. split; [reflexivity |].
  cbn [ret buf slept cq_after].
  split; [reflexivity |]. split; [reflexivity |]. split; [reflexivity |].
  split; [exact Hwf' | exact Hc'].
Qed.

(** A blocking soft read returns [-FI_EAVAIL] in the turn of its loop that
    meets an error entry first. *)
Lemma sread_soft_error_first (K : usdf_consts) (fmt : fi_cq_format)
    (timeout_ms : Z) (fuel count : nat) (cq cq1 : usdf_cq) (w w1 : env)
    (s t : Z) (sl : list Z) (e : usdf_cq_soft_entry)
    (rest : list usdf_cq_soft_entry) :
  usdf_domain_progress w cq = (w1, cq1) ->
  ring_wf cq1 ->
  ring_contents cq1 = e :: rest ->
  0 < cse_prov_errno e ->
  (0 < count)%nat ->
  usdf_cq_sread_soft_loop usdf_domain_progress K fmt timeout_ms (S fuel)
    count cq w s t sl =
  Some {| ret := Err FI_EAVAIL; buf := []; cq_after := cq1; world := w1;
          slept := sl |}.
Proof.
  intros Hp Hwf Hc Herr Hn. simpl. rewrite Hp.
  destruct count as [| n]; [lia |].
  rewrite <- (set_cq_tail_id cq1) in Hwf, Hc.
  rewrite (soft_scan_error fmt n cq1 (cq_tail cq1) [] e rest Hwf Hc Herr).
  reflexivity.
Qed.

End SoftReaderFacts.

(** ** Hard-mode readers *)

Lemma copy_cq_entry_known (K : usdf_consts) (fmt : fi_cq_format)
    (c : usd_completion) :
  entry_len_known fmt = true ->
  usdf_cq_copy_cq_entry K c fmt = (Val FI_SUCCESS, Some (hard_record K fmt c)).
Proof. destruct fmt; simpl; intros; congruence. Qed.

Lemma polled_sticky (good : list usd_completion) (cq : usdf_cq) :
  Forall succeeded good -> sticky_set cq = false ->
  sticky_set (polled good cq) = false.
Proof.
  intros Hgood. revert cq.
  induction Hgood as [| c good Hc _ IH]; intros cq Hst; [exact Hst |].
  simpl. apply IH. exact Hc.
Qed.

(** The non-blocking loop passes over a run of successful completions. *)
Lemma read_loop_successes (K : usdf_consts) (fmt : fi_cq_format) :
  entry_len_known fmt = true ->
  forall (good : list usd_completion) (n : nat) (cq : usdf_cq)
         (hw : hw_queue) (b : list cq_entry) (r : retval),
    Forall succeeded good ->
    (length good <= n)%nat ->
    usdf_cq_read_loop K fmt n cq (map Some good ++ hw) b r =
    usdf_cq_read_loop K fmt (n - length good) (polled good cq) hw
      (b ++ map (hard_record K fmt) good)
      (if nonempty good then Val FI_SUCCESS else r).
Proof.
  intros Hfmt. induction good as [| c good IH]; intros n cq hw b r Hgood Hn.
  - simpl. now rewrite Nat.sub_0_r, app_nil_r.
  - destruct n as [| n]; [simpl in Hn; lia |].
    inversion Hgood as [| ? ? Hc Hgood']; subst.
    simpl. unfold succeeded in Hc. rewrite Hc.
    rewrite (copy_cq_entry_known K fmt c Hfmt).
    rewrite IH by (try assumption; simpl in Hn; lia).
    rewrite <- app_assoc. simpl.
    destruct good; reflexivity.
Qed.

(** With a record in the buffer the non-blocking loop returns the count of
    the buffer as soon as the buffer is full, nothing is available or a
    failed completion is polled. *)
Lemma read_loop_stop (K : usdf_consts) (fmt : fi_cq_format) (n : nat)
    (cq : usdf_cq) (hw : hw_queue) (b : list cq_entry) (r : retval) :
  nonempty b = true ->
  n = O \/ fst (usd_poll_cq hw) = None \/
  (exists c, fst (usd_poll_cq hw) = Some c /\ comp_failed c = true) ->
  let out := usdf_cq_read_loop K fmt n cq hw b r in
  ret out = Val (count_of b) /\ buf out = b /\ slept out = [] /\
  (n = O -> cq_after out = cq /\ world out = hw) /\
  (n <> O -> world out = snd (usd_poll_cq hw)) /\
  (forall c, n <> O -> fst (usd_poll_cq hw) = Some c ->
             cq_after out = set_cq_comp c cq).
Proof.
  intros Hb Hstop out. subst out.
  destruct n as [| n].
  - simpl. rewrite Hb. repeat split; intros; congruence.
  - destruct Hstop as [Hn | [Hnone | (c & Hsome & Hfail)]];
      [discriminate | |].
    + simpl. destruct (usd_poll_cq hw) as [[c' |] hw'] eqn:Hp;
        simpl in Hnone; [discriminate |].
      simpl. rewrite Hb. repeat split; intros; congruence.
    + simpl. destruct (usd_poll_cq hw) as [[c' |] hw'] eqn:Hp;
        simpl in Hsome; [| discriminate].
      injection Hsome as ->. rewrite Hfail. simpl. rewrite Hb.
      repeat split; intros; congruence.
Qed.

(** The blocking loop passes over a run of successful completions, one turn
    for each. *)
Lemma sread_loop_successes (K : usdf_consts) (fmt : fi_cq_format)
    (timeout_ms : Z) :
  entry_len_known fmt = true ->
  forall (good : list usd_completion) (fuel n : nat) (cq : usdf_cq)
         (hw : hw_queue) (b : list cq_entry) (s t : Z) (sl : list Z),
    Forall succeeded good ->
    (length good <= n)%nat ->
    usdf_cq_sread_loop K fmt timeout_ms (length good + fuel) n cq
      (map Some good ++ hw) b s t sl =
    usdf_cq_sread_loop K fmt timeout_ms fuel (n - length good)
      (polled good cq) hw (b ++ map (hard_record K fmt) good) s t sl.
Proof.
  intros Hfmt. induction good as [| c good IH];
    intros fuel n cq hw b s t sl Hgood Hn.
  - simpl. now rewrite Nat.sub_0_r, app_nil_r.
  - destruct n as [| n]; [simpl in Hn; lia |].
    inversion Hgood as [| ? ? Hc Hgood']; subst.
    simpl. unfold succeeded in Hc. rewrite Hc.
    rewrite (copy_cq_entry_known K fmt c Hfmt).
    rewrite IH by (try assumption; simpl in Hn; lia).
    now rewrite <- app_assoc.
Qed.

(** With a record in the buffer the blocking loop returns in its next turn,
    without sleeping, as soon as the buffer is full, nothing is available or
    a failed completion is polled. *)
Lemma sread_loop_stop (K : usdf_consts) (fmt : fi_cq_format)
    (timeout_ms : Z) (fuel n : nat) (cq : usdf_cq) (hw : hw_queue)
    (b : list cq_entry) (s t : Z) (sl : list Z) :
  nonempty b = true ->
  n = O \/ fst (usd_poll_cq hw) = None \/
  (exists c, fst (usd_poll_cq hw) = Some c /\ comp_failed c = true) ->
  exists out,
    usdf_cq_sread_loop K fmt timeout_ms (S fuel) n cq hw b s t sl = Some out /\
    ret out = Val (count_of b) /\ buf out = b /\ slept out = sl /\
    (n = O -> cq_after out = cq /\ world out = hw) /\
    (n <> O -> world out = snd (usd_poll_cq hw)) /\
    (forall c, n <> O -> fst (usd_poll_cq hw) = Some c ->
               cq_after out = set_cq_comp c cq).
Proof.
  intros Hb Hstop.
  destruct n as [| n].
  - simpl. rewrite Hb. eexists. split; [reflexivity |]. simpl.
    repeat split; intros; congruence.
  - destruct Hstop as [Hn | [Hnone | (c & Hsome & Hfail)]];
      [discriminate | |].
    + simpl. destruct (usd_poll_cq hw) as [[c' |] hw'] eqn:Hp;
        simpl in Hnone; [discriminate |].
      rewrite Hb. eexists. split; [reflexivity |]. simpl.
      repeat split; intros; congruence.
    + simpl. destruct (usd_poll_cq hw) as [[c' |] hw'] eqn:Hp;
        simpl in Hsome; [| discriminate].
      injection Hsome as ->. rewrite Hfail, Hb.
      eexists. split; [reflexivity |]. simpl.
      repeat split; intros; congruence.
Qed.

(** With an empty buffer the blocking loop returns [-FI_EAVAIL] in the turn
    that polls a failed completion. *)
Lemma sread_loop_error_first (K : usdf_consts) (fmt : fi_cq_format)
    (timeout_ms : Z) (fuel n : nat) (cq : usdf_cq) (hw : hw_queue)
    (c : usd_completion) (s t : Z) (sl : list Z) :
  comp_failed c = true ->
  usdf_cq_sread_loop K fmt timeout_ms (S fuel) (S n) cq (Some c :: hw) []
    s t sl =
  Some {| ret := Err FI_EAVAIL; buf := []; cq_after := set_cq_comp c cq;
          world := hw; slept := sl |}.
Proof. intros Hfail. simpl. now rewrite Hfail. Qed.

Lemma read_loop_error_first (K : usdf_consts) (fmt : fi_cq_format) (n : nat)
    (cq : usdf_cq) (hw : hw_queue) (c : usd_completion) (r : retval) :
  comp_failed c = true ->
  usdf_cq_read_loop K fmt (S n) cq (Some c :: hw) [] r =
  {| ret := Err FI_EAVAIL; buf := []; cq_after := set_cq_comp c cq;
     world := hw; slept := [] |}.
Proof. intros Hfail. simpl. now rewrite Hfail. Qed.

Lemma set_cq_comp_polled (c : usd_completion) (good : list usd_completion)
    (cq : usdf_cq) :
  set_cq_comp c (polled good cq) = set_cq_comp c cq.
Proof.
  revert cq. induction good as [| g good IH]; intros cq; [reflexivity |].
  simpl. unfold polled in IH. now rewrite IH.
Qed.

(** ** Partial batches *)

Lemma scan_stops_error (n : nat) (good : list usdf_cq_soft_entry)
    (e : usdf_cq_soft_entry) (rest : list usdf_cq_soft_entry) :
  0 < cse_prov_errno e -> scan_stops n good (e :: rest).
Proof. intros H. right. right. exists e, rest. auto. Qed.

(** The hard-mode loops on polls that yield the successful completions
    [good], then the failed completion [bad]. *)
Lemma hard_batch_then_error (K : usdf_consts) (fmt : fi_cq_format)
    (timeout_ms : Z) (count fuel : nat) (cq : usdf_cq)
    (good : list usd_completion) (bad : usd_completion) (hw : hw_queue)
    (s t : Z) (sl : list Z) (r0 : retval) :
  entry_len_known fmt = true ->
  Forall succeeded good ->
  comp_failed bad = true ->
  (length good < count)%nat ->
  let r := usdf_cq_read_loop K fmt count cq (map Some good ++ Some bad :: hw)
             [] r0 in
  (ret r = if nonempty good then Val (Z.of_nat (length good))
           else Err FI_EAVAIL) /\
  buf r = map (hard_record K fmt) good /\
  cq_after r = set_cq_comp bad cq /\ world r = hw /\ slept r = [] /\
  usdf_cq_sread_loop K fmt timeout_ms (length good + S fuel) count cq
    (map Some good ++ Some bad :: hw) [] s t sl =
  Some {| ret := ret r; buf := buf r; cq_after := cq_after r;
          world := world r; slept := sl |}.
Proof.
  intros Hfmt Hgood Hbad Hn r. subst r.
  rewrite (read_loop_successes K fmt Hfmt good count cq _ [] r0 Hgood)
    by lia.
  rewrite (sread_loop_successes K fmt timeout_ms Hfmt good (S fuel) count cq
             _ [] s t sl Hgood) by lia.
  destruct (count - length good)%nat as [| m] eqn:Hm; [lia |].
  simpl app.
  destruct good as [| g good].
  - rewrite read_loop_error_first, sread_loop_error_first by assumption.
    simpl. repeat split; reflexivity.
  - set (b := map (hard_record K fmt) (g :: good)).
    assert (nonempty b = true) as Hb by reflexivity.
    assert (S m = O \/ fst (usd_poll_cq (Some bad :: hw)) = None \/
            (exists c, fst (usd_poll_cq (Some bad :: hw)) = Some c /\
                       comp_failed c = true)) as Hstop
      by (right; right; exists bad; auto).
    destruct (read_loop_stop K fmt (S m) (polled (g :: good) cq)
                (Some bad :: hw) b (Val FI_SUCCESS) Hb Hstop)
      as (Hret & Hbuf & Hsl & _ & Hw & Hcq).
    destruct (sread_loop_stop K fmt timeout_ms fuel (S m)
                (polled (g :: good) cq) (Some bad :: hw) b s t sl Hb Hstop)
      as (out & Hrun & Hret' & Hbuf' & Hsl' & _ & Hw' & Hcq').
    cbn [nonempty].
    rewrite Hret, Hbuf, Hsl, (Hw ltac:(discriminate)),
      (Hcq bad ltac:(discriminate) eq_refl), set_cq_comp_polled.
    subst b. rewrite count_of_map.
    split; [reflexivity |]. split; [reflexivity |].
    split; [reflexivity |]. split; [reflexivity |].
    split; [reflexivity |].
    rewrite Hrun. destruct out as [oret obuf ocq ow osl].
    cbn [ret buf cq_after world slept] in Hret', Hbuf', Hsl', Hw', Hcq'.
    specialize (Hw' ltac:(discriminate)).
    specialize (Hcq' bad ltac:(discriminate) eq_refl).
    rewrite Hret', Hbuf', Hsl', Hw', Hcq', set_cq_comp_polled, ?count_of_map.
    reflexivity.
Qed.

Section PartialBatch.

Variable K : usdf_consts.
Variable fmt : fi_cq_format.
Hypothesis Hfmt : entry_len_known fmt = true.

(** The caller's buffer has room for [count] records; the blocking loops
    are entered with any back-off state [s], [t], [sl]. *)
Variables (count fuel : nat) (timeout_ms s t : Z) (sl : list Z).

(** Hard mode: the polls yield the successful completions [good], then the
    failed completion [bad]. *)
Variables (cq : usdf_cq) (good : list usd_completion)
          (bad : usd_completion) (hw : hw_queue).
Hypothesis Hsticky : sticky_set cq = false.
Hypothesis Hgood : Forall succeeded good.
Hypothesis Hbad : comp_failed bad = true.
Hypothesis Hroom : (length good < count)%nat.

(** Soft mode: after the progress sweep the ring holds the successful
    entries [sgood], then the error entry [sbad]. *)
Variable env : Type.
Variable usdf_domain_progress : env -> usdf_cq -> env * usdf_cq.
Variables (scq scq1 : usdf_cq) (w w1 : env)
          (sgood : list usdf_cq_soft_entry) (sbad : usdf_cq_soft_entry)
          (srest : list usdf_cq_soft_entry).
Hypothesis Hssticky : sticky_set scq = false.
Hypothesis Hsweep : usdf_domain_progress w scq = (w1, scq1).
Hypothesis Hwf : ring_wf scq1.
Hypothesis Hring : ring_contents scq1 = sgood ++ sbad :: srest.
Hypothesis Hsgood : Forall is_success sgood.
Hypothesis Hsbad : 0 < cse_prov_errno sbad.
Hypothesis Hsroom : (length sgood < count)%nat.

(** C4.  A read that has collected [K > 0] entries when it meets a
    completion marked as an error returns [K] with exactly those entries,
    and a read that meets the error first returns [-FI_EAVAIL] with
    nothing; in both cases the error stays where a later read or error-read
    finds it: in the sticky slot of a hard queue, under the tail of the
    ring of a soft queue.  This holds for the non-blocking and the blocking
    read of either mode, the blocking ones adding no sleep. *)
Theorem C4_partial_batch_before_error :
  let polls := map Some good ++ Some bad :: hw in
  let hard_ret := if nonempty good then Val (Z.of_nat (length good))
                  else Err FI_EAVAIL in
  let soft_ret := if nonempty sgood then Val (Z.of_nat (length sgood))
                  else Err FI_EAVAIL in
  (* non-blocking, hard *)
  (let r := usdf_cq_read_common K fmt count cq polls in
   ret r = hard_ret /\ buf r = map (hard_record K fmt) good /\
   cq_comp (cq_after r) = bad /\ world r = hw /\
   ret (usdf_cq_read_common K fmt count (cq_after r) (world r))
     = Err FI_EAVAIL /\
   fst (fst (usdf_cq_readerr K (cq_after r))) = Val 1) /\
  (* blocking, hard *)
  (exists r,
     usdf_cq_sread_common K fmt timeout_ms (length good + S fuel) count cq
       polls = Some r /\
     ret r = hard_ret /\ buf r = map (hard_record K fmt) good /\
     cq_comp (cq_after r) = bad /\ world r = hw /\ slept r = []) /\
  (exists r,
     usdf_cq_sread_loop K fmt timeout_ms (length good + S fuel) count cq
       polls [] s t sl = Some r /\
     ret r = hard_ret /\ buf r = map (hard_record K fmt) good /\
     cq_comp (cq_after r) = bad /\ world r = hw /\ slept r = sl) /\
  (* non-blocking, soft *)
  (let r := usdf_cq_read_common_soft usdf_domain_progress fmt count scq w in
   ret r = soft_ret /\ buf r = map (soft_record fmt) sgood /\
   ring_contents (cq_after r) = sbad :: srest) /\
  (* blocking, soft *)
  (exists r,
     usdf_cq_sread_common_soft usdf_domain_progress K fmt timeout_ms
       (S fuel) count scq w = Some r /\
     ret r = soft_ret /\ buf r = map (soft_record fmt) sgood /\
     ring_contents (cq_after r) = sbad :: srest /\ slept r = []) /\
  (exists r,
     usdf_cq_sread_soft_loop usdf_domain_progress K fmt timeout_ms
       (S fuel) count scq w s t sl = Some r /\
     ret r = soft_ret /\ buf r = map (soft_record fmt) sgood /\
     ring_contents (cq_after r) = sbad :: srest /\ slept r = sl).
Proof.
  intros polls hard_ret soft_ret.
  assert (forall s0 t0 sl0,
            exists r,
              usdf_cq_sread_loop K fmt timeout_ms (length good + S fuel)
                count cq polls [] s0 t0 sl0 = Some r /\
              ret r = hard_ret /\ buf r = map (hard_record K fmt) good /\
              cq_comp (cq_after r) = bad /\ world r = hw /\
              slept r = sl0) as Hhard.
  { intros s0 t0 sl0.
    destruct (hard_batch_then_error K fmt timeout_ms count fuel cq good bad
                hw s0 t0 sl0 (Val 0) Hfmt Hgood Hbad Hroom)
      as (Hret & Hbuf & Hcq & Hw & _ & Hrun).
    eexists. split; [exact Hrun |]. cbn [ret buf cq_after world slept].
    rewrite Hret, Hbuf, Hcq, Hw. repeat split; reflexivity. }
  assert (forall s0 t0 sl0,
            exists r,
              usdf_cq_sread_soft_loop usdf_domain_progress K fmt timeout_ms
                (S fuel) count scq w s0 t0 sl0 = Some r /\
              ret r = soft_ret /\ buf r = map (soft_record fmt) sgood /\
              ring_contents (cq_after r) = sbad :: srest /\
              slept r = sl0) as Hsoft.
  { intros s0 t0 sl0. destruct sgood as [| e sg] eqn:Hsg.
    - rewrite (sread_soft_error_first env usdf_domain_progress K fmt
                 timeout_ms fuel count scq scq1 w w1 s0 t0 sl0 sbad srest
                 Hsweep Hwf Hring Hsbad) by (simpl in Hsroom; lia).
      eexists. split; [reflexivity |]. simpl. repeat split. exact Hring.
    - destruct (sread_soft_some env usdf_domain_progress K fmt timeout_ms
                  fuel count scq scq1 w w1 s0 t0 sl0 (e :: sg)
                  (sbad :: srest) Hfmt Hsweep Hwf Hring Hsgood)
        as (r & Hrun & Hret & Hbuf & Hsl & _ & Hc);
        [lia | discriminate | now apply scan_stops_error |].
      exists r. subst soft_ret. cbn [nonempty]. auto. }
  split; [| split; [| split; [| split; [| split]]]].
  - destruct (hard_batch_then_error K fmt timeout_ms count fuel cq good bad
                hw s t sl (Val 0) Hfmt Hgood Hbad Hroom)
      as (Hret & Hbuf & Hcq & Hw & _ & _).
    assert (usdf_cq_read_common K fmt count cq polls =
            usdf_cq_read_loop K fmt count cq polls [] (Val 0)) as Heq
      by (unfold usdf_cq_read_common; now rewrite Hsticky, Hfmt).
    intros r. subst r. rewrite Heq.
    fold polls in Hret, Hbuf, Hcq, Hw.
    rewrite Hret, Hbuf, Hcq, Hw.
    unfold usdf_cq_read_common, usdf_cq_readerr, sticky_set.
    cbn [cq_comp set_cq_comp]. unfold comp_failed in Hbad.
    destruct (status_code (uc_status bad) =? 0); [discriminate |].
    repeat split; reflexivity.
  - unfold usdf_cq_sread_common. rewrite Hsticky, Hfmt. cbn [negb].
    apply Hhard.
  - apply Hhard.
  - destruct sgood as [| e sg] eqn:Hsg.
    + destruct (read_soft_error_first env usdf_domain_progress fmt count
                  scq scq1 w w1 sbad srest Hfmt Hssticky Hsweep Hwf Hring
                  Hsbad) as (Hret & Hbuf & _ & Hcq);
        [simpl in Hsroom; lia |].
      intros r. subst r.
      rewrite Hret, Hbuf, Hcq. repeat split. exact Hring.
    + destruct (read_soft_some env usdf_domain_progress fmt count scq scq1
                  w w1 (e :: sg) (sbad :: srest) Hfmt Hssticky Hsweep Hwf
                  Hring Hsgood) as (Hret & Hbuf & _ & _ & Hc & _);
        [lia | discriminate | now apply scan_stops_error |].
      intros r. subst r soft_ret. cbn [nonempty]. auto.
  - unfold usdf_cq_sread_common_soft. rewrite Hfmt. cbn [negb].
    apply Hsoft.
  - apply Hsoft.
Qed.

End PartialBatch.

Lemma sample_soft_cq_wf (fmt : fi_cq_format) (n base : Z) :
  0 < n -> ring_wf (sample_soft_cq fmt n base).
Proof.
  intros Hn. unfold ring_wf, ring_cap, cq_comps. simpl.
  rewrite length_replicate. lia.
Qed.

Lemma C4_partial_batch_before_error_witness :
  let good := [sample_comp USD_COMPTYPE_SEND USD_COMPSTAT_SUCCESS 1 10;
               sample_comp USD_COMPTYPE_RECV USD_COMPSTAT_SUCCESS 2 64] in
  let bad := sample_comp USD_COMPTYPE_RECV USD_COMPSTAT_ERROR_CRC 3 64 in
  ret (usdf_cq_read_common sample_consts FI_CQ_FORMAT_MSG 4
         (sample_hard_cq FI_CQ_FORMAT_MSG 4 77)
         (map Some good ++ [Some bad])) = Val 2 /\
  ret (usdf_cq_read_common_soft idle_progress FI_CQ_FORMAT_MSG 4
         sample_ring_with_error tt) = Val 1.
Proof.
  intros good bad.
  assert (ring_wf sample_ring_with_error) as Hwf by ring_wf_eval.
  pose proof (C4_partial_batch_before_error sample_consts FI_CQ_FORMAT_MSG
                eq_refl 4 0 (-1) 1 0 []
                (sample_hard_cq FI_CQ_FORMAT_MSG 4 77) good bad []
                eq_refl
                ltac:(repeat constructor)
                eq_refl
                ltac:(simpl; lia)
                unit idle_progress
                sample_ring_with_error sample_ring_with_error tt tt
                [ {| cse_context := 7; cse_flags := 0; cse_len := 10;
                     cse_buf := 0; cse_data := 0; cse_prov_errno := 0 |} ]
                {| cse_context := 8; cse_flags := 0; cse_len := 20;
                   cse_buf := 0; cse_data := 0; cse_prov_errno := 5 |}
                []
                eq_refl eq_refl Hwf eq_refl
                ltac:(repeat constructor; unfold is_success; simpl; lia)
                ltac:(simpl; lia)
                ltac:(simpl; lia)) as H.
  cbv zeta in H.
  destruct H as ((Hhard & _) & _ & _ & (Hsoft & _) & _).
  split; [exact Hhard | exact Hsoft].
Defined.

(** ** Overflow of the ring *)

Lemma post_soft_sticky (cq : usdf_cq) (context len prov_errno : Z) :
  sticky_set (usdf_cq_post_soft cq context len prov_errno) = sticky_set cq.
Proof. unfold usdf_cq_post_soft. now destruct (ring_full cq). Qed.

Lemma post_all_sticky (pushes : list (Z * Z * Z)) (cq : usdf_cq) :
  sticky_set (post_all cq pushes) = sticky_set cq.
Proof.
  revert cq. induction pushes as [| p pushes IH]; intros cq; [reflexivity |].
  unfold post_all in *. simpl. rewrite IH. apply post_soft_sticky.
Qed.

(** A non-blocking soft read with an idle sweep, on a ring of successful
    entries: it returns the first [count] of them and leaves the others. *)
Lemma read_soft_idle_prefix (fmt : fi_cq_format) (count : nat) (cq : usdf_cq)
    (l : list usdf_cq_soft_entry) :
  entry_len_known fmt = true ->
  sticky_set cq = false ->
  ring_wf cq ->
  ring_contents cq = l ->
  Forall is_success l ->
  let r := usdf_cq_read_common_soft idle_progress fmt count cq tt in
  buf r = map (soft_record fmt) (take count l) /\
  ret r = (if nonempty (take count l)
           then Val (Z.of_nat (length (take count l))) else Err FI_EAGAIN) /\
  ring_wf (cq_after r) /\
  ring_contents (cq_after r) = drop count l /\
  sticky_set (cq_after r) = false.
Proof.
  intros Hfmt Hst Hwf Hc Hl r.
  destruct (take count l) as [| e good] eqn:Hgood.
  - assert (count = O \/ l = []) as Hstop.
    { destruct count; [now left |]. destruct l; [now right | discriminate]. }
    subst r. unfold usdf_cq_read_common_soft, idle_progress.
    rewrite Hst, Hfmt. cbn [negb].
    rewrite soft_scan_stop;
      [| now rewrite set_cq_tail_id
       | rewrite set_cq_tail_id; destruct Hstop;
         [now left | right; congruence]].
    cbn [nonempty ret buf cq_after]. rewrite set_cq_tail_id.
    replace (drop count l) with l
      by (destruct Hstop as [-> | ->]; [reflexivity | now destruct count]).
    auto.
  - destruct (read_soft_some unit idle_progress fmt count cq cq tt tt
                (take count l) (drop count l) Hfmt Hst eq_refl Hwf)
      as (Hret & Hbuf & _ & Hwf' & Hc' & Hst').
    + now rewrite take_drop.
    + now apply Forall_take.
    + rewrite length_take. lia.
    + congruence.
    + unfold scan_stops. rewrite length_take.
      destruct (Nat.le_gt_cases count (length l)) as [Hle | Hgt].
      * left. lia.
      * right. left. apply drop_ge. lia.
    + fold r in Hret, Hbuf, Hwf', Hc', Hst'.
      rewrite Hgood in *. cbn [nonempty].
      rewrite Hret, Hbuf, Hst'. auto.
Qed.

Lemma soft_reads_spec (fmt : fi_cq_format) (counts : list nat) :
  entry_len_known fmt = true ->
  forall (cq : usdf_cq) (l : list usdf_cq_soft_entry),
    sticky_set cq = false ->
    ring_wf cq ->
    ring_contents cq = l ->
    Forall is_success l ->
    fst (soft_reads fmt counts cq) =
      map (soft_record fmt) (take (list_sum counts) l) /\
    ring_contents (snd (soft_reads fmt counts cq)) =
      drop (list_sum counts) l.
Proof.
  intros Hfmt. induction counts as [| k ks IH]; intros cq l Hst Hwf Hc Hl.
  - simpl. rewrite drop_0. auto.
  - destruct (read_soft_idle_prefix fmt k cq l Hfmt Hst Hwf Hc Hl)
      as (Hbuf & _ & Hwf' & Hc' & Hst').
    cbn [soft_reads list_sum].
    destruct (IH _ (drop k l) Hst' Hwf' Hc' (Forall_drop _ _ _ Hl))
      as [Hfst Hsnd].
    destruct (soft_reads fmt ks
                (cq_after (usdf_cq_read_common_soft idle_progress fmt k cq
                             tt))) as [bs cq''].
    cbn [fst snd] in *. rewrite Hbuf, Hfst, Hsnd.
    rewrite <- map_app, take_take_drop, drop_drop. auto.
Qed.

Lemma posted_success (l : list usdf_cq_soft_entry) :
  Forall (fun p => snd p <= 0) (map posted l) -> Forall is_success l.
Proof.
  induction l as [| e l IH]; intros H; [constructor |].
  inversion H as [| ? ? He Hl]; subst. constructor; [exact He | auto].
Qed.

(** C6, counterexample.  One push of an entry with the provider error code
    [5] onto an empty ring of capacity one: the entry is retained, but reads
    do not return it; each of them reports [-FI_EAVAIL] and writes nothing. *)
Lemma C6_counterexample :
  let cq := sample_soft_cq FI_CQ_FORMAT_MSG 1 4096 in
  let cq' := post_all cq [(7, 10, 5)] in
  Z.to_nat (ring_cap cq) = 1%nat /\
  ring_contents cq = [] /\
  map posted (ring_contents cq') = [(7, 10, 5)] /\
  ret (usdf_cq_read_common_soft idle_progress FI_CQ_FORMAT_MSG 1 cq' tt)
    = Err FI_EAVAIL /\
  buf (usdf_cq_read_common_soft idle_progress FI_CQ_FORMAT_MSG 1 cq' tt)
    = [] /\
  soft_reads FI_CQ_FORMAT_MSG [1; 1; 1]%nat cq' = ([], cq').
Proof. vm_compute. repeat split; reflexivity. Qed.

(** C6, as the code has it.  After [N] pushes onto an empty ring of capacity
    [C <= N] the ring holds exactly the first [C] entries pushed, in order,
    and is full: any further push leaves the queue unchanged.  When none of
    those [C] entries carries a positive provider error code, and the sticky
    error slot of the queue is clear, later reads asking for [C] records or
    more in all return exactly those [C] entries in push order and leave the
    ring empty. *)
Theorem C6_ring_overflow (cq : usdf_cq) (pushes : list (Z * Z * Z))
    (fmt : fi_cq_format) (counts : list nat) :
  ring_wf cq ->
  ring_contents cq = [] ->
  (Z.to_nat (ring_cap cq) <= length pushes)%nat ->
  let C := Z.to_nat (ring_cap cq) in
  let cq' := post_all cq pushes in
  map posted (ring_contents cq') = take C pushes /\
  length (ring_contents cq') = C /\
  (forall context len prov_errno,
     usdf_cq_post_soft cq' context len prov_errno = cq') /\
  (entry_len_known fmt = true ->
   sticky_set cq = false ->
   Forall (fun p => snd p <= 0) (take C pushes) ->
   (C <= list_sum counts)%nat ->
   fst (soft_reads fmt counts cq') =
     map (soft_record fmt) (ring_contents cq') /\
   map entry_context (fst (soft_reads fmt counts cq')) =
     map (fun p => fst (fst p)) (take C pushes) /\
   ring_contents (snd (soft_reads fmt counts cq')) = []).
Proof.
  intros Hwf Hempty HN C cq'.
  destruct (post_all_spec pushes cq Hwf) as (Hwf' & Hcap & Hc).
  fold cq' in Hwf', Hcap, Hc.
  rewrite Hempty in Hc. simpl in Hc. rewrite Nat.sub_0_r in Hc. fold C in Hc.
  assert (length (ring_contents cq') = C) as Hlen.
  { rewrite <- (length_map posted), Hc, length_take. lia. }
  split; [exact Hc |]. split; [exact Hlen |]. split.
  - intros. apply post_soft_full. apply ring_full_length; [assumption |].
    rewrite Hcap. exact Hlen.
  - intros Hfmt Hst Hok Hsum.
    assert (Forall is_success (ring_contents cq')) as Hsucc.
    { rewrite <- Hc in Hok. now apply posted_success. }
    destruct (soft_reads_spec fmt counts Hfmt cq' (ring_contents cq'))
      as [Hfst Hsnd]; try assumption; try reflexivity.
    { unfold cq'. now rewrite post_all_sticky. }
    rewrite take_ge in Hfst by lia. rewrite drop_ge in Hsnd by lia.
    split; [exact Hfst |]. split; [| exact Hsnd].
    rewrite Hfst, <- Hc, !map_map. apply map_ext.
    intros e. now destruct fmt.
Qed.

Lemma C6_ring_overflow_witness :
  let cq := sample_soft_cq FI_CQ_FORMAT_MSG 2 4096 in
  let pushes := [(7, 10, 0); (8, 20, 0); (9, 30, 0)] in
  map posted (ring_contents (post_all cq pushes)) = [(7, 10, 0); (8, 20, 0)] /\
  map entry_context
    (fst (soft_reads FI_CQ_FORMAT_MSG [1; 3]%nat (post_all cq pushes)))
    = [7; 8].
Proof.
  intros cq pushes.
  destruct (C6_ring_overflow cq pushes FI_CQ_FORMAT_MSG [1; 3]%nat)
    as (Hkept & _ & _ & Hread).
  - ring_wf_eval.
  - reflexivity.
  - vm_compute. lia.
  - destruct Hread as (_ & Hctx & _).
    + reflexivity.
    + reflexivity.
    + vm_compute. repeat constructor; discriminate.
    + vm_compute. lia.
    + split; [exact Hkept | exact Hctx].
Defined.

(** ** Back-off *)

Lemma next_sleep_spec (K : usdf_consts) (q : Z) :
  backoff_consts_ok K ->
  0 <= q <= SREAD_MAX_SLEEP_TIME_US K ->
  next_sleep K q = Z.min (q * SREAD_EXP_BASE K) (SREAD_MAX_SLEEP_TIME_US K) /\
  0 <= next_sleep K q <= SREAD_MAX_SLEEP_TIME_US K.
Proof.
  intros (Hinit & Hbase & Hfit) Hq. unfold next_sleep.
  destruct (Z.ltb_spec q (SREAD_MAX_SLEEP_TIME_US K)).
  - rewrite wrap64_small by nia. split; [reflexivity | nia].
  - assert (q = SREAD_MAX_SLEEP_TIME_US K) as -> by lia.
    split; nia.
Qed.

Lemma spec_quanta_length (K : usdf_consts) (q : Z) (k : nat) :
  length (spec_quanta K q k) = k.
Proof.
  revert q. induction k as [| k IH]; intros q; simpl; [| rewrite IH];
    reflexivity.
Qed.

Lemma spec_quanta_bounded (K : usdf_consts) (k : nat) (q : Z) :
  q <= SREAD_MAX_SLEEP_TIME_US K ->
  Forall (fun x => x <= SREAD_MAX_SLEEP_TIME_US K) (spec_quanta K q k).
Proof.
  revert q. induction k as [| k IH]; intros q Hq; simpl; constructor;
    [exact Hq | apply IH; lia].
Qed.

Lemma spec_quanta_snoc (K : usdf_consts) (k : nat) (q : Z) :
  spec_quanta K q (S k) =
  q :: spec_quanta K (Z.min (q * SREAD_EXP_BASE K)
                        (SREAD_MAX_SLEEP_TIME_US K)) k.
Proof. reflexivity. Qed.

Lemma backoff_trace_of (K : usdf_consts) (sl : list Z) (k : nat) :
  backoff_consts_ok K ->
  sl = spec_quanta K (SREAD_INIT_SLEEP_TIME_US K) k ->
  backoff_trace K sl.
Proof.
  intros (Hinit & _) ->. unfold backoff_trace.
  rewrite spec_quanta_length. split; [reflexivity |].
  apply spec_quanta_bounded. lia.
Qed.

(** The quanta the hard blocking loop adds to those slept before. *)
Lemma sread_loop_quanta (K : usdf_consts) (fmt : fi_cq_format)
    (timeout_ms : Z) :
  backoff_consts_ok K ->
  forall (fuel n : nat) (cq : usdf_cq) (hw : hw_queue) (b : list cq_entry)
         (s t : Z) (sl : list Z) (r : run hw_queue),
    0 <= s <= SREAD_MAX_SLEEP_TIME_US K ->
    usdf_cq_sread_loop K fmt timeout_ms fuel n cq hw b s t sl = Some r ->
    exists k, slept r = sl ++ spec_quanta K s k.
Proof.
  intros HK. induction fuel as [| fuel IH];
    intros n cq hw b s t sl r Hs Hrun; [discriminate |].
  simpl in Hrun.
  assert (forall x, Some x = Some r -> slept x = sl ->
                    exists k, slept r = sl ++ spec_quanta K s k) as Hdone.
  { intros x Hx Hsl. injection Hx as <-. exists O. simpl.
    now rewrite app_nil_r. }
  destruct n as [| n]; [eapply Hdone; [exact Hrun | reflexivity] |].
  destruct (usd_poll_cq hw) as [[c |] hw'].
  - destruct (comp_failed c).
    + destruct (nonempty b); (eapply Hdone; [exact Hrun | reflexivity]).
    + destruct (usdf_cq_copy_cq_entry K c fmt) as [[z | e] [x |]];
        try (eapply Hdone; [exact Hrun | reflexivity]).
      eapply IH; eassumption.
  - destruct (nonempty b); [eapply Hdone; [exact Hrun | reflexivity] |].
    destruct (deadline_passed timeout_ms t);
      [eapply Hdone; [exact Hrun | reflexivity] |].
    destruct (next_sleep_spec K s HK Hs) as [Hnext Hrange].
    destruct (IH _ _ _ _ _ _ _ _ Hrange Hrun) as [k Hk].
    exists (S k). rewrite Hk, <- app_assoc, spec_quanta_snoc, <- Hnext.
    reflexivity.
Qed.

Lemma copy_cq_entry_cases (K : usdf_consts) (c : usd_completion)
    (fmt : fi_cq_format) :
  (exists e, usdf_cq_copy_cq_entry K c fmt = (Val FI_SUCCESS, Some e)) \/
  usdf_cq_copy_cq_entry K c fmt = (Err FI_EOPNOTSUPP, None).
Proof. destruct fmt; simpl; eauto. Qed.

Lemma nonempty_snoc {A : Type} (l : list A) (x : A) :
  nonempty (l ++ [x]) = true.
Proof. now destruct l. Qed.

Lemma deadline_never (timeout_ms t : Z) :
  timeout_ms < 0 -> deadline_passed timeout_ms t = false.
Proof.
  intros H. unfold deadline_passed.
  destruct (Z.leb_spec 0 timeout_ms); [lia | reflexivity].
Qed.

(** With a negative timeout the hard blocking loop, asked for at least one
    record, never returns [-FI_EAGAIN]. *)
Lemma sread_loop_no_eagain (K : usdf_consts) (fmt : fi_cq_format)
    (timeout_ms : Z) :
  timeout_ms < 0 ->
  forall (fuel n : nat) (cq : usdf_cq) (hw : hw_queue) (b : list cq_entry)
         (s t : Z) (sl : list Z) (r : run hw_queue),
    n <> O \/ nonempty b = true ->
    usdf_cq_sread_loop K fmt timeout_ms fuel n cq hw b s t sl = Some r ->
    ret r <> Err FI_EAGAIN.
Proof.
  intros Hneg. induction fuel as [| fuel IH];
    intros n cq hw b s t sl r Hn Hrun; [discriminate |].
  simpl in Hrun.
  destruct n as [| n].
  - destruct Hn as [Hn | Hb]; [congruence |]. rewrite Hb in Hrun.
    injection Hrun as <-. discriminate.
  - destruct (usd_poll_cq hw) as [[c |] hw'].
    + destruct (comp_failed c).
      * destruct (nonempty b); injection Hrun as <-; discriminate.
      * destruct (copy_cq_entry_cases K c fmt) as [[e He] | He];
          rewrite He in Hrun.
        -- eapply IH; [| exact Hrun]. right. apply nonempty_snoc.
        -- injection Hrun as <-. discriminate.
    + destruct (nonempty b) eqn:Hb.
      * injection Hrun as <-. discriminate.
      * rewrite (deadline_never _ _ Hneg) in Hrun.
        eapply IH; [| exact Hrun]. left. discriminate.
Qed.

(** With a negative timeout and a hardware queue that never yields a
    completion the hard blocking loop is still waiting after any number of
    turns. *)
Lemma sread_loop_waits (K : usdf_consts) (fmt : fi_cq_format)
    (timeout_ms : Z) :
  timeout_ms < 0 ->
  forall (fuel n : nat) (cq : usdf_cq) (hw : hw_queue) (s t : Z)
         (sl : list Z),
    Forall (fun o => o = None) hw ->
    usdf_cq_sread_loop K fmt timeout_ms fuel (S n) cq hw [] s t sl = None.
Proof.
  intros Hneg. induction fuel as [| fuel IH]; intros n cq hw s t sl Hhw;
    [reflexivity |].
  simpl. rewrite (deadline_never _ _ Hneg).
  destruct hw as [| o hw']; simpl.
  - apply IH. constructor.
  - inversion Hhw as [| ? ? Ho Hhw']; subst. apply IH. exact Hhw'.
Qed.

(** With a zero timeout the hard blocking read whose first poll finds
    nothing returns [-FI_EAGAIN] without sleeping. *)
Lemma sread_zero_timeout (K : usdf_consts) (fmt : fi_cq_format)
    (fuel count : nat) (cq : usdf_cq) (hw : hw_queue) :
  entry_len_known fmt = true ->
  sticky_set cq = false ->
  fst (usd_poll_cq hw) = None ->
  exists r,
    usdf_cq_sread_common K fmt 0 (S fuel) count cq hw = Some r /\
    ret r = Err FI_EAGAIN /\ buf r = [] /\ slept r = [] /\ cq_after r = cq.
Proof.
  intros Hfmt Hst Hpoll. unfold usdf_cq_sread_common.
  rewrite Hst, Hfmt. simpl.
  destruct count as [| n].
  - eexists. split; [reflexivity |]. simpl. auto.
  - destruct (usd_poll_cq hw) as [[c |] hw']; simpl in Hpoll;
      [discriminate |].
    eexists. split; [reflexivity |]. simpl. auto.
Qed.

(** Once a record is in the buffer the hard blocking loop returns within as
    many turns as the buffer has room, without sleeping, and returns the
    count of the buffer. *)
Lemma sread_loop_drains (K : usdf_consts) (fmt : fi_cq_format)
    (timeout_ms : Z) :
  entry_len_known fmt = true ->
  forall (n fuel : nat) (cq : usdf_cq) (hw : hw_queue) (b : list cq_entry)
         (s t : Z) (sl : list Z),
    nonempty b = true ->
    (n < fuel)%nat ->
    exists r,
      usdf_cq_sread_loop K fmt timeout_ms fuel n cq hw b s t sl = Some r /\
      slept r = sl /\ ret r = Val (count_of (buf r)) /\
      nonempty (buf r) = true.
Proof.
  intros Hfmt. induction n as [| n IH];
    intros fuel cq hw b s t sl Hb Hfuel;
    (destruct fuel as [| fuel]; [lia |]); simpl.
  - rewrite Hb. eexists. split; [reflexivity |]. simpl. auto.
  - destruct (usd_poll_cq hw) as [[c |] hw'].
    + destruct (comp_failed c).
      * rewrite Hb. eexists. split; [reflexivity |]. simpl. auto.
      * rewrite (copy_cq_entry_known K fmt c Hfmt).
        apply IH; [apply nonempty_snoc | lia].
    + rewrite Hb. eexists. split; [reflexivity |]. simpl. auto.
Qed.

(** With a negative timeout the hard blocking loop sleeps once for each poll
    that finds nothing while its buffer is empty. *)
Lemma sread_loop_empty_polls (K : usdf_consts) (fmt : fi_cq_format)
    (timeout_ms : Z) :
  backoff_consts_ok K ->
  timeout_ms < 0 ->
  forall (k fuel n : nat) (cq : usdf_cq) (hw : hw_queue) (s t : Z)
         (sl : list Z),
    0 <= s <= SREAD_MAX_SLEEP_TIME_US K ->
    exists s' t',
      0 <= s' <= SREAD_MAX_SLEEP_TIME_US K /\
      usdf_cq_sread_loop K fmt timeout_ms (k + fuel) (S n) cq
        (after_empty_polls k hw) [] s t sl =
      usdf_cq_sread_loop K fmt timeout_ms fuel (S n) cq hw [] s' t'
        (sl ++ spec_quanta K s k).
Proof.
  intros HK Hneg. induction k as [| k IH]; intros fuel n cq hw s t sl Hs.
  - exists s, t. simpl. rewrite app_nil_r. auto.
  - destruct (next_sleep_spec K s HK Hs) as [Hnext Hrange].
    destruct (IH fuel n cq hw (next_sleep K s) (wrap64 (t + s)) (sl ++ [s])
                Hrange) as (s' & t' & Hs' & Hrun).
    exists s', t'. split; [exact Hs' |].
    unfold after_empty_polls in *. simpl.
    rewrite (deadline_never _ _ Hneg), Hrun, <- app_assoc, <- Hnext.
    reflexivity.
Qed.

(** With a negative timeout, a completion that arrives after [k] empty polls
    ends the wait of the hard blocking read after exactly [k] quanta. *)
Lemma sread_arrival (K : usdf_consts) (fmt : fi_cq_format) (timeout_ms : Z)
    (k count extra : nat) (cq : usdf_cq) (c : usd_completion)
    (hw : hw_queue) :
  backoff_consts_ok K ->
  entry_len_known fmt = true ->
  sticky_set cq = false ->
  timeout_ms < 0 ->
  exists r,
    usdf_cq_sread_common K fmt timeout_ms (k + (S (S count) + extra))
      (S count) cq (after_empty_polls k (Some c :: hw)) = Some r /\
    slept r = spec_quanta K (SREAD_INIT_SLEEP_TIME_US K) k /\
    (comp_failed c = true -> ret r = Err FI_EAVAIL /\ buf r = []) /\
    (comp_failed c = false ->
     ret r = Val (count_of (buf r)) /\ nonempty (buf r) = true).
Proof.
  intros HK Hfmt Hst Hneg. unfold usdf_cq_sread_common.
  rewrite Hst, Hfmt. cbn [negb].
  destruct HK as (Hinit & Hrest).
  destruct (sread_loop_empty_polls K fmt timeout_ms (conj Hinit Hrest) Hneg k
              (S (S count) + extra) count cq (Some c :: hw)
              (SREAD_INIT_SLEEP_TIME_US K) 0 [] Hinit)
    as (s' & t' & _ & Hrun).
  rewrite Hrun. cbn [app].
  destruct (comp_failed c) eqn:Hc.
  - change (S (S count) + extra)%nat with (S (S count + extra)).
    rewrite sread_loop_error_first by assumption.
    eexists. split; [reflexivity |]. simpl.
    split; [reflexivity |]. split; [auto | discriminate].
  - change (S (S count) + extra)%nat with (S (S count + extra)).
    cbn [usdf_cq_sread_loop usd_poll_cq]. rewrite Hc.
    rewrite (copy_cq_entry_known K fmt c Hfmt). cbn [app].
    destruct (sread_loop_drains K fmt timeout_ms Hfmt count (S count + extra)
                (set_cq_comp c cq) hw [hard_record K fmt c] s' t'
                (spec_quanta K (SREAD_INIT_SLEEP_TIME_US K) k) eq_refl)
      as (r & Hr & Hsl & Hret & Hne); [lia |].
    exists r. split; [exact Hr |]. split; [exact Hsl |].
    split; [discriminate | auto].
Qed.

(** ** Back-off of the soft blocking read *)

Lemma copy_soft_entry_cases (e : usdf_cq_soft_entry) (fmt : fi_cq_format) :
  (exists x, usdf_cq_copy_soft_entry e fmt = (Val FI_SUCCESS, Some x)) \/
  usdf_cq_copy_soft_entry e fmt = (Err FI_EOPNOTSUPP, None).
Proof. destruct fmt; simpl; eauto. Qed.

(** A scan that returns from inside its loop returns an error other than
    [-FI_EAGAIN]; a scan never shortens the buffer. *)
Lemma soft_scan_outcome (fmt : fi_cq_format) :
  forall (n : nat) (cq : usdf_cq) (tail : Z) (b : list cq_entry)
         (x : scan_exit) (b' : list cq_entry) (cq' : usdf_cq),
    soft_scan fmt n cq tail b = (x, b', cq') ->
    (forall r, x = Returned r -> r <> Err FI_EAGAIN) /\
    (nonempty b = true -> nonempty b' = true) /\
    (forall tail', x = LoopDone tail' -> b' = [] -> cq' = cq).
Proof.
  induction n as [| n IH]; intros cq tail b x b' cq' Hscan; simpl in Hscan.
  - injection Hscan as <- <- <-. repeat split; congruence.
  - destruct ((tail =? cq_head cq) && is_read (cq_last_op cq)).
    { injection Hscan as <- <- <-. repeat split; congruence. }
    destruct (0 <? cse_prov_errno (slot_at cq tail)).
    { destruct (nonempty b) eqn:Hb; injection Hscan as <- <- <-;
        repeat split; congruence. }
    destruct (copy_soft_entry_cases (slot_at cq tail) fmt) as [[e He] | He];
      rewrite He in Hscan.
    + destruct (IH _ _ _ _ _ _ Hscan) as (Hret & Hgrow & Hsame).
      split; [exact Hret |].
      pose proof (Hgrow (nonempty_snoc b e)) as Hne.
      split; [auto |].
      intros tail' _ Hnil. rewrite Hnil in Hne. discriminate.
    + injection Hscan as <- <- <-. repeat split; congruence.
Qed.

(** On a ring that is not empty a scan asked for at least one record writes
    a record or returns an error. *)
Lemma soft_scan_finds (fmt : fi_cq_format) (n : nat) (cq : usdf_cq)
    (tail : Z) (x : scan_exit) (b' : list cq_entry) (cq' : usdf_cq) :
  ring_empty (set_cq_tail tail cq) = false ->
  soft_scan fmt (S n) cq tail [] = (x, b', cq') ->
  nonempty b' = true \/ exists r, x = Returned r.
Proof.
  intros Hne Hscan. simpl in Hscan.
  change ((tail =? cq_head cq) && is_read (cq_last_op cq))
    with (ring_empty (set_cq_tail tail cq)) in Hscan.
  rewrite Hne in Hscan.
  destruct (0 <? cse_prov_errno (slot_at cq tail)).
  { injection Hscan as <- <- <-. right. eauto. }
  destruct (copy_soft_entry_cases (slot_at cq tail) fmt) as [[e He] | He];
    rewrite He in Hscan.
  - left. apply (soft_scan_outcome fmt _ _ _ _ _ _ _ Hscan). reflexivity.
  - injection Hscan as <- <- <-. right. eauto.
Qed.

Lemma soft_scan_nothing (fmt : fi_cq_format) (n : nat) (cq : usdf_cq)
    (tail : Z) (b : list cq_entry) :
  n = O \/ ring_empty (set_cq_tail tail cq) = true ->
  soft_scan fmt n cq tail b = (LoopDone tail, b, cq).
Proof.
  intros [-> | He]; [reflexivity |].
  destruct n as [| n]; [reflexivity |]. simpl.
  change ((tail =? cq_head cq) && is_read (cq_last_op cq))
    with (ring_empty (set_cq_tail tail cq)).
  now rewrite He.
Qed.

Section SoftBackoff.

Variable env : Type.
Variable usdf_domain_progress : env -> usdf_cq -> env * usdf_cq.
Variable K : usdf_consts.
Variable fmt : fi_cq_format.
Variable timeout_ms : Z.

(** With a negative timeout the soft blocking loop never returns
    [-FI_EAGAIN]. *)
Lemma sread_soft_no_eagain :
  timeout_ms < 0 ->
  forall (fuel count : nat) (cq : usdf_cq) (w : env) (s t : Z)
         (sl : list Z) (r : run env),
    usdf_cq_sread_soft_loop usdf_domain_progress K fmt timeout_ms fuel
      count cq w s t sl = Some r ->
    ret r <> Err FI_EAGAIN.
Proof.
  intros Hneg. induction fuel as [| fuel IH];
    intros count cq w s t sl r Hrun; [discriminate |].
  simpl in Hrun.
  destruct (usdf_domain_progress w cq) as [w1 cq1].
  destruct (soft_scan fmt count cq1 (cq_tail cq1) [])
    as [[[tail | r'] b] cq2] eqn:Hscan.
  - destruct (nonempty b).
    + injection Hrun as <-. discriminate.
    + rewrite (deadline_never _ _ Hneg) in Hrun. eapply IH. exact Hrun.
  - injection Hrun as <-. simpl.
    apply (soft_scan_outcome fmt _ _ _ _ _ _ _ Hscan). reflexivity.
Qed.

(** The quanta the soft blocking loop adds to those slept before. *)
Lemma sread_soft_quanta :
  backoff_consts_ok K ->
  forall (fuel count : nat) (cq : usdf_cq) (w : env) (s t : Z)
         (sl : list Z) (r : run env),
    0 <= s <= SREAD_MAX_SLEEP_TIME_US K ->
    usdf_cq_sread_soft_loop usdf_domain_progress K fmt timeout_ms fuel
      count cq w s t sl = Some r ->
    exists k, slept r = sl ++ spec_quanta K s k.
Proof.
  intros HK. induction fuel as [| fuel IH];
    intros count cq w s t sl r Hs Hrun; [discriminate |].
  simpl in Hrun.
  assert (forall x, Some x = Some r -> slept x = sl ->
                    exists k, slept r = sl ++ spec_quanta K s k) as Hdone.
  { intros x Hx Hsl. injection Hx as <-. exists O. simpl.
    now rewrite app_nil_r. }
  destruct (usdf_domain_progress w cq) as [w1 cq1].
  destruct (soft_scan fmt count cq1 (cq_tail cq1) [])
    as [[[tail | r'] b] cq2];
    [| eapply Hdone; [exact Hrun | reflexivity]].
  destruct (nonempty b); [eapply Hdone; [exact Hrun | reflexivity] |].
  destruct (deadline_passed timeout_ms t);
    [eapply Hdone; [exact Hrun | reflexivity] |].
  destruct (next_sleep_spec K s HK Hs) as [Hnext Hrange].
  destruct (IH _ _ _ _ _ _ _ Hrange Hrun) as [k Hk].
  exists (S k). rewrite Hk, <- app_assoc, spec_quanta_snoc, <- Hnext.
  reflexivity.
Qed.

(** The turn of the soft blocking loop whose sweep leaves something in the
    ring returns, without sleeping, entries or an error. *)
Lemma sread_soft_turn_returns (fuel count : nat) (cq cq1 : usdf_cq)
    (w w1 : env) (s t : Z) (sl : list Z) :
  usdf_domain_progress w cq = (w1, cq1) ->
  ring_empty cq1 = false ->
  exists r,
    usdf_cq_sread_soft_loop usdf_domain_progress K fmt timeout_ms (S fuel)
      (S count) cq w s t sl = Some r /\
    slept r = sl /\ ret r <> Err FI_EAGAIN.
Proof.
  intros Hp Hne. cbn [usdf_cq_sread_soft_loop]. rewrite Hp.
  destruct (soft_scan fmt (S count) cq1 (cq_tail cq1) [])
    as [[[tail | r'] b] cq2] eqn:Hscan.
  - rewrite <- (set_cq_tail_id cq1) in Hne.
    destruct (soft_scan_finds fmt count cq1 (cq_tail cq1) _ _ _ Hne Hscan)
      as [Hb | [r Hr]]; [| discriminate].
    rewrite Hb. eexists. split; [reflexivity |]. simpl.
    split; [reflexivity | discriminate].
  - eexists. split; [reflexivity |]. simpl. split; [reflexivity |].
    apply (soft_scan_outcome fmt _ _ _ _ _ _ _ Hscan). reflexivity.
Qed.

(** With a zero timeout the soft blocking read whose sweep leaves the ring
    empty returns [-FI_EAGAIN] without sleeping. *)
Lemma sread_soft_zero_timeout (fuel count : nat) (cq cq1 : usdf_cq)
    (w w1 : env) :
  entry_len_known fmt = true ->
  usdf_domain_progress w cq = (w1, cq1) ->
  ring_empty cq1 = true ->
  exists r,
    usdf_cq_sread_common_soft usdf_domain_progress K fmt 0 (S fuel) count
      cq w = Some r /\
    ret r = Err FI_EAGAIN /\ buf r = [] /\ slept r = [] /\
    cq_after r = cq1.
Proof.
  intros Hfmt Hp He. unfold usdf_cq_sread_common_soft. rewrite Hfmt.
  cbn [negb usdf_cq_sread_soft_loop]. rewrite Hp.
  rewrite soft_scan_nothing by (right; now rewrite set_cq_tail_id).
  cbn [nonempty]. change (deadline_passed 0 0) with true. cbv iota.
  eexists. split; [reflexivity |]. simpl. auto.
Qed.

End SoftBackoff.

Lemma post_all_not_empty (cq : usdf_cq) (p : Z * Z * Z)
    (ps : list (Z * Z * Z)) :
  ring_wf cq -> ring_empty cq = true ->
  ring_empty (post_all cq (p :: ps)) = false.
Proof.
  intros Hwf He.
  destruct (post_all_spec (p :: ps) cq Hwf) as (Hwf' & _ & Hc).
  apply ring_empty_length in He; [| assumption].
  rewrite He in Hc. cbn [map app length] in Hc. rewrite Nat.sub_0_r in Hc.
  destruct (ring_empty (post_all cq (p :: ps))) eqn:E; [| reflexivity].
  apply ring_empty_length in E; [| assumption]. rewrite E in Hc.
  destruct Hwf as (Hcap & _).
  destruct (Z.to_nat (ring_cap cq)) eqn:Hn; [lia | discriminate].
Qed.

Section SoftArrival.

Variable K : usdf_consts.
Variable fmt : fi_cq_format.
Variable timeout_ms : Z.
Hypothesis Hneg : timeout_ms < 0.

(** With a negative timeout and sweeps that never post, the soft blocking
    loop on an empty ring is still waiting after any number of turns. *)
Lemma sread_soft_waits :
  forall (fuel count : nat) (cq : usdf_cq) (w : list (list (Z * Z * Z)))
         (s t : Z) (sl : list Z),
    Forall (fun batch => batch = []) w ->
    ring_empty cq = true ->
    usdf_cq_sread_soft_loop scheduled_progress K fmt timeout_ms fuel count
      cq w s t sl = None.
Proof.
  induction fuel as [| fuel IH]; intros count cq w s t sl Hw He;
    [reflexivity |].
  cbn [usdf_cq_sread_soft_loop].
  assert (exists w', scheduled_progress w cq = (w', cq) /\
                     Forall (fun batch => batch = []) w') as (w' & Hp & Hw').
  { destruct w as [| batch w']; simpl.
    - exists []. auto.
    - inversion Hw as [| ? ? Hb Hw']; subst. exists w'. auto. }
  rewrite Hp.
  rewrite soft_scan_nothing by (right; now rewrite set_cq_tail_id).
  cbn [nonempty]. rewrite (deadline_never _ _ Hneg).
  apply IH; assumption.
Qed.

Hypothesis HK : backoff_consts_ok K.

(** The soft blocking loop sleeps once for each sweep that posts nothing to
    an empty ring. *)
Lemma sread_soft_empty_sweeps :
  forall (k fuel count : nat) (cq : usdf_cq) (w : list (list (Z * Z * Z)))
         (s t : Z) (sl : list Z),
    ring_empty cq = true ->
    0 <= s <= SREAD_MAX_SLEEP_TIME_US K ->
    exists s' t',
      0 <= s' <= SREAD_MAX_SLEEP_TIME_US K /\
      usdf_cq_sread_soft_loop scheduled_progress K fmt timeout_ms
        (k + fuel) count cq (replicate k [] ++ w) s t sl =
      usdf_cq_sread_soft_loop scheduled_progress K fmt timeout_ms fuel
        count cq w s' t' (sl ++ spec_quanta K s k).
Proof.
  induction k as [| k IH]; intros fuel count cq w s t sl He Hs.
  - exists s, t. simpl. rewrite app_nil_r. auto.
  - destruct (next_sleep_spec K s HK Hs) as [Hnext Hrange].
    destruct (IH fuel count cq w (next_sleep K s) (wrap64 (t + s))
                (sl ++ [s]) He Hrange) as (s' & t' & Hs' & Hrun).
    exists s', t'. split; [exact Hs' |].
    cbn [replicate app Nat.add usdf_cq_sread_soft_loop scheduled_progress
           post_all fold_left].
    rewrite soft_scan_nothing by (right; now rewrite set_cq_tail_id).
    cbn [nonempty]. rewrite (deadline_never _ _ Hneg).
    unfold post_all in Hrun.
    rewrite Hrun, <- app_assoc, spec_quanta_snoc, <- Hnext.
    reflexivity.
Qed.

(** Entries posted by the sweep that follows [k] idle ones end the wait of
    the soft blocking read after exactly [k] quanta. *)
Lemma sread_soft_arrival (k fuel count : nat) (cq : usdf_cq)
    (p : Z * Z * Z) (ps : list (Z * Z * Z))
    (w : list (list (Z * Z * Z))) :
  entry_len_known fmt = true ->
  ring_wf cq -> ring_empty cq = true ->
  exists r,
    usdf_cq_sread_common_soft scheduled_progress K fmt timeout_ms
      (k + S fuel) (S count) cq (replicate k [] ++ (p :: ps) :: w)
      = Some r /\
    slept r = spec_quanta K (SREAD_INIT_SLEEP_TIME_US K) k /\
    ret r <> Err FI_EAGAIN.
Proof.
  intros Hfmt Hwf He. unfold usdf_cq_sread_common_soft. rewrite Hfmt.
  cbn [negb].
  destruct HK as (Hinit & Hrest).
  destruct (sread_soft_empty_sweeps k (S fuel) (S count) cq
              ((p :: ps) :: w) (SREAD_INIT_SLEEP_TIME_US K) 0 [] He Hinit)
    as (s' & t' & _ & Hrun).
  rewrite Hrun. cbn [app].
  destruct (sread_soft_turn_returns _ scheduled_progress K fmt timeout_ms
              fuel count cq (post_all cq (p :: ps)) ((p :: ps) :: w) w
              s' t' (spec_quanta K (SREAD_INIT_SLEEP_TIME_US K) k)
              eq_refl (post_all_not_empty cq p ps Hwf He))
    as (r & Hr & Hsl & Hret).
  exists r. auto.
Qed.

End SoftArrival.

(** ** The blocking reads *)

(** C8, counterexample.  A hard-mode blocking read asked for zero entries
    with the timeout [-1] returns [-FI_EAGAIN] at once. *)
Lemma C8_counterexample :
  usdf_cq_sread_common sample_consts FI_CQ_FORMAT_MSG (-1) 1 0
    (sample_hard_cq FI_CQ_FORMAT_MSG 4 77) [] =
  Some {| ret := Err FI_EAGAIN; buf := [];
          cq_after := sample_hard_cq FI_CQ_FORMAT_MSG 4 77; world := [];
          slept := [] |}.
Proof. reflexivity. Qed.

Section BlockingReads.

Variable K : usdf_consts.
Variable fmt : fi_cq_format.
Hypothesis HK : backoff_consts_ok K.
Hypothesis Hfmt : entry_len_known fmt = true.

Variable env : Type.
Variable usdf_domain_progress : env -> usdf_cq -> env * usdf_cq.

(** C8, as the code has it.  For the blocking reads of both modes:
    - with a zero timeout and nothing available the read returns
      [-FI_EAGAIN] without sleeping;
    - with a negative timeout the read never returns [-FI_EAGAIN], the
      hard-mode read provided it is asked for at least one entry, and it is
      still waiting after any number of turns when nothing arrives; a
      hard-mode read asked for no entry returns [-FI_EAGAIN] at once
      whatever the timeout;
    - the quanta slept start at the initial value, each further one being
      the previous one times the base capped at the maximum, and none
      exceeds the maximum;
    - an entry or an error ends the wait at once: a read that meets one
      after [k] empty attempts has slept exactly [k] quanta, and from any
      state of the loops no sleep follows an entry or an error. *)
Theorem C8_blocking_read_backoff :
  (* zero timeout *)
  (forall fuel count cq hw,
     sticky_set cq = false -> fst (usd_poll_cq hw) = None ->
     exists r,
       usdf_cq_sread_common K fmt 0 (S fuel) count cq hw = Some r /\
       ret r = Err FI_EAGAIN /\ slept r = []) /\
  (forall fuel count cq cq1 w w1,
     usdf_domain_progress w cq = (w1, cq1) -> ring_empty cq1 = true ->
     exists r,
       usdf_cq_sread_common_soft usdf_domain_progress K fmt 0 (S fuel)
         count cq w = Some r /\
       ret r = Err FI_EAGAIN /\ slept r = []) /\
  (* negative timeout *)
  (forall timeout_ms fuel count cq hw r,
     timeout_ms < 0 -> count <> O ->
     usdf_cq_sread_common K fmt timeout_ms fuel count cq hw = Some r ->
     ret r <> Err FI_EAGAIN) /\
  (forall timeout_ms fuel count cq w r,
     timeout_ms < 0 ->
     usdf_cq_sread_common_soft usdf_domain_progress K fmt timeout_ms fuel
       count cq w = Some r ->
     ret r <> Err FI_EAGAIN) /\
  (forall timeout_ms fuel count cq hw,
     timeout_ms < 0 -> count <> O -> sticky_set cq = false ->
     Forall (fun o => o = None) hw ->
     usdf_cq_sread_common K fmt timeout_ms fuel count cq hw = None) /\
  (forall timeout_ms fuel count cq w,
     timeout_ms < 0 -> Forall (fun batch => batch = []) w ->
     ring_empty cq = true ->
     usdf_cq_sread_common_soft scheduled_progress K fmt timeout_ms fuel
       count cq w = None) /\
  (forall timeout_ms fuel cq hw,
     sticky_set cq = false ->
     usdf_cq_sread_common K fmt timeout_ms (S fuel) 0 cq hw =
     Some {| ret := Err FI_EAGAIN; buf := []; cq_after := cq; world := hw;
             slept := [] |}) /\
  (* the quanta *)
  (forall timeout_ms fuel count cq hw r,
     usdf_cq_sread_common K fmt timeout_ms fuel count cq hw = Some r ->
     backoff_trace K (slept r)) /\
  (forall timeout_ms fuel count cq w r,
     usdf_cq_sread_common_soft usdf_domain_progress K fmt timeout_ms fuel
       count cq w = Some r ->
     backoff_trace K (slept r)) /\
  (* an entry or an error ends the wait *)
  (forall timeout_ms k count extra cq c hw,
     timeout_ms < 0 -> sticky_set cq = false ->
     exists r,
       usdf_cq_sread_common K fmt timeout_ms (k + (S (S count) + extra))
         (S count) cq (after_empty_polls k (Some c :: hw)) = Some r /\
       slept r = spec_quanta K (SREAD_INIT_SLEEP_TIME_US K) k /\
       (comp_failed c = true -> ret r = Err FI_EAVAIL /\ buf r = []) /\
       (comp_failed c = false ->
        ret r = Val (count_of (buf r)) /\ nonempty (buf r) = true)) /\
  (forall timeout_ms k fuel count cq p ps w,
     timeout_ms < 0 -> ring_wf cq -> ring_empty cq = true ->
     exists r,
       usdf_cq_sread_common_soft scheduled_progress K fmt timeout_ms
         (k + S fuel) (S count) cq (replicate k [] ++ (p :: ps) :: w)
         = Some r /\
       slept r = spec_quanta K (SREAD_INIT_SLEEP_TIME_US K) k /\
       ret r <> Err FI_EAGAIN) /\
  (forall timeout_ms n fuel cq hw b s t sl,
     nonempty b = true -> (n < fuel)%nat ->
     exists r,
       usdf_cq_sread_loop K fmt timeout_ms fuel n cq hw b s t sl = Some r /\
       slept r = sl /\ ret r = Val (count_of (buf r))) /\
  (forall timeout_ms fuel n cq hw c s t sl,
     comp_failed c = true ->
     exists r,
       usdf_cq_sread_loop K fmt timeout_ms (S fuel) (S n) cq (Some c :: hw)
         [] s t sl = Some r /\
       slept r = sl /\ ret r = Err FI_EAVAIL) /\
  (forall timeout_ms fuel count cq cq1 w w1 s t sl,
     usdf_domain_progress w cq = (w1, cq1) -> ring_empty cq1 = false ->
     exists r,
       usdf_cq_sread_soft_loop usdf_domain_progress K fmt timeout_ms
         (S fuel) (S count) cq w s t sl = Some r /\
       slept r = sl /\ ret r <> Err FI_EAGAIN).
Proof.
  assert (0 <= SREAD_INIT_SLEEP_TIME_US K <= SREAD_MAX_SLEEP_TIME_US K)
    as Hinit by apply HK.
  repeat match goal with |- _ /\ _ => split end.
  - intros fuel count cq hw Hst Hpoll.
    destruct (sread_zero_timeout K fmt fuel count cq hw Hfmt Hst Hpoll)
      as (r & Hr & Hret & _ & Hsl & _).
    exists r. auto.
  - intros fuel count cq cq1 w w1 Hp He.
    destruct (sread_soft_zero_timeout env usdf_domain_progress K fmt fuel
                count cq cq1 w w1 Hfmt Hp He)
      as (r & Hr & Hret & _ & Hsl & _).
    exists r. auto.
  - intros timeout_ms fuel count cq hw r Hneg Hcount.
    unfold usdf_cq_sread_common. rewrite Hfmt. cbn [negb].
    destruct (sticky_set cq).
    + intros H. injection H as <-. discriminate.
    + apply sread_loop_no_eagain; auto.
  - intros timeout_ms fuel count cq w r Hneg.
    unfold usdf_cq_sread_common_soft. rewrite Hfmt. cbn [negb].
    now apply sread_soft_no_eagain.
  - intros timeout_ms fuel count cq hw Hneg Hcount Hst Hhw.
    unfold usdf_cq_sread_common. rewrite Hst, Hfmt. cbn [negb].
    destruct count as [| n]; [congruence |].
    now apply sread_loop_waits.
  - intros timeout_ms fuel count cq w Hneg Hw He.
    unfold usdf_cq_sread_common_soft. rewrite Hfmt. cbn [negb].
    now apply sread_soft_waits.
  - intros timeout_ms fuel cq hw Hst.
    unfold usdf_cq_sread_common. now rewrite Hst, Hfmt.
  - intros timeout_ms fuel count cq hw r.
    unfold usdf_cq_sread_common. rewrite Hfmt. cbn [negb].
    destruct (sticky_set cq).
    + intros H. injection H as <-.
      now apply (backoff_trace_of K [] O).
    + intros Hrun.
      destruct (sread_loop_quanta K fmt timeout_ms HK _ _ _ _ _ _ _ _ _
                  Hinit Hrun) as [k Hk].
      now apply (backoff_trace_of K _ k).
  - intros timeout_ms fuel count cq w r.
    unfold usdf_cq_sread_common_soft. rewrite Hfmt. cbn [negb].
    intros Hrun.
    destruct (sread_soft_quanta env usdf_domain_progress K fmt timeout_ms
                HK _ _ _ _ _ _ _ _ Hinit Hrun) as [k Hk].
    now apply (backoff_trace_of K _ k).
  - intros timeout_ms k count extra cq c hw Hneg Hst.
    now apply sread_arrival.
  - intros timeout_ms k fuel count cq p ps w Hneg Hwf He.
    now apply sread_soft_arrival.
  - intros timeout_ms n fuel cq hw b s t sl Hb Hfuel.
    destruct (sread_loop_drains K fmt timeout_ms Hfmt n fuel cq hw b s t sl
                Hb Hfuel) as (r & Hr & Hsl & Hret & _).
    exists r. auto.
  - intros timeout_ms fuel n cq hw c s t sl Hc.
    rewrite sread_loop_error_first by assumption.
    eexists. split; [reflexivity |]. auto.
  - intros timeout_ms fuel count cq cq1 w w1 s t sl Hp Hne.
    now apply (sread_soft_turn_returns env usdf_domain_progress K fmt
                 timeout_ms fuel count cq cq1 w w1).
Qed.

End BlockingReads.

Lemma C8_blocking_read_backoff_witness :
  (exists r,
     usdf_cq_sread_common sample_consts FI_CQ_FORMAT_MSG 0 1 4
       (sample_hard_cq FI_CQ_FORMAT_MSG 4 77) [] = Some r /\
     ret r = Err FI_EAGAIN /\ slept r = []) /\
  (exists r,
     usdf_cq_sread_common sample_consts FI_CQ_FORMAT_MSG (-1) 4 1
       (sample_hard_cq FI_CQ_FORMAT_MSG 4 77)
       [None; None;
        Some (sample_comp USD_COMPTYPE_SEND USD_COMPSTAT_SUCCESS 7 10)]
       = Some r /\
     slept r = [1; 2] /\ ret r = Val (count_of (buf r))).
Proof.
  assert (backoff_consts_ok sample_consts) as HK.
  { unfold backoff_consts_ok. simpl. lia. }
  pose proof (C8_blocking_read_backoff sample_consts FI_CQ_FORMAT_MSG HK
                eq_refl unit idle_progress) as H.
  destruct H as (Hzero & _ & _ & _ & _ & _ & _ & _ & _ & Harrive & _).
  split.
  - apply (Hzero O 4%nat (sample_hard_cq FI_CQ_FORMAT_MSG 4 77) []);
      reflexivity.
  - destruct (Harrive (-1) 2%nat O O (sample_hard_cq FI_CQ_FORMAT_MSG 4 77)
                (sample_comp USD_COMPTYPE_SEND USD_COMPSTAT_SUCCESS 7 10) [])
      as (r & Hr & Hsl & _ & Hok); [lia | reflexivity |].
    exists r. split; [exact Hr |]. split; [exact Hsl |].
    apply Hok. reflexivity.
Defined.

(** ** From promotion to the ring *)

(** X3.  Promotion of a hard queue whose discriminator is still the zero
    that [calloc] left, when both allocations succeed: the queue is soft and
    its ring is well formed and empty, with room for [size] entries. *)
Lemma make_soft_fresh_ring (cq : usdf_cq) (p q : Z) (plan live0 : list Z) :
  hard_ops_of (format (cq_attr cq)) = Some (cq_ops cq) ->
  cq_last_op cq = USDF_SOFT_CQ_READ ->
  0 < size (cq_attr cq) ->
  p <> 0 -> q <> 0 ->
  let '(r, cq', h') :=
    usdf_cq_make_soft cq {| alloc_plan := p :: q :: plan; live := live0 |} in
  r = Val 0 /\ usdf_cq_is_soft cq' = true /\ ring_wf cq' /\
  ring_contents cq' = [] /\ ring_cap cq' = size (cq_attr cq) /\
  (cq_cq cq <> 0 ->
   cq_list cq' = [ {| cqh_addr := q; cqh_ucq := cq_cq cq;
                      cqh_refcnt := cq_refcnt cq |} ]).
Proof.
  intros Hops Hop Hsize Hp Hq. unfold usdf_cq_make_soft.
  rewrite Hops.
  assert (exists so, soft_ops_of (format (cq_attr cq)) = Some so /\
                     usdf_cq_is_soft (set_cq_ops so cq) = true)
    as (so & Hso & Hsoft).
  { unfold usdf_cq_is_soft. simpl.
    destruct (format (cq_attr cq)); try discriminate; eexists;
      (split; [reflexivity |]); reflexivity. }
  rewrite Hso.
  assert (fi_ops_cq_eqb (cq_ops cq) (cq_ops cq) = true) as ->
    by now apply fi_ops_cq_eqb_eq.
  unfold alloc. cbn [alloc_plan live].
  destruct (Z.eqb_spec p 0); [contradiction |].
  destruct (Z.eqb_spec q 0); [contradiction |].
  assert (forall c,
            cq_ops c = so -> cq_attr c = cq_attr cq -> c_word0 c = p ->
            cq_end c = p + size (cq_attr cq) -> cq_head c = p ->
            cq_tail c = p -> cq_last_op c = USDF_SOFT_CQ_READ ->
            cq_slots c = replicate (Z.to_nat (size (cq_attr cq))) zero_entry ->
            usdf_cq_is_soft c = true /\ ring_wf c /\ ring_contents c = [] /\
            ring_cap c = size (cq_attr cq)) as Hring.
  { intros c Ho Ha Hw He Hh Ht Hl Hs.
    split.
    - unfold usdf_cq_is_soft. rewrite Ha, Hso, Ho. now apply fi_ops_cq_eqb_eq.
    - unfold ring_wf, ring_contents, ring_items, ring_len, ring_cap, cq_comps.
      rewrite Hw, He, Hh, Ht, Hl, Hs, length_replicate.
      replace (p - p) with 0 by lia.
      replace (p + size (cq_attr cq) - p) with (size (cq_attr cq)) by lia.
      simpl. repeat split; try lia; reflexivity. }
  destruct (Z.eqb_spec (cq_cq cq) 0) as [Hz | Hnz]; cbn [negb].
  - destruct (Hring (set_cq_ops so
                       (set_cq_tail p (set_cq_head p
                          (set_cq_end (p + size (cq_attr cq))
                             (set_cq_slots
                                (replicate (Z.to_nat (size (cq_attr cq)))
                                   zero_entry)
                                (set_c_word0 p (set_cq_list [] cq))))))))
      as (H1 & H2 & H3 & H4); try reflexivity; try exact Hop.
    repeat split; try assumption; try apply H2. contradiction.
  - destruct (Hring (set_cq_ops so
                       (set_cq_list
                          [ {| cqh_addr := q; cqh_ucq := cq_cq cq;
                               cqh_refcnt := cq_refcnt cq |} ]
                          (set_cq_tail p (set_cq_head p
                             (set_cq_end (p + size (cq_attr cq))
                                (set_cq_slots
                                   (replicate (Z.to_nat (size (cq_attr cq)))
                                      zero_entry)
                                   (set_c_word0 p (set_cq_list [] cq)))))))))
      as (H1 & H2 & H3 & H4); try reflexivity; try exact Hop.
    repeat split; try assumption; try apply H2.
Qed.

(** ** The hard-mode error-read *)

(** The hard-mode error-read returns [-FI_EAGAIN] when the sticky slot is
    clear and otherwise hands out the error of the slot and clears it. *)
Lemma readerr_hard_spec (K : usdf_consts) (cq : usdf_cq) :
  (sticky_set cq = false ->
   usdf_cq_readerr K cq = (Err FI_EAGAIN, None, cq)) /\
  (sticky_set cq = true ->
   exists e cq',
     usdf_cq_readerr K cq = (Val 1, Some e, cq') /\
     err_op_context e = uc_context (cq_comp cq) /\
     sticky_set cq' = false).
Proof.
  unfold usdf_cq_readerr, sticky_set.
  destruct (status_code (uc_status (cq_comp cq)) =? 0); simpl; split;
    intros H; try discriminate; try reflexivity.
  eexists. eexists. split; [reflexivity |]. split; reflexivity.
Qed.

(** A hard-mode read leaves a sticky error where it is. *)
Lemma read_keeps_sticky (K : usdf_consts) (fmt : fi_cq_format) (count : nat)
    (cq : usdf_cq) (hw : hw_queue) :
  sticky_set cq = true ->
  usdf_cq_read_common K fmt count cq hw =
  {| ret := Err FI_EAVAIL; buf := []; cq_after := cq; world := hw;
     slept := [] |}.
Proof. intros H. unfold usdf_cq_read_common. now rewrite H. Qed.

(** * Further properties *)

(** ** Attributes and open *)

(** X1.  Attributes that ask for no wait object and for no more entries than
    the device allows are accepted and normalised: the size stays within the
    maximum, a size of zero becomes the maximum, an unspecified format
    becomes the context format and any other format is kept; the normalised
    attributes are accepted unchanged when processed again. *)
Theorem process_attr_normalises (attr : fi_cq_attr) (uda_max_cqe : Z) :
  wait_obj attr = FI_WAIT_NONE ->
  size attr <= uda_max_cqe ->
  exists attr',
    usdf_cq_process_attr attr uda_max_cqe = (Val 0, attr') /\
    wait_obj attr' = FI_WAIT_NONE /\
    size attr' <= uda_max_cqe /\
    size attr' = (if size attr =? 0 then uda_max_cqe else size attr) /\
    format attr' = (if is_unspec (format attr) then FI_CQ_FORMAT_CONTEXT
                    else format attr) /\
    format attr' <> FI_CQ_FORMAT_UNSPEC /\
    usdf_cq_process_attr attr' uda_max_cqe = (Val 0, attr').
Proof.
  intros Hwait Hsize. destruct attr as [sz fmt wo]. simpl in *. subst wo.
  unfold usdf_cq_process_attr. simpl.
  destruct (Z.ltb_spec uda_max_cqe sz); [lia |].
  eexists. split; [reflexivity |].
  destruct (Z.eqb_spec sz 0) as [-> | Hnz]; destruct fmt; simpl;
    repeat match goal with
    | |- context [?a <? ?b] => destruct (Z.ltb_spec a b); [lia |]
    | |- context [?a =? ?b] => destruct (Z.eqb_spec a b)
    end; simpl; repeat split; try lia; try congruence; try reflexivity.
Qed.

Lemma process_attr_normalises_witness :
  exists attr',
    usdf_cq_process_attr (sample_attr FI_CQ_FORMAT_UNSPEC 0) 1024
      = (Val 0, attr') /\
    size attr' = 1024 /\ format attr' = FI_CQ_FORMAT_CONTEXT.
Proof.
  destruct (process_attr_normalises (sample_attr FI_CQ_FORMAT_UNSPEC 0) 1024)
    as (attr' & Hrun & _ & _ & Hsize & Hfmt & _).
  - reflexivity.
  - simpl. lia.
  - exists attr'. split; [exact Hrun |]. split; [exact Hsize | exact Hfmt].
Defined.

Lemma filter_fresh (p : Z) (l : list Z) :
  ~ In p l -> List.filter (fun q => negb (q =? p)) l = l.
Proof.
  induction l as [| x l IH]; intros Hp; [reflexivity |]. simpl.
  destruct (Z.eqb_spec x p) as [-> | Hne]; simpl.
  - exfalso. apply Hp. now left.
  - rewrite IH; [reflexivity |]. intros Hin. apply Hp. now right.
Qed.

(** X2.  With an allocator that hands out no block twice, [usdf_cq_open]
    succeeds exactly when the attributes ask for no wait object, for no more
    entries than the device allows and for a format other than the tagged
    one, and the allocation succeeds.  The queue it creates is in hard mode,
    unreferenced, bound to no hardware queue and free of errors, and it
    carries the normalised attributes; a call that fails creates no queue and
    leaves no block allocated. *)
Theorem open_outcomes (uda_max_cqe : Z) (attr : fi_cq_attr) (h : heap) :
  ~ In (fst (alloc h)) (live h) ->
  let o := usdf_cq_open uda_max_cqe attr h in
  (open_ret o = Val 0 <->
   wait_obj attr = FI_WAIT_NONE /\ size attr <= uda_max_cqe /\
   format attr <> FI_CQ_FORMAT_TAGGED /\ fst (alloc h) <> 0) /\
  (open_ret o = Val 0 ->
   exists cq,
     open_cq o = Some cq /\ usdf_cq_is_soft cq = false /\
     hard_ops_of (format (cq_attr cq)) = Some (cq_ops cq) /\
     cq_refcnt cq = 0 /\ cq_cq cq = 0 /\ sticky_set cq = false /\
     cq_last_op cq = USDF_SOFT_CQ_READ /\
     cq_attr cq = open_attr o /\ size (cq_attr cq) <= uda_max_cqe /\
     live (open_heap o) = fst (alloc h) :: live h) /\
  (open_ret o <> Val 0 ->
   open_cq o = None /\ live (open_heap o) = live h).
Proof.
  intros Hfresh o. subst o. unfold usdf_cq_open, usdf_cq_process_attr.
  destruct attr as [sz fmt wo]. cbn [wait_obj size format].
  assert (forall p, List.filter (fun q => negb (q =? p)) (p :: live h)
                    = List.filter (fun q => negb (q =? p)) (live h)) as Hhd
    by (intros p; simpl; now rewrite Z.eqb_refl).
  unfold alloc in *. destruct (alloc_plan h) as [| p plan]; cbn [fst] in *;
    [| destruct (Z.eqb_spec p 0) as [-> | Hp]];
    (destruct wo; cbn [is_wait_none negb];
     [destruct (Z.ltb_spec uda_max_cqe sz);
      [| destruct (Z.eqb_spec sz 0) as [-> | Hsz]; destruct fmt]
     | | | |]);
    cbn -[Z.le List.filter];
    rewrite ?Hhd, ?(filter_fresh _ _ Hfresh);
    (split;
     [split;
      [intros Hr; first [discriminate Hr
                        | repeat split; first [lia | congruence]]
      | intros (H1 & H2 & H3 & H4);
        first [reflexivity | congruence | lia]]
     | split;
       [intros Hr;
        first [discriminate Hr
              | eexists; split; [reflexivity |];
                cbn -[Z.le]; repeat split; first [lia | reflexivity]]
       | intros Hr; first [congruence | split; reflexivity]]]).
Qed.

Lemma open_outcomes_witness :
  let o := usdf_cq_open 1024 (sample_attr FI_CQ_FORMAT_MSG 8)
             {| alloc_plan := [4096]; live := [] |} in
  open_ret o = Val 0 /\
  exists cq, open_cq o = Some cq /\ usdf_cq_is_soft cq = false /\
             cq_cq cq = 0.
Proof.
  destruct (open_outcomes 1024 (sample_attr FI_CQ_FORMAT_MSG 8)
              {| alloc_plan := [4096]; live := [] |})
    as (Hiff & Hcq & _).
  - simpl. tauto.
  - assert (open_ret (usdf_cq_open 1024 (sample_attr FI_CQ_FORMAT_MSG 8)
                        {| alloc_plan := [4096]; live := [] |}) = Val 0)
      as Hret.
    { apply Hiff. simpl. repeat split; try lia; discriminate. }
    split; [exact Hret |].
    destruct (Hcq Hret) as (cq & Hsome & Hhard & _ & _ & Hcqcq & _).
    exists cq. auto.
Defined.

(** ** Promotion *)

Lemma make_soft_fresh_ring_witness :
  let '(r, cq', h') :=
    usdf_cq_make_soft (sample_hard_cq FI_CQ_FORMAT_MSG 4 77)
      {| alloc_plan := [4096; 8192]; live := [] |} in
  r = Val 0 /\ usdf_cq_is_soft cq' = true /\ ring_contents cq' = [] /\
  ring_cap cq' = 4.
Proof.
  pose proof (make_soft_fresh_ring (sample_hard_cq FI_CQ_FORMAT_MSG 4 77)
                4096 8192 [] [] eq_refl eq_refl ltac:(simpl; lia)
                ltac:(lia) ltac:(lia)) as H.
  destruct (usdf_cq_make_soft (sample_hard_cq FI_CQ_FORMAT_MSG 4 77)
              {| alloc_plan := [4096; 8192]; live := [] |}) as [[r cq'] h'].
  destruct H as (Hr & Hsoft & _ & Hc & Hcap & _).
  repeat split; assumption.
Defined.

(** X4.  When the ring is allocated and the allocation of the binding fails,
    promotion returns [-FI_ENOMEM], frees the ring and puts the handle of
    the hardware queue back: the queue is still in hard mode with its
    operation table, handle, reference count, attributes and last
    completion, and no block stays allocated.  A later promotion whose
    allocations succeed then makes the queue soft, with the hardware queue
    and the reference count carried over to the binding. *)
Theorem make_soft_binding_failure (cq : usdf_cq) (p p2 q2 : Z)
    (plan plan2 live0 : list Z) :
  hard_ops_of (format (cq_attr cq)) = Some (cq_ops cq) ->
  cq_cq cq <> 0 ->
  p <> 0 -> p2 <> 0 -> q2 <> 0 ->
  ~ In p live0 ->
  let '(r, cq', h') :=
    usdf_cq_make_soft cq {| alloc_plan := p :: 0 :: plan; live := live0 |} in
  r = Err FI_ENOMEM /\
  usdf_cq_is_soft cq' = false /\ cq_ops cq' = cq_ops cq /\
  cq_cq cq' = cq_cq cq /\ cq_refcnt cq' = cq_refcnt cq /\
  cq_attr cq' = cq_attr cq /\ cq_comp cq' = cq_comp cq /\
  cq_last_op cq' = cq_last_op cq /\
  live h' = live0 /\
  let '(r2, cq2, h2) :=
    usdf_cq_make_soft cq'
      {| alloc_plan := p2 :: q2 :: plan2; live := live h' |} in
  r2 = Val 0 /\ usdf_cq_is_soft cq2 = true /\
  cq_list cq2 = [ {| cqh_addr := q2; cqh_ucq := cq_cq cq;
                     cqh_refcnt := cq_refcnt cq |} ] /\
  live h2 = q2 :: p2 :: live0.
Proof.
  intros Hops Hucq Hp Hp2 Hq2 Hfresh.
  unfold usdf_cq_make_soft at 1. rewrite Hops.
  assert (exists so, soft_ops_of (format (cq_attr cq)) = Some so /\
                     fi_ops_cq_eqb (cq_ops cq) so = false /\
                     fi_ops_cq_eqb so so = true) as (so & Hso & Hne & Hrefl).
  { destruct (format (cq_attr cq)); try discriminate;
      injection Hops as <-; eexists; repeat split. }
  rewrite Hso.
  assert (fi_ops_cq_eqb (cq_ops cq) (cq_ops cq) = true) as Heq
    by now apply fi_ops_cq_eqb_eq.
  rewrite Heq.
  unfold alloc, free. cbn [alloc_plan live].
  destruct (Z.eqb_spec p 0); [contradiction |].
  destruct (Z.eqb_spec (cq_cq cq) 0); [contradiction |].
  cbn [negb Z.eqb].
  assert (List.filter (fun q => negb (q =? p)) (p :: live0) = live0) as Hfree.
  { simpl. rewrite Z.eqb_refl. simpl. now apply filter_fresh. }
  rewrite Hfree.
  split; [reflexivity |].
  split; [unfold usdf_cq_is_soft; cbn; now rewrite Hso |].
  repeat (split; [reflexivity |]).
  unfold usdf_cq_make_soft. cbn [cq_attr set_c_word0 set_cq_slots
    set_cq_tail set_cq_head set_cq_end set_cq_list cq_ops cq_cq c_word0].
  rewrite Hops, Hso, Heq.
  unfold alloc. cbn [alloc_plan live].
  destruct (Z.eqb_spec p2 0); [contradiction |].
  destruct (Z.eqb_spec q2 0); [contradiction |].
  destruct (Z.eqb_spec (cq_cq cq) 0); [contradiction |].
  cbn. split; [reflexivity |].
  split; [| split; reflexivity].
  unfold usdf_cq_is_soft. cbn. now rewrite Hso.
Qed.

Lemma make_soft_binding_failure_witness :
  let '(r, cq', h') :=
    usdf_cq_make_soft (sample_hard_cq FI_CQ_FORMAT_MSG 4 77)
      {| alloc_plan := [4096; 0]; live := [] |} in
  r = Err FI_ENOMEM /\ cq_cq cq' = 77 /\ live h' = [].
Proof.
  pose proof (make_soft_binding_failure
                (sample_hard_cq FI_CQ_FORMAT_MSG 4 77) 4096 4096 8192 [] [] []
                eq_refl ltac:(simpl; lia) ltac:(lia) ltac:(lia) ltac:(lia)
                ltac:(simpl; tauto)) as H.
  destruct (usdf_cq_make_soft (sample_hard_cq FI_CQ_FORMAT_MSG 4 77)
              {| alloc_plan := [4096; 0]; live := [] |}) as [[r cq'] h'].
  destruct H as (Hr & _ & _ & Hcq & _ & _ & _ & _ & Hlive & _).
  repeat split; assumption.
Defined.

(** ** The producers of the ring *)

Lemma ring_contents_bound (cq : usdf_cq) :
  ring_wf cq -> (length (ring_contents cq) <= Z.to_nat (ring_cap cq))%nat.
Proof.
  intros (Hc & _ & Hh & Ht). rewrite ring_contents_length.
  unfold ring_cap in *.
  pose proof (ring_len_range (cq_end cq - cq_comps cq)
                (cq_head cq - cq_comps cq) (cq_tail cq - cq_comps cq)
                (cq_last_op cq)).
  lia.
Qed.

Lemma ring_push_room (cq : usdf_cq) (new : usdf_cq_soft_entry) :
  ring_wf cq -> ring_full cq = false ->
  ring_wf (ring_push cq new) /\
  ring_cap (ring_push cq new) = ring_cap cq /\
  ring_contents (ring_push cq new) = ring_contents cq ++ [new] /\
  cq_comp (ring_push cq new) = cq_comp cq /\
  ring_room (ring_push cq new) = (ring_room cq - 1)%nat /\
  (0 < ring_room cq)%nat.
Proof.
  intros Hwf Hroom.
  assert (ring_wf (ring_push cq new) /\
          ring_cap (ring_push cq new) = ring_cap cq /\
          ring_contents (ring_push cq new) = ring_contents cq ++ [new])
    as (Hwf' & Hcap & Hc).
  { destruct Hwf as (Hc & Hlen & Hh & Ht). unfold ring_cap in *.
    unfold ring_push, ring_wf, ring_contents, ring_cap, advance_head,
      slot_index, cq_comps in *. simpl.
    rewrite length_insert.
    assert ((if negb (cq_head cq + 1 =? cq_end cq) then cq_head cq + 1
             else c_word0 cq) - c_word0 cq =
            (if cq_head cq - c_word0 cq + 1 =? cq_end cq - c_word0 cq
             then 0 else cq_head cq - c_word0 cq + 1)) as Hadv
      by (ztests; simpl; lia).
    split; [| split; [reflexivity |]].
    - repeat split; try assumption; try lia; ztests; simpl; lia.
    - rewrite Hadv. apply ring_items_push; try lia.
      unfold ring_full in Hroom.
      replace (cq_head cq - c_word0 cq =? cq_tail cq - c_word0 cq)
        with (cq_head cq =? cq_tail cq) by (ztests; lia).
      exact Hroom. }
  assert (length (ring_contents cq) < Z.to_nat (ring_cap cq))%nat as Hlt.
  { pose proof (ring_contents_bound cq Hwf) as Hle.
    pose proof (ring_full_length cq Hwf) as Hf.
    destruct (Nat.eq_dec (length (ring_contents cq))
                (Z.to_nat (ring_cap cq))) as [E | E]; [| lia].
    apply Hf in E. congruence. }
  split; [exact Hwf' |]. split; [exact Hcap |]. split; [exact Hc |].
  split; [reflexivity |].
  unfold ring_room. rewrite Hc, Hcap, length_app. simpl. lia.
Qed.

Lemma post_soft_push (cq : usdf_cq) (context len prov_errno : Z) :
  ring_full cq = false ->
  usdf_cq_post_soft cq context len prov_errno =
  ring_push cq (posted_entry cq context len prov_errno).
Proof. intros H. unfold usdf_cq_post_soft. now rewrite H. Qed.

Lemma ring_room_full (cq : usdf_cq) :
  ring_wf cq -> ring_full cq = true -> ring_room cq = O.
Proof.
  intros Hwf Hf. apply ring_full_length in Hf; [| assumption].
  unfold ring_room. lia.
Qed.

(** X5.  A run of pushes never disturbs the entries already in the ring: the
    entries present stay in place and in order, the pushes that find room
    are appended behind them in push order, and the others are dropped. *)
Theorem post_all_fifo (pushes : list (Z * Z * Z)) (cq : usdf_cq) :
  ring_wf cq ->
  ring_wf (post_all cq pushes) /\
  cq_tail (post_all cq pushes) = cq_tail cq /\
  exists news,
    ring_contents (post_all cq pushes) = ring_contents cq ++ news /\
    map posted news = take (ring_room cq) pushes.
Proof.
  revert cq. induction pushes as [| [[ctx len] e] pushes IH]; intros cq Hwf.
  - split; [exact Hwf |]. split; [reflexivity |]. exists [].
    rewrite app_nil_r, take_nil. auto.
  - change (post_all cq ((ctx, len, e) :: pushes))
      with (post_all (usdf_cq_post_soft cq ctx len e) pushes).
    destruct (ring_full cq) eqn:Hfull.
    + rewrite post_soft_full by assumption.
      destruct (IH cq Hwf) as (Hwf' & Ht & news & Hc & Hn).
      split; [exact Hwf' |]. split; [exact Ht |]. exists news.
      split; [exact Hc |].
      rewrite Hn, (ring_room_full cq Hwf Hfull). reflexivity.
    + rewrite post_soft_push by assumption.
      destruct (ring_push_room cq (posted_entry cq ctx len e) Hwf Hfull)
        as (Hwf1 & _ & Hc1 & _ & Hroom1 & Hpos).
      destruct (IH _ Hwf1) as (Hwf' & Ht & news & Hc & Hn).
      split; [exact Hwf' |]. split; [exact Ht |].
      exists (posted_entry cq ctx len e :: news).
      rewrite Hc, Hc1, <- app_assoc. split; [reflexivity |].
      cbn [map]. rewrite Hn, Hroom1, posted_posted_entry.
      destruct (ring_room cq) as [| m]; [lia |].
      simpl. now rewrite Nat.sub_0_r.
Qed.

Lemma post_all_fifo_witness :
  let cq := post_all (sample_soft_cq FI_CQ_FORMAT_MSG 3 4096) [(1, 10, 0)] in
  exists news,
    ring_contents (post_all cq [(2, 20, 0); (3, 30, 0); (4, 40, 0)])
      = ring_contents cq ++ news /\
    map posted news = [(2, 20, 0); (3, 30, 0)].
Proof.
  intros cq.
  destruct (post_all_fifo [(2, 20, 0); (3, 30, 0); (4, 40, 0)] cq)
    as (_ & _ & news & Hc & Hn).
  - ring_wf_eval.
  - exists news. split; [exact Hc | exact Hn].
Defined.

Lemma pump_step (comp : usd_completion) (q : hw_queue) (cq : usdf_cq) :
  usdf_progress_hard_cq (Some comp :: q) cq =
  if ring_full cq then (cq, q)
  else usdf_progress_hard_cq q (ring_push cq (pumped_entry cq)).
Proof. reflexivity. Qed.

(** X6.  The pump on a hardware queue that holds the completions [cs]:
    the entries already in the ring stay in place, one entry is appended for
    each completion that finds room, each of them filled from [cq_comp], and
    [cq_comp] itself is not written.  When the completions fit, the hardware
    queue is drained up to the poll that finds nothing; when they do not,
    the pump stops at the first completion that finds the ring full: that
    one is taken from the hardware queue and dropped, those behind it stay
    in the hardware queue. *)
Theorem pump_appends (cs : list usd_completion) (rest : hw_queue)
    (cq : usdf_cq) :
  ring_wf cq ->
  let '(cq', q') := usdf_progress_hard_cq (map Some cs ++ None :: rest) cq in
  ring_wf cq' /\ cq_comp cq' = cq_comp cq /\ cq_tail cq' = cq_tail cq /\
  (exists news,
     ring_contents cq' = ring_contents cq ++ news /\
     length news = Nat.min (length cs) (ring_room cq) /\
     Forall (pumped_from cq) news) /\
  q' = (if (length cs <=? ring_room cq)%nat then rest
        else map Some (drop (S (ring_room cq)) cs) ++ None :: rest).
Proof.
  revert cq. induction cs as [| c cs IH]; intros cq Hwf.
  - simpl. split; [exact Hwf |]. split; [reflexivity |].
    split; [reflexivity |]. split; [| reflexivity].
    exists []. rewrite app_nil_r. auto.
  - cbn [map app]. rewrite pump_step.
    destruct (ring_full cq) eqn:Hfull.
    + rewrite (ring_room_full cq Hwf Hfull).
      split; [exact Hwf |]. split; [reflexivity |]. split; [reflexivity |].
      split; [| reflexivity].
      exists []. rewrite app_nil_r, Nat.min_0_r. auto.
    + destruct (ring_push_room cq (pumped_entry cq) Hwf Hfull)
        as (Hwf1 & _ & Hc1 & Hcomp1 & Hroom1 & Hpos).
      specialize (IH _ Hwf1).
      destruct (usdf_progress_hard_cq (map Some cs ++ None :: rest)
                  (ring_push cq (pumped_entry cq))) as [cq' q'].
      destruct IH as (Hwf' & Hcomp & Htail & (news & Hc & Hlen & Hall) & Hq).
      split; [exact Hwf' |]. split; [congruence |].
      split; [exact Htail |].
      destruct (ring_room cq) as [| m] eqn:Hm; [lia |].
      rewrite Hroom1 in *. replace (S m - 1)%nat with m in * by lia.
      split.
      * exists (pumped_entry cq :: news).
        rewrite Hc, Hc1, <- app_assoc. split; [reflexivity |].
        split; [simpl; lia |].
        constructor; [repeat split |].
        eapply Forall_impl; [exact Hall |].
        intros e He. unfold pumped_from in *. now rewrite <- Hcomp1.
      * rewrite Hq. reflexivity.
Qed.

Lemma pump_appends_witness :
  let cq := set_cq_comp (sample_comp USD_COMPTYPE_SEND USD_COMPSTAT_SUCCESS
                           5 50)
              (sample_soft_cq FI_CQ_FORMAT_MSG 2 4096) in
  let c := sample_comp USD_COMPTYPE_RECV USD_COMPSTAT_SUCCESS 7 100 in
  let '(cq', q') := usdf_progress_hard_cq (map Some [c; c; c; c] ++ [None])
                      cq in
  length (ring_contents cq') = 2%nat /\ q' = [Some c; None].
Proof.
  intros cq c.
  pose proof (pump_appends [c; c; c; c] [] cq ltac:(ring_wf_eval)) as H.
  destruct (usdf_progress_hard_cq (map Some [c; c; c; c] ++ [None]) cq)
    as [cq' q'].
  destruct H as (_ & _ & _ & (news & Hc & Hlen & _) & Hq).
  split.
  - rewrite Hc, length_app, Hlen. reflexivity.
  - exact Hq.
Defined.

(** ** The hard-mode read on what is available *)

Lemma hard_record_context (K : usdf_consts) (fmt : fi_cq_format)
    (c : usd_completion) :
  entry_context (hard_record K fmt c) = uc_context c.
Proof. now destruct fmt. Qed.

(** What a hard-mode read leaves on a hardware queue that holds the
    successful completions [good] and then nothing. *)
Lemma read_hard_run (K : usdf_consts) (fmt : fi_cq_format)
    (count : nat) (cq : usdf_cq) (good : list usd_completion)
    (rest : hw_queue) :
  entry_len_known fmt = true ->
  sticky_set cq = false ->
  Forall succeeded good ->
  let r := usdf_cq_read_common K fmt count cq
             (map Some good ++ None :: rest) in
  buf r = map (hard_record K fmt) (take count good) /\
  map entry_context (buf r) = map uc_context (take count good) /\
  ret r = (if nonempty (take count good)
           then Val (Z.of_nat (Nat.min count (length good)))
           else if Nat.eqb count 0 then Val 0 else Err FI_EAGAIN) /\
  world r = (if (count <=? length good)%nat
             then map Some (drop count good) ++ None :: rest
             else rest) /\
  sticky_set (cq_after r) = false.
Proof.
  intros Hfmt Hst Hgood r. subst r. unfold usdf_cq_read_common.
  rewrite Hst, Hfmt. cbn [negb].
  assert (forall l, map entry_context (map (hard_record K fmt) l)
                    = map uc_context l) as Hctx.
  { intros l. rewrite map_map. apply map_ext. intros c.
    apply hard_record_context. }
  destruct (Nat.leb_spec count (length good)) as [Hle | Hgt].
  - assert (map Some good ++ None :: rest =
            map Some (take count good) ++
            (map Some (drop count good) ++ None :: rest)) as Hhw
      by now rewrite app_assoc, <- map_app, take_drop.
    rewrite Hhw.
    rewrite (read_loop_successes K fmt Hfmt (take count good) count cq _ []
               (Val 0)) by (try apply Forall_take; try rewrite length_take;
                            try assumption; lia).
    rewrite length_take. replace (count - count `min` length good)%nat
      with O by lia.
    cbn [usdf_cq_read_loop app ret buf cq_after world].
    rewrite nonempty_map, count_of_map, length_take, Hctx.
    split; [reflexivity |]. split; [reflexivity |].
    split; [| split; [reflexivity |]].
    + destruct (take count good) eqn:Ht; cbn [nonempty]; [| reflexivity].
      destruct count; [reflexivity |].
      destruct good; [simpl in Hle; lia | discriminate].
    + apply polled_sticky; [now apply Forall_take | assumption].
  - rewrite (read_loop_successes K fmt Hfmt good count cq _ [] (Val 0))
      by (try assumption; lia).
    destruct (count - length good)%nat as [| m] eqn:Hm; [lia |].
    rewrite take_ge by lia.
    cbn [usdf_cq_read_loop usd_poll_cq app ret buf cq_after world].
    rewrite nonempty_map, count_of_map, Hctx.
    split; [reflexivity |]. split; [reflexivity |].
    split; [| split; [reflexivity |]].
    + replace (count `min` length good)%nat with (length good) by lia.
      destruct good; cbn [nonempty]; [| reflexivity].
      destruct count; [lia | reflexivity].
    + now apply polled_sticky.
Qed.

(** X7.  A hard-mode read on a hardware queue that holds the successful
    completions [good] and then nothing: it returns the first [count] of
    them, in poll order and with their contexts, leaves the others in the
    hardware queue, and does not poll once the buffer is full; it returns
    [-FI_EAGAIN] only when it was asked for an entry and found none. *)
Theorem read_hard_available (K : usdf_consts) (fmt : fi_cq_format)
    (count : nat) (cq : usdf_cq) (good : list usd_completion)
    (rest : hw_queue) :
  entry_len_known fmt = true ->
  sticky_set cq = false ->
  Forall succeeded good ->
  let r := usdf_cq_read_common K fmt count cq
             (map Some good ++ None :: rest) in
  buf r = map (hard_record K fmt) (take count good) /\
  map entry_context (buf r) = map uc_context (take count good) /\
  ret r = (if nonempty (take count good)
           then Val (Z.of_nat (Nat.min count (length good)))
           else if Nat.eqb count 0 then Val 0 else Err FI_EAGAIN) /\
  world r = (if (count <=? length good)%nat
             then map Some (drop count good) ++ None :: rest
             else rest) /\
  sticky_set (cq_after r) = false.
Proof. exact (read_hard_run K fmt count cq good rest). Qed.

Lemma read_hard_available_witness :
  let good := [sample_comp USD_COMPTYPE_SEND USD_COMPSTAT_SUCCESS 1 10;
               sample_comp USD_COMPTYPE_SEND USD_COMPSTAT_SUCCESS 2 20;
               sample_comp USD_COMPTYPE_SEND USD_COMPSTAT_SUCCESS 3 30] in
  let r := usdf_cq_read_common sample_consts FI_CQ_FORMAT_MSG 4
             (sample_hard_cq FI_CQ_FORMAT_MSG 4 77)
             (map Some good ++ [None]) in
  ret r = Val 3 /\ map entry_context (buf r) = [1; 2; 3].
Proof.
  intros good.
  destruct (read_hard_available sample_consts FI_CQ_FORMAT_MSG 4
              (sample_hard_cq FI_CQ_FORMAT_MSG 4 77) good [])
    as (_ & Hctx & Hret & _).
  - reflexivity.
  - reflexivity.
  - repeat constructor.
  - split; [exact Hret | exact Hctx].
Defined.

(** X8.  After a hard-mode read has met a failed completion first, further
    reads return [-FI_EAVAIL] without polling, however often they are
    called.  The error-read then reports the context of the failed
    completion with the provider error code of its status, and clears the
    slot: a second error-read returns [-FI_EAGAIN], and the next read
    returns the completions that were waiting behind the failed one. *)
Theorem error_readerr_resume (K : usdf_consts) (fmt : fi_cq_format)
    (count : nat) (cq : usdf_cq) (bad : usd_completion)
    (good : list usd_completion) (rest : hw_queue) :
  entry_len_known fmt = true ->
  sticky_set cq = false ->
  comp_failed bad = true ->
  Forall succeeded good ->
  (0 < count)%nat ->
  let r1 := usdf_cq_read_common K fmt count cq
              (Some bad :: map Some good ++ None :: rest) in
  ret r1 = Err FI_EAVAIL /\ buf r1 = [] /\
  usdf_cq_read_common K fmt count (cq_after r1) (world r1) =
    {| ret := Err FI_EAVAIL; buf := []; cq_after := cq_after r1;
       world := world r1; slept := [] |} /\
  exists e cq2,
    usdf_cq_readerr K (cq_after r1) = (Val 1, Some e, cq2) /\
    err_op_context e = uc_context bad /\
    err_prov_errno e = status_errno K (uc_status bad) /\
    err_err e = errno_val K FI_EIO /\
    usdf_cq_readerr K cq2 = (Err FI_EAGAIN, None, cq2) /\
    buf (usdf_cq_read_common K fmt count cq2 (world r1)) =
      map (hard_record K fmt) (take count good).
Proof.
  intros Hfmt Hst Hbad Hgood Hcount r1.
  assert (r1 = {| ret := Err FI_EAVAIL; buf := [];
                  cq_after := set_cq_comp bad cq;
                  world := map Some good ++ None :: rest; slept := [] |})
    as ->.
  { subst r1. unfold usdf_cq_read_common. rewrite Hst, Hfmt. cbn [negb].
    destruct count as [| n]; [lia |].
    now apply read_loop_error_first. }
  cbn [ret buf cq_after world].
  assert (sticky_set (set_cq_comp bad cq) = true) as Hset by exact Hbad.
  split; [reflexivity |]. split; [reflexivity |].
  split; [now apply read_keeps_sticky |].
  unfold usdf_cq_readerr. cbn [cq_comp set_cq_comp].
  unfold comp_failed in Hbad.
  destruct (Z.eqb_spec (status_code (uc_status bad)) 0); [discriminate |].
  eexists. eexists. split; [reflexivity |].
  cbn [err_op_context err_prov_errno err_err cq_comp set_cq_comp uc_status
         set_uc_status status_code Z.eqb].
  split; [reflexivity |]. split; [reflexivity |]. split; [reflexivity |].
  split; [reflexivity |].
  apply read_hard_run; auto.
Qed.

Lemma error_readerr_resume_witness :
  let bad := sample_comp USD_COMPTYPE_RECV USD_COMPSTAT_ERROR_TRUNC 9 64 in
  let good := [sample_comp USD_COMPTYPE_SEND USD_COMPSTAT_SUCCESS 1 10] in
  let r1 := usdf_cq_read_common sample_consts FI_CQ_FORMAT_MSG 4
              (sample_hard_cq FI_CQ_FORMAT_MSG 4 77)
              (Some bad :: map Some good ++ [None]) in
  ret r1 = Err FI_EAVAIL /\
  exists e cq2,
    usdf_cq_readerr sample_consts (cq_after r1) = (Val 1, Some e, cq2) /\
    err_op_context e = 9 /\ err_prov_errno e = 261.
Proof.
  intros bad good.
  destruct (error_readerr_resume sample_consts FI_CQ_FORMAT_MSG 4
              (sample_hard_cq FI_CQ_FORMAT_MSG 4 77) bad good [])
    as (Hret & _ & _ & e & cq2 & Herr & Hctx & Hcode & _).
  - reflexivity.
  - reflexivity.
  - reflexivity.
  - repeat constructor.
  - lia.
  - split; [exact Hret |]. exists e, cq2.
    split; [exact Herr |]. split; [exact Hctx | exact Hcode].
Defined.

(** ** Blocking reads return *)

Lemma total_slept_snoc (sl : list Z) (s : Z) :
  total_slept (sl ++ [s]) = total_slept sl + s.
Proof.
  unfold total_slept. induction sl as [| x sl IH]; simpl; [lia |].
  rewrite IH. lia.
Qed.

(** The product of two [int]s is exact when it is an [int]. *)
Lemma int_mul_exact (a b : Z) :
  - 2 ^ 31 <= a * b < 2 ^ 31 -> int_mul a b = a * b.
Proof.
  intros H. unfold int_mul. rewrite Z.mod_small; lia.
Qed.

(** The deadline of a timeout whose product with [1000] is an [int]. *)
Lemma deadline_exact (timeout_ms : Z) :
  0 <= timeout_ms -> 1000 * timeout_ms < 2 ^ 31 ->
  wrap64 (int_mul 1000 timeout_ms) = 1000 * timeout_ms.
Proof.
  intros H0 Hint. rewrite int_mul_exact by lia. apply wrap64_small. lia.
Qed.

Lemma deadline_passed_true (timeout_ms t : Z) :
  0 <= timeout_ms -> 1000 * timeout_ms < 2 ^ 31 ->
  deadline_passed timeout_ms t = true -> 1000 * timeout_ms <= t.
Proof.
  unfold deadline_passed. intros Htm Hint H.
  rewrite (deadline_exact _ Htm Hint) in H.
  apply andb_prop in H as [_ H]. now apply Z.leb_le.
Qed.

Lemma deadline_passed_false (timeout_ms t : Z) :
  0 <= timeout_ms -> 1000 * timeout_ms < 2 ^ 31 ->
  deadline_passed timeout_ms t = false ->
  t < 1000 * timeout_ms.
Proof.
  unfold deadline_passed. intros Htm Hint H.
  rewrite (deadline_exact _ Htm Hint) in H.
  destruct (Z.leb_spec 0 timeout_ms); [| lia].
  destruct (Z.leb_spec (1000 * timeout_ms) t); [discriminate | lia].
Qed.

Lemma next_sleep_floor (K : usdf_consts) (s : Z) :
  backoff_consts_ok K ->
  SREAD_INIT_SLEEP_TIME_US K <= s <= SREAD_MAX_SLEEP_TIME_US K ->
  SREAD_INIT_SLEEP_TIME_US K <= next_sleep K s <= SREAD_MAX_SLEEP_TIME_US K.
Proof.
  intros HK Hs. pose proof HK as (Hinit & Hbase & Hfit).
  destruct (next_sleep_spec K s HK) as [Hnext Hrange]; [lia |].
  split; [| lia]. rewrite Hnext. nia.
Qed.

Section BoundedWait.

Variable K : usdf_consts.
Variable fmt : fi_cq_format.
Variable timeout_ms : Z.
Hypothesis HK : backoff_consts_ok K.
Hypothesis Hinit : 1 <= SREAD_INIT_SLEEP_TIME_US K.
Hypothesis Htimeout : 0 <= timeout_ms.

(** The product [1000 * timeout_ms] is an [int], which it is up to a
    timeout of [2147483] milliseconds. *)
Hypothesis Hint : 1000 * timeout_ms < 2 ^ 31.
Hypothesis Hfit : 1000 * timeout_ms + SREAD_MAX_SLEEP_TIME_US K < 2 ^ 64.

(** The hard blocking loop returns within one turn for each record that fits
    and each microsecond left of the timeout; it has then slept less than
    the timeout and one maximum quantum, and it returns [-FI_EAGAIN] only
    with the timeout used up. *)
Lemma sread_loop_returns :
  forall (fuel n m : nat) (cq : usdf_cq) (hw : hw_queue) (b : list cq_entry)
         (s t : Z) (sl : list Z),
    SREAD_INIT_SLEEP_TIME_US K <= s <= SREAD_MAX_SLEEP_TIME_US K ->
    t = total_slept sl ->
    0 <= t < 1000 * timeout_ms + SREAD_MAX_SLEEP_TIME_US K ->
    1000 * timeout_ms - t <= Z.of_nat m ->
    (n + m < fuel)%nat ->
    exists r,
      usdf_cq_sread_loop K fmt timeout_ms fuel n cq hw b s t sl = Some r /\
      total_slept (slept r) < 1000 * timeout_ms + SREAD_MAX_SLEEP_TIME_US K /\
      (n <> O \/ nonempty b = true -> ret r = Err FI_EAGAIN ->
       1000 * timeout_ms <= total_slept (slept r)).
Proof.
  induction fuel as [| fuel IH]; intros n m cq hw b s t sl Hs Ht Hrange Hm
    Hfuel; [lia |].
  assert (forall x : run hw_queue,
            slept x = sl ->
            (n <> O \/ nonempty b = true -> ret x = Err FI_EAGAIN ->
             1000 * timeout_ms <= t) ->
            exists r,
              Some x = Some r /\
              total_slept (slept r)
                < 1000 * timeout_ms + SREAD_MAX_SLEEP_TIME_US K /\
              (n <> O \/ nonempty b = true -> ret r = Err FI_EAGAIN ->
               1000 * timeout_ms <= total_slept (slept r))) as Hdone.
  { intros x Hsl Hret. exists x. rewrite Hsl, <- Ht.
    split; [reflexivity |]. split; [lia | exact Hret]. }
  simpl. destruct n as [| n].
  - apply Hdone; [reflexivity |]. simpl.
    intros [Hn | Hb]; [congruence |]. rewrite Hb. discriminate.
  - destruct (usd_poll_cq hw) as [[c |] hw'].
    + destruct (comp_failed c).
      * destruct (nonempty b); (apply Hdone; [reflexivity |]); simpl;
          discriminate.
      * destruct (copy_cq_entry_cases K c fmt) as [[e He] | He]; rewrite He.
        -- destruct (IH n m (set_cq_comp c cq) hw' (b ++ [e]) s t sl Hs Ht
                       Hrange Hm ltac:(lia)) as (r & Hr & Hsl & Hret).
           exists r. split; [exact Hr |]. split; [exact Hsl |].
           intros _. apply Hret. right. apply nonempty_snoc.
        -- apply Hdone; [reflexivity |]. simpl. discriminate.
    + destruct (nonempty b) eqn:Hb.
      * apply Hdone; [reflexivity |]. simpl. discriminate.
      * destruct (deadline_passed timeout_ms t) eqn:Hd.
        -- apply Hdone; [reflexivity |]. simpl. intros _ _.
           now apply deadline_passed_true.
        -- pose proof (deadline_passed_false _ _ Htimeout Hint Hd) as Hlt.
           pose proof (next_sleep_floor K s HK Hs) as Hs'.
           assert (wrap64 (t + s) = t + s) as Hw
             by (apply wrap64_small; lia).
           destruct m as [| m]; [lia |].
           destruct (IH (S n) m cq hw' b (next_sleep K s) (wrap64 (t + s))
                       (sl ++ [s]) Hs') as (r & Hr & Hsl & Hret).
           ++ rewrite Hw, total_slept_snoc. lia.
           ++ rewrite Hw. lia.
           ++ rewrite Hw. lia.
           ++ lia.
           ++ exists r. split; [exact Hr |]. split; [exact Hsl |].
              intros _. apply Hret. left. discriminate.
Qed.

Variable env : Type.
Variable usdf_domain_progress : env -> usdf_cq -> env * usdf_cq.

(** The same for the soft blocking loop, one turn for each microsecond left
    of the timeout. *)
Lemma sread_soft_loop_returns :
  forall (fuel m count : nat) (cq : usdf_cq) (w : env) (s t : Z)
         (sl : list Z),
    SREAD_INIT_SLEEP_TIME_US K <= s <= SREAD_MAX_SLEEP_TIME_US K ->
    t = total_slept sl ->
    0 <= t < 1000 * timeout_ms + SREAD_MAX_SLEEP_TIME_US K ->
    1000 * timeout_ms - t <= Z.of_nat m ->
    (m < fuel)%nat ->
    exists r,
      usdf_cq_sread_soft_loop usdf_domain_progress K fmt timeout_ms fuel
        count cq w s t sl = Some r /\
      total_slept (slept r) < 1000 * timeout_ms + SREAD_MAX_SLEEP_TIME_US K /\
      (ret r = Err FI_EAGAIN ->
       1000 * timeout_ms <= total_slept (slept r)).
Proof.
  induction fuel as [| fuel IH]; intros m count cq w s t sl Hs Ht Hrange Hm
    Hfuel; [lia |].
  assert (forall x : run env,
            slept x = sl ->
            (ret x = Err FI_EAGAIN -> 1000 * timeout_ms <= t) ->
            exists r,
              Some x = Some r /\
              total_slept (slept r)
                < 1000 * timeout_ms + SREAD_MAX_SLEEP_TIME_US K /\
              (ret r = Err FI_EAGAIN ->
               1000 * timeout_ms <= total_slept (slept r))) as Hdone.
  { intros x Hsl Hret. exists x. rewrite Hsl, <- Ht.
    split; [reflexivity |]. split; [lia | exact Hret]. }
  simpl. destruct (usdf_domain_progress w cq) as [w1 cq1].
  destruct (soft_scan fmt count cq1 (cq_tail cq1) [])
    as [[[tail | r'] b] cq2] eqn:Hscan.
  - destruct (nonempty b).
    + apply Hdone; [reflexivity |]. simpl. discriminate.
    + destruct (deadline_passed timeout_ms t) eqn:Hd.
      * apply Hdone; [reflexivity |]. simpl. intros _.
        now apply deadline_passed_true.
      * pose proof (deadline_passed_false _ _ Htimeout Hint Hd) as Hlt.
        pose proof (next_sleep_floor K s HK Hs) as Hs'.
        assert (wrap64 (t + s) = t + s) as Hw by (apply wrap64_small; lia).
        destruct m as [| m]; [lia |].
        apply (IH m count cq2 w1 (next_sleep K s) (wrap64 (t + s))
                 (sl ++ [s]) Hs'); rewrite ?Hw, ?total_slept_snoc; lia.
  - apply Hdone; [reflexivity |]. simpl. intros Hr. exfalso.
    destruct (soft_scan_outcome fmt _ _ _ _ _ _ _ Hscan) as (Hne & _).
    now apply (Hne r' eq_refl).
Qed.

(** X9.  A hard-mode blocking read with a timeout that is not negative and
    whose product with [1000] is an [int] returns: within one turn of its
    loop for each record asked for and each microsecond of the timeout.  It
    has then slept for less than the timeout and one maximum quantum, and
    when asked for at least one entry it returns [-FI_EAGAIN] only with the
    whole timeout slept. *)
Theorem sread_returns_in_time (count : nat) (cq : usdf_cq) (hw : hw_queue) :
  exists r,
    usdf_cq_sread_common K fmt timeout_ms
      (S (count + Z.to_nat (1000 * timeout_ms))) count cq hw = Some r /\
    total_slept (slept r) < 1000 * timeout_ms + SREAD_MAX_SLEEP_TIME_US K /\
    (count <> O -> ret r = Err FI_EAGAIN ->
     1000 * timeout_ms <= total_slept (slept r)).
Proof.
  pose proof HK as (Hi & _).
  unfold usdf_cq_sread_common.
  destruct (sticky_set cq).
  { eexists. split; [reflexivity |]. simpl. split; [lia | discriminate]. }
  destruct (entry_len_known fmt).
  - cbn [negb].
    destruct (sread_loop_returns (S (count + Z.to_nat (1000 * timeout_ms)))
                count (Z.to_nat (1000 * timeout_ms)) cq hw []
                (SREAD_INIT_SLEEP_TIME_US K) 0 [])
      as (r & Hr & Hsl & Hret); try reflexivity; try lia.
    exists r. split; [exact Hr |]. split; [exact Hsl |]. auto.
  - eexists. split; [reflexivity |]. simpl. split; [lia | discriminate].
Qed.

(** X10.  A soft-mode blocking read with a timeout that is not negative and
    whose product with [1000] is an [int] returns within one turn of its
    loop for each microsecond of the timeout, whatever the progress sweeps
    do.  It has then slept for less than the timeout and one maximum
    quantum, and it returns [-FI_EAGAIN] only with the whole timeout
    slept. *)
Theorem sread_soft_returns_in_time (count : nat) (cq : usdf_cq) (w : env) :
  exists r,
    usdf_cq_sread_common_soft usdf_domain_progress K fmt timeout_ms
      (S (Z.to_nat (1000 * timeout_ms))) count cq w = Some r /\
    total_slept (slept r) < 1000 * timeout_ms + SREAD_MAX_SLEEP_TIME_US K /\
    (ret r = Err FI_EAGAIN -> 1000 * timeout_ms <= total_slept (slept r)).
Proof.
  pose proof HK as (Hi & _).
  unfold usdf_cq_sread_common_soft.
  destruct (entry_len_known fmt).
  - cbn [negb].
    apply (sread_soft_loop_returns (S (Z.to_nat (1000 * timeout_ms)))
             (Z.to_nat (1000 * timeout_ms)));
      try reflexivity; lia.
  - eexists. split; [reflexivity |]. simpl. split; [lia | discriminate].
Qed.

End BoundedWait.

Lemma sread_returns_in_time_witness :
  exists r,
    usdf_cq_sread_common sample_consts FI_CQ_FORMAT_MSG 1 1005 4
      (sample_hard_cq FI_CQ_FORMAT_MSG 4 77) [] = Some r /\
    total_slept (slept r) < 6000.
Proof.
  destruct (sread_returns_in_time sample_consts FI_CQ_FORMAT_MSG 1
              ltac:(unfold backoff_consts_ok; simpl; lia)
              ltac:(simpl; lia) ltac:(lia) ltac:(lia) ltac:(simpl; lia)
              4%nat (sample_hard_cq FI_CQ_FORMAT_MSG 4 77) [])
    as (r & Hr & Hsl & _).
  exists r. split; [exact Hr | exact Hsl].
Defined.

Lemma sread_soft_returns_in_time_witness :
  exists r,
    usdf_cq_sread_common_soft idle_progress sample_consts FI_CQ_FORMAT_MSG 1
      1001 4 (sample_soft_cq FI_CQ_FORMAT_MSG 4 4096) tt = Some r /\
    total_slept (slept r) < 6000.
Proof.
  destruct (sread_soft_returns_in_time sample_consts FI_CQ_FORMAT_MSG 1
              ltac:(unfold backoff_consts_ok; simpl; lia)
              ltac:(simpl; lia) ltac:(lia) ltac:(lia) ltac:(simpl; lia)
              unit idle_progress 4%nat
              (sample_soft_cq FI_CQ_FORMAT_MSG 4 4096) tt)
    as (r & Hr & Hsl & _).
  exists r. split; [exact Hr | exact Hsl].
Defined.

(** ** Reads that resolve the source address *)

Section ReadFromFacts.

Variable av : Type.
Variable hdr_source : usd_completion -> Z * Z.
Variable fi_av_insert : av -> Z * Z -> av * Z * Z.
Variable FI_ADDR_NOTAVAIL : Z.

Lemma resolve_all_length (l : list usd_completion) (a : av) :
  length (fst (resolve_all hdr_source fi_av_insert FI_ADDR_NOTAVAIL a l)) =
  length (List.filter (fun c => is_recv (uc_type c)) l).
Proof.
  revert a. induction l as [| c l IH]; intros a;
    [reflexivity |].
  simpl. destruct (is_recv (uc_type c)); [| apply IH].
  destruct (fi_av_insert a (hdr_source c)) as [[a' rv] h].
  specialize (IH a').
  destruct (resolve_all hdr_source fi_av_insert FI_ADDR_NOTAVAIL a' l).
  simpl in *. now rewrite IH.
Qed.

(** The loop passes over a run of successful completions, writing one
    record for each and one handle for each receive among them. *)
Lemma readfrom_loop_successes :
  forall (good : list usd_completion) (n : nat) (cq : usdf_cq)
         (hw : hw_queue) (a : av) (b : list cq_entry) (addrs : list Z)
         (r : retval),
    Forall succeeded good ->
    (length good <= n)%nat ->
    exists r',
      (good = [] -> r' = r) /\
      usdf_cq_readfrom_loop hdr_source fi_av_insert FI_ADDR_NOTAVAIL n cq
        (map Some good ++ hw) a b addrs r =
      usdf_cq_readfrom_loop hdr_source fi_av_insert FI_ADDR_NOTAVAIL
        (n - length good) (polled good cq) hw
        (snd (resolve_all hdr_source fi_av_insert FI_ADDR_NOTAVAIL a good))
        (b ++ map (fun c => fi_cq_entry (uc_context c)) good)
        (addrs ++
         fst (resolve_all hdr_source fi_av_insert FI_ADDR_NOTAVAIL a good))
        r'.
Proof.
  induction good as [| c good IH]; intros n cq hw a b addrs r Hgood Hn.
  - exists r. simpl. now rewrite Nat.sub_0_r, !app_nil_r.
  - destruct n as [| n]; [simpl in Hn; lia |].
    inversion Hgood as [| ? ? Hc Hgood']; subst.
    unfold succeeded in Hc. simpl. rewrite Hc.
    destruct (is_recv (uc_type c)).
    + unfold resolved.
      destruct (fi_av_insert a (hdr_source c)) as [[a' rv] h].
      destruct (IH n (set_cq_comp c cq) hw a'
                  (b ++ [fi_cq_entry (uc_context c)])
                  (addrs ++ [if negb (rv =? 1) then FI_ADDR_NOTAVAIL else h])
                  (Val rv) Hgood' ltac:(simpl in Hn; lia))
        as (r' & _ & Hrun).
      exists r'. split; [discriminate |]. rewrite Hrun.
      destruct (resolve_all hdr_source fi_av_insert FI_ADDR_NOTAVAIL a' good).
      simpl. now rewrite <- !app_assoc.
    + destruct (IH n (set_cq_comp c cq) hw a
                  (b ++ [fi_cq_entry (uc_context c)]) addrs (Val 0) Hgood'
                  ltac:(simpl in Hn; lia)) as (r' & _ & Hrun).
      exists r'. split; [discriminate |]. rewrite Hrun.
      now rewrite <- !app_assoc.
Qed.

(** What an address-resolving read leaves on a hardware queue that holds
    the successful completions [good] and then nothing. *)
Lemma readfrom_context_run (count : nat) (cq : usdf_cq)
    (good : list usd_completion) (rest : hw_queue) (a : av) :
  sticky_set cq = false ->
  Forall succeeded good ->
  let r := usdf_cq_readfrom_context hdr_source fi_av_insert FI_ADDR_NOTAVAIL
             count cq (map Some good ++ None :: rest) a in
  let got := take count good in
  ret r = Val (Z.of_nat (length got)) /\
  buf r = map (fun c => fi_cq_entry (uc_context c)) got /\
  snd (world r) =
    fst (resolve_all hdr_source fi_av_insert FI_ADDR_NOTAVAIL a got) /\
  snd (fst (world r)) =
    snd (resolve_all hdr_source fi_av_insert FI_ADDR_NOTAVAIL a got) /\
  length (snd (world r)) =
    length (List.filter (fun c => is_recv (uc_type c)) got) /\
  fst (fst (world r)) = (if (count <=? length good)%nat
                         then map Some (drop count good) ++ None :: rest
                         else rest).
Proof.
  intros Hst Hgood r got. subst r.
  unfold usdf_cq_readfrom_context. rewrite Hst.
  assert (forall n hw' r',
            (got = [] -> r' = Val 0) ->
            n = O \/ fst (usd_poll_cq hw') = None ->
            let res := resolve_all hdr_source fi_av_insert FI_ADDR_NOTAVAIL
                         a got in
            let out :=
              usdf_cq_readfrom_loop hdr_source fi_av_insert FI_ADDR_NOTAVAIL
                n (polled got cq) hw' (snd res)
                ([] ++ map (fun c => fi_cq_entry (uc_context c)) got)
                ([] ++ fst res) r' in
            ret out = Val (Z.of_nat (length got)) /\
            buf out = map (fun c => fi_cq_entry (uc_context c)) got /\
            snd (world out) = fst res /\
            snd (fst (world out)) = snd res /\
            fst (fst (world out)) =
              (if Nat.eqb n 0 then hw' else snd (usd_poll_cq hw'))) as Hend.
  { intros n hw' r' Hr' Hstop res. subst res. cbn [app].
    destruct n as [| n].
    - simpl. rewrite nonempty_map, count_of_map.
      destruct got; [rewrite Hr' by reflexivity |]; auto.
    - destruct Hstop as [Hn | Hnone]; [discriminate |].
      simpl. destruct (usd_poll_cq hw') as [[c |] hw'']; simpl in Hnone;
        [discriminate |].
      simpl. rewrite nonempty_map, count_of_map.
      destruct got; auto. }
  destruct (Nat.leb_spec count (length good)) as [Hle | Hgt].
  - assert (map Some good ++ None :: rest =
            map Some got ++ (map Some (drop count good) ++ None :: rest))
      as Hhw by (subst got; now rewrite app_assoc, <- map_app, take_drop).
    rewrite Hhw.
    destruct (readfrom_loop_successes got count cq
                (map Some (drop count good) ++ None :: rest) a [] []
                (Val 0)) as (r' & Hr' & Hrun);
      [subst got; now apply Forall_take
      | subst got; rewrite length_take; lia |].
    rewrite Hrun.
    replace (count - length got)%nat with O
      by (subst got; rewrite length_take; lia).
    destruct (Hend O (map Some (drop count good) ++ None :: rest) r' Hr'
                (or_introl eq_refl)) as (H1 & H2 & H3 & H4 & H5).
    rewrite H1, H2, H3, H4, H5, resolve_all_length.
    repeat split; reflexivity.
  - assert (got = good) as Hgot by (subst got; apply take_ge; lia).
    destruct (readfrom_loop_successes good count cq (None :: rest) a [] []
                (Val 0) Hgood ltac:(lia)) as (r' & Hr' & Hrun).
    rewrite Hrun, <- Hgot.
    destruct (Hend (count - length good)%nat (None :: rest) r'
                ltac:(rewrite Hgot; exact Hr')
                (or_intror eq_refl)) as (H1 & H2 & H3 & H4 & H5).
    rewrite Hgot in *.
    rewrite H1, H2, H3, H4, H5, resolve_all_length.
    destruct (count - length good)%nat eqn:Hm; [lia |].
    repeat split; reflexivity.
Qed.

(** X11.  An address-resolving read on a hardware queue that holds the
    successful completions [good] and then nothing returns the number of
    completions it took, [0] when there is none: it never returns
    [-FI_EAGAIN].  It writes one context record for each completion taken,
    in poll order, but one address handle for each receive completion only,
    so that the handles of a batch with send completions in it do not line
    up with the records. *)
Theorem readfrom_available (count : nat) (cq : usdf_cq)
    (good : list usd_completion) (rest : hw_queue) (a : av) :
  sticky_set cq = false ->
  Forall succeeded good ->
  let r := usdf_cq_readfrom_context hdr_source fi_av_insert FI_ADDR_NOTAVAIL
             count cq (map Some good ++ None :: rest) a in
  let got := take count good in
  ret r = Val (Z.of_nat (length got)) /\
  buf r = map (fun c => fi_cq_entry (uc_context c)) got /\
  snd (world r) =
    fst (resolve_all hdr_source fi_av_insert FI_ADDR_NOTAVAIL a got) /\
  snd (fst (world r)) =
    snd (resolve_all hdr_source fi_av_insert FI_ADDR_NOTAVAIL a got) /\
  length (snd (world r)) =
    length (List.filter (fun c => is_recv (uc_type c)) got) /\
  fst (fst (world r)) = (if (count <=? length good)%nat
                         then map Some (drop count good) ++ None :: rest
                         else rest).
Proof. exact (readfrom_context_run count cq good rest a). Qed.

(** X12.  On a queue that [usdf_cq_make_soft] has promoted, the soft-mode
    address-resolving read does not poll the hardware queue the queue was
    bound to, which the binding now holds, but the address of the ring.
    With no error pending and at least one record asked for, the call has
    no defined result when the ring is not at the address of a hardware
    queue, whatever waits in the bound one; and when it is, the call takes
    what the queue at that address holds and leaves the bound one as it
    was. *)
Theorem readfrom_soft_polls_ring (cq : usdf_cq) (p q : Z)
    (plan live0 : list Z) (dev : device) (hw : hw_queue) (count : nat)
    (a : av) :
  hard_ops_of (format (cq_attr cq)) = Some (cq_ops cq) ->
  cq_cq cq <> 0 -> p <> 0 -> q <> 0 -> p <> cq_cq cq ->
  sticky_set cq = false ->
  let ucq := cq_cq cq in
  let '(r, cq', _) :=
    usdf_cq_make_soft cq {| alloc_plan := p :: q :: plan; live := live0 |} in
  let out := usdf_cq_readfrom_context_soft hdr_source fi_av_insert
               FI_ADDR_NOTAVAIL count cq' (dev_set ucq hw dev) a in
  r = Val 0 /\ usdf_cq_is_soft cq' = true /\
  map cqh_ucq (cq_list cq') = [ucq] /\
  cq_comps cq' = p /\
  (count <> O -> dev p = None -> out = None) /\
  (forall hwp,
     dev p = Some hwp ->
     let hard := usdf_cq_readfrom_context hdr_source fi_av_insert
                   FI_ADDR_NOTAVAIL count cq' hwp a in
     exists x,
       out = Some x /\ ret x = ret hard /\ buf x = buf hard /\
       cq_after x = cq_after hard /\
       fst (fst (world x)) ucq = Some hw /\
       (count <> O -> fst (fst (world x)) p = Some (fst (fst (world hard))))).
Proof.
  intros Hops Hucq Hp Hq Hne Hst ucq. subst ucq.
  unfold usdf_cq_make_soft. rewrite Hops.
  assert (exists so, soft_ops_of (format (cq_attr cq)) = Some so /\
                     fi_ops_cq_eqb so so = true /\
                     forall c, cq_attr c = cq_attr cq -> cq_ops c = so ->
                               usdf_cq_is_soft c = true)
    as (so & Hso & _ & Hsoft).
  { unfold usdf_cq_is_soft.
    destruct (format (cq_attr cq)) eqn:Hf; try discriminate; eexists;
      (split; [reflexivity |]); (split; [reflexivity |]);
      intros c Ha Ho; rewrite Ha, Hf, Ho; reflexivity. }
  rewrite Hso.
  assert (fi_ops_cq_eqb (cq_ops cq) (cq_ops cq) = true) as ->
    by now apply fi_ops_cq_eqb_eq.
  unfold alloc. cbn [alloc_plan live].
  destruct (Z.eqb_spec p 0); [contradiction |].
  destruct (Z.eqb_spec q 0); [contradiction |].
  destruct (Z.eqb_spec (cq_cq cq) 0); [contradiction |]. cbn [negb].
  set (cq' := set_cq_ops so _).
  assert (cq_cq cq' = p) as Hword by reflexivity.
  assert (sticky_set cq' = false) as Hst' by exact Hst.
  split; [reflexivity |].
  split; [apply Hsoft; reflexivity |].
  split; [reflexivity |]. split; [reflexivity |].
  assert (dev_set (cq_cq cq) hw dev p = dev p) as Hat.
  { unfold dev_set. destruct (Z.eqb_spec p (cq_cq cq)); [contradiction |].
    reflexivity. }
  assert (dev_set (cq_cq cq) hw dev (cq_cq cq) = Some hw) as Hbound
    by (unfold dev_set; now rewrite Z.eqb_refl).
  unfold usdf_cq_readfrom_context_soft, usdf_cq_readfrom_context.
  rewrite Hst', Hword, Hat.
  split.
  - intros Hc Hnone. destruct count as [| k]; [congruence |].
    now rewrite Hnone.
  - intros hwp Hsome. rewrite Hsome.
    destruct count as [| k].
    + eexists. split; [reflexivity |]. cbn.
      repeat split; try reflexivity; [exact Hbound | congruence].
    + destruct (usdf_cq_readfrom_loop hdr_source fi_av_insert
                  FI_ADDR_NOTAVAIL (S k) cq' hwp a [] [] (Val 0))
        as [r0 b0 c0 [[hw0 a0] ad0] s0].
      cbn [world ret buf cq_after]. eexists. split; [reflexivity |].
      cbn [world ret buf cq_after fst snd].
      repeat split; try reflexivity.
      * unfold dev_set at 1.
        destruct (Z.eqb_spec (cq_cq cq) p); [congruence | exact Hbound].
      * intros _. unfold dev_set at 1. now rewrite Z.eqb_refl.
Qed.

End ReadFromFacts.

Lemma readfrom_available_witness :
  let good := [sample_comp USD_COMPTYPE_SEND USD_COMPSTAT_SUCCESS 1 10;
               sample_comp USD_COMPTYPE_RECV USD_COMPSTAT_SUCCESS 2 64;
               sample_comp USD_COMPTYPE_RECV USD_COMPSTAT_SUCCESS 3 0] in
  let r := usdf_cq_readfrom_context sample_hdr_source sample_av_insert
             (2 ^ 64 - 1) 4 (sample_hard_cq FI_CQ_FORMAT_CONTEXT 4 77)
             (map Some good ++ [None]) 0 in
  ret r = Val 3 /\ length (buf r) = 3%nat /\
  snd (world r) = [100; 2 ^ 64 - 1].
Proof.
  intros good.
  destruct (readfrom_available Z sample_hdr_source sample_av_insert
              (2 ^ 64 - 1) 4 (sample_hard_cq FI_CQ_FORMAT_CONTEXT 4 77)
              good [] 0) as (Hret & Hbuf & Haddr & _).
  - reflexivity.
  - repeat constructor.
  - split; [exact Hret |]. split; [now rewrite Hbuf | exact Haddr].
Defined.

Lemma readfrom_soft_polls_ring_witness :
  let waiting := [Some (sample_comp USD_COMPTYPE_SEND USD_COMPSTAT_SUCCESS
                          1 10); None] in
  let '(r, cq', _) :=
    usdf_cq_make_soft (sample_hard_cq FI_CQ_FORMAT_CONTEXT 4 77)
      {| alloc_plan := [4096; 8192]; live := [] |} in
  r = Val 0 /\ map cqh_ucq (cq_list cq') = [77] /\ cq_comps cq' = 4096 /\
  usdf_cq_readfrom_context_soft sample_hdr_source sample_av_insert
    (2 ^ 64 - 1) 1 cq' (dev_set 77 waiting (fun _ => None)) 0 = None.
Proof.
  intros waiting.
  pose proof (readfrom_soft_polls_ring Z sample_hdr_source sample_av_insert
                (2 ^ 64 - 1) (sample_hard_cq FI_CQ_FORMAT_CONTEXT 4 77)
                4096 8192 [] [] (fun _ => None) waiting 1 0 eq_refl
                ltac:(simpl; lia) ltac:(lia) ltac:(lia) ltac:(simpl; lia)
                eq_refl) as H.
  cbv zeta in H.
  destruct (usdf_cq_make_soft (sample_hard_cq FI_CQ_FORMAT_CONTEXT 4 77)
              {| alloc_plan := [4096; 8192]; live := [] |})
    as [[r cq'] h'].
  destruct H as (Hr & _ & Hlist & Hcomps & Hnone & _).
  split; [exact Hr |]. split; [exact Hlist |]. split; [exact Hcomps |].
  apply Hnone; [discriminate | reflexivity].
Defined.

(** ** Error strings *)

Lemma insert_take_last {A : Type} (m : nat) (l : list A) (x : A) :
  (m < length l)%nat -> <[m := x]> (take (S m) l) = take m l ++ [x].
Proof.
  revert l. induction m as [| m IH]; intros l Hm;
    (destruct l as [| y l]; [simpl in Hm; lia |]).
  - reflexivity.
  - simpl in *. f_equal. apply IH. lia.
Qed.

Lemma c_string_app_zero (l t : list Z) :
  Forall (fun c => c <> 0) l -> c_string (l ++ 0 :: t) = l.
Proof.
  induction 1 as [| c l Hc _ IH]; [reflexivity |]. simpl.
  destruct (Z.eqb_spec c 0); [contradiction |]. now rewrite IH.
Qed.

Lemma strerror_buffer (msg dst : list Z) (m : nat) :
  (S m <= length dst)%nat ->
  <[m := 0]> (strncpy dst msg (S m)) =
  take m (msg ++ replicate (S m - length msg) 0) ++ 0 :: drop (S m) dst.
Proof.
  intros Hdst. unfold strncpy.
  assert (S m <= length (msg ++ replicate (S m - length msg) 0%Z))%nat
    as Hlen
    by (rewrite length_app, length_replicate; lia).
  rewrite insert_app_l by (rewrite length_take; lia).
  rewrite insert_take_last by lia.
  now rewrite <- app_assoc.
Qed.

(** X13.  With a buffer of [len > 0] bytes [usdf_cq_strerror] returns the
    buffer holding the error string cut to [len - 1] characters and
    terminated by a zero: the whole string when it is shorter than [len].
    The bytes of the buffer behind the first [len] are not written.
    Without a buffer, or with [len = 0], the static string is returned. *)
Theorem strerror_truncates (fi_strerror : Z -> list Z) (prov_errno : Z)
    (dst : list Z) (len : nat) :
  (0 < len <= length dst)%nat ->
  Forall (fun c => c <> 0) (fi_strerror prov_errno) ->
  exists out,
    usdf_cq_strerror fi_strerror prov_errno (Some dst) len = InBuffer out /\
    c_string out = take (len - 1) (fi_strerror prov_errno) /\
    ((length (fi_strerror prov_errno) < len)%nat ->
     c_string out = fi_strerror prov_errno) /\
    out !! (len - 1)%nat = Some 0 /\
    length out = length dst /\
    drop len out = drop len dst /\
    usdf_cq_strerror fi_strerror prov_errno None len
      = StaticString (fi_strerror prov_errno) /\
    usdf_cq_strerror fi_strerror prov_errno (Some dst) 0
      = StaticString (fi_strerror prov_errno).
Proof.
  intros [Hpos Hlen] Hmsg. destruct len as [| m]; [lia |].
  set (msg := fi_strerror prov_errno) in *.
  unfold usdf_cq_strerror. fold msg.
  rewrite (strerror_buffer msg dst m Hlen).
  eexists. split; [reflexivity |].
  replace (S m - 1)%nat with m by lia.
  assert (length (take m (msg ++ replicate (S m - length msg) 0)) = m)
    as Hpre.
  { rewrite length_take, length_app, length_replicate. lia. }
  assert (c_string (take m (msg ++ replicate (S m - length msg) 0)
                      ++ 0 :: drop (S m) dst) = take m msg) as Hstr.
  { destruct (Nat.le_gt_cases m (length msg)) as [Hle | Hgt].
    - rewrite take_app_le by lia.
      apply c_string_app_zero. now apply Forall_take.
    - rewrite take_app_ge by lia. rewrite take_replicate.
      rewrite (take_ge msg) by lia.
      rewrite <- app_assoc.
      destruct ((m - length msg) `min` (S m - length msg))%nat;
        apply c_string_app_zero; assumption. }
  split; [exact Hstr |].
  split; [intros Hshort; rewrite Hstr; apply take_ge; lia |].
  split; [| split; [| split; [| split; [destruct dst |]]]]; try reflexivity.
  - rewrite lookup_app_r by lia. now rewrite Hpre, Nat.sub_diag.
  - rewrite length_app, Hpre. simpl. rewrite length_drop. lia.
  - change (0 :: drop (S m) dst) with ([0] ++ drop (S m) dst).
    rewrite app_assoc. apply drop_app_length'.
    rewrite length_app, Hpre. simpl. lia.
Qed.

Lemma strerror_truncates_witness :
  exists out,
    usdf_cq_strerror (fun _ => [73; 47; 79; 32; 101; 114; 114]) 5
      (Some [1; 1; 1; 1; 1; 1]) 4 = InBuffer out /\
    c_string out = [73; 47; 79] /\ drop 4 out = [1; 1].
Proof.
  destruct (strerror_truncates (fun _ => [73; 47; 79; 32; 101; 114; 114]) 5
              [1; 1; 1; 1; 1; 1] 4)
    as (out & Hrun & Hstr & _ & _ & _ & Hdrop & _).
  - simpl. lia.
  - repeat constructor; discriminate.
  - exists out. split; [exact Hrun |]. split; [exact Hstr | exact Hdrop].
Defined.

(** ** The operation table of a queue *)

Lemma make_soft_step (cq : usdf_cq) (h : heap) (f : fi_cq_format) :
  format (cq_attr cq) = f ->
  hard_ops_of f = Some (cq_ops cq) \/ soft_ops_of f = Some (cq_ops cq) ->
  let '(r, cq', h') := usdf_cq_make_soft cq h in
  cq_attr cq' = cq_attr cq /\
  (hard_ops_of f = Some (cq_ops cq') \/ soft_ops_of f = Some (cq_ops cq')) /\
  (usdf_cq_is_soft cq = true -> usdf_cq_is_soft cq' = true /\ r = Val 0) /\
  (r = Val 0 <-> usdf_cq_is_soft cq' = true) /\
  (r = Val 0 \/ r = Err FI_ENOMEM).
Proof.
  intros Hf Hops. unfold usdf_cq_make_soft, usdf_cq_is_soft. rewrite Hf.
  destruct f; cbn [hard_ops_of soft_ops_of] in *;
    try (destruct Hops; discriminate);
    (destruct Hops as [Hops | Hops]; injection Hops as Hops;
     rewrite <- Hops; cbn [fi_ops_cq_eqb];
     [destruct (alloc h) as [comps h1]; destruct (comps =? 0);
      [| destruct (negb (cq_cq cq =? 0));
         [destruct (alloc h1) as [hcq h2]; destruct (hcq =? 0) |]]
     |];
     cbn; rewrite ?Hf; cbn; rewrite <- ?Hops; cbn;
     repeat split; intros;
     first [discriminate | congruence | left; congruence
           | right; congruence | auto]).
Qed.

(** X14.  However often a queue is promoted after [usdf_cq_open] created
    it, with allocations that succeed or fail, its attributes keep the
    format it was opened with and its table holds the readers of that
    format: the hard ones until a promotion succeeds and the soft ones from
    then on, a soft queue never becoming hard again.  The address-resolving
    read is in the table for the context format only. *)
Theorem table_follows_format (uda_max_cqe : Z) (attr : fi_cq_attr)
    (h h2 : heap) (cq : usdf_cq) (n : nat) :
  open_cq (usdf_cq_open uda_max_cqe attr h) = Some cq ->
  let f := format (open_attr (usdf_cq_open uda_max_cqe attr h)) in
  let '(rs, cq2, _) := make_soft_times n cq h2 in
  let soft := usdf_cq_is_soft cq2 in
  format (cq_attr cq2) = f /\
  ops_read (cq_ops cq2) = Some (if soft then read_soft f else read_hard f) /\
  ops_readerr (cq_ops cq2) =
    Some (if soft then usdf_cq_readerr_soft_entry
          else usdf_cq_readerr_entry) /\
  ops_readfrom (cq_ops cq2) =
    Some (match f with
          | FI_CQ_FORMAT_CONTEXT =>
              if soft then usdf_cq_readfrom_context_soft_entry
              else usdf_cq_readfrom_context_entry
          | _ => fi_no_cq_readfrom
          end) /\
  (soft = true <-> In (Val 0) rs) /\
  Forall (fun r => r = Val 0 \/ r = Err FI_ENOMEM) rs.
Proof.
  intros Hopen f.
  assert (format (cq_attr cq) = f /\
          hard_ops_of f = Some (cq_ops cq) /\ usdf_cq_is_soft cq = false)
    as (Hf & Hops & Hhard).
  { subst f. revert Hopen. unfold usdf_cq_open.
    destruct (usdf_cq_process_attr attr uda_max_cqe) as [[[| |] | e] attr'];
      try discriminate.
    destruct (alloc h) as [p h1]. destruct (p =? 0); [discriminate |].
    destruct (hard_ops_of (format attr')) as [ops |] eqn:Hops;
      [| discriminate].
    cbn. intros Hcq. injection Hcq as <-. cbn.
    split; [reflexivity |]. split; [exact Hops |].
    unfold usdf_cq_is_soft. cbn.
    destruct (format attr'); try discriminate; injection Hops as <-;
      reflexivity. }
  clearbody f. clear Hopen.
  assert (forall cq0 h0,
            format (cq_attr cq0) = f ->
            hard_ops_of f = Some (cq_ops cq0) \/
            soft_ops_of f = Some (cq_ops cq0) ->
            let '(rs, cq2, _) := make_soft_times n cq0 h0 in
            format (cq_attr cq2) = f /\
            (hard_ops_of f = Some (cq_ops cq2) \/
             soft_ops_of f = Some (cq_ops cq2)) /\
            (usdf_cq_is_soft cq2 = true <->
             usdf_cq_is_soft cq0 = true \/ In (Val 0) rs) /\
            (usdf_cq_is_soft cq0 = true -> Forall (fun r => r = Val 0) rs) /\
            Forall (fun r => r = Val 0 \/ r = Err FI_ENOMEM) rs) as Hrun.
  { induction n as [| n IH]; intros cq0 h0 Hf0 Hops0.
    - cbn. repeat split; auto; intros; tauto.
    - cbn [make_soft_times].
      pose proof (make_soft_step cq0 h0 f Hf0 Hops0) as Hstep.
      destruct (usdf_cq_make_soft cq0 h0) as [[r cq1] h1].
      destruct Hstep as (Hattr & Hops1 & Hkeep & Hiff & Hr).
      specialize (IH cq1 h1 ltac:(congruence) Hops1).
      destruct (make_soft_times n cq1 h1) as [[rs cq2] h3].
      destruct IH as (Hf2 & Hops2 & Hiff2 & Hall & Hrs).
      split; [exact Hf2 |]. split; [exact Hops2 |].
      split; [| split].
      + rewrite Hiff2. cbn [In]. rewrite <- Hiff. split.
        * intros [H1 | H1]; [right; left; exact H1 | tauto].
        * intros [H0 | [H1 | H1]];
            [left; apply Hkeep; exact H0 | left; congruence | tauto].
      + intros H0. destruct (Hkeep H0) as [H1 ->]. constructor; auto.
      + constructor; auto. }
  specialize (Hrun cq h2 Hf (or_introl Hops)).
  destruct (make_soft_times n cq h2) as [[rs cq2] h3].
  destruct Hrun as (Hf2 & Hops2 & Hiff & _ & Hrs).
  rewrite Hhard in Hiff.
  split; [exact Hf2 |].
  assert (usdf_cq_is_soft cq2 = true <-> In (Val 0) rs) as Hsoft
    by (rewrite Hiff; split; [intros [H | H]; [discriminate | exact H]
                             | tauto]).
  split; [| split; [| split; [| split; [exact Hsoft | exact Hrs]]]];
    unfold usdf_cq_is_soft; rewrite Hf2;
    destruct f; cbn [hard_ops_of soft_ops_of] in *;
    try (destruct Hops2; discriminate);
    destruct Hops2 as [Hops2 | Hops2]; injection Hops2 as <-; reflexivity.
Qed.

Lemma table_follows_format_witness :
  let cq := set_cq_attr (sample_attr FI_CQ_FORMAT_MSG 8)
              (set_cq_ops usdf_cq_msg_ops fresh_cq) in
  open_cq (usdf_cq_open 1024 (sample_attr FI_CQ_FORMAT_MSG 8)
             {| alloc_plan := [8192]; live := [] |}) = Some cq /\
  let '(rs, cq2, _) :=
    make_soft_times 3 cq {| alloc_plan := [0; 4096]; live := [] |} in
  format (cq_attr cq2) = FI_CQ_FORMAT_MSG /\
  ops_read (cq_ops cq2) =
    Some (if usdf_cq_is_soft cq2 then read_soft FI_CQ_FORMAT_MSG
          else read_hard FI_CQ_FORMAT_MSG) /\
  ops_readerr (cq_ops cq2) =
    Some (if usdf_cq_is_soft cq2 then usdf_cq_readerr_soft_entry
          else usdf_cq_readerr_entry) /\
  ops_readfrom (cq_ops cq2) = Some fi_no_cq_readfrom /\
  (usdf_cq_is_soft cq2 = true <-> In (Val 0) rs) /\
  Forall (fun r => r = Val 0 \/ r = Err FI_ENOMEM) rs.
Proof.
  split; [reflexivity |].
  exact (table_follows_format 1024 (sample_attr FI_CQ_FORMAT_MSG 8)
           {| alloc_plan := [8192]; live := [] |}
           {| alloc_plan := [0; 4096]; live := [] |}
           (set_cq_attr (sample_attr FI_CQ_FORMAT_MSG 8)
              (set_cq_ops usdf_cq_msg_ops fresh_cq)) 3 eq_refl).
Defined.

(** ** Close after a failed close *)

Lemma close_keeps_mode (cq : usdf_cq) (l : list usdf_cq_hard) :
  usdf_cq_is_soft (set_cq_list l cq) = usdf_cq_is_soft cq.
Proof. reflexivity. Qed.

(** X15.  A soft queue whose close stopped at a binding because
    [usd_destroy_cq] failed on its hardware queue has already lost that
    binding from its list.  A second close, with the other bindings
    released, returns [0] and frees the queue; over the two calls the
    destroy primitive succeeded exactly on the hardware queues of the other
    bindings and exactly their blocks were freed, so the binding the first
    call stopped at is never freed and its hardware queue never destroyed. *)
Theorem close_again_after_destroy_failure (usd_destroy_cq : Z -> Z)
    (cq : usdf_cq) (pre post : list usdf_cq_hard) (hcq : usdf_cq_hard) :
  cq_refcnt cq <= 0 ->
  usdf_cq_is_soft cq = true ->
  cq_list cq = pre ++ hcq :: post ->
  Forall (released usd_destroy_cq) pre ->
  Forall (released usd_destroy_cq) post ->
  cqh_refcnt hcq <= 0 ->
  cqh_ucq hcq <> 0 ->
  usd_destroy_cq (cqh_ucq hcq) <> 0 ->
  let r1 := usdf_cq_close usd_destroy_cq cq in
  let r2 := usdf_cq_close usd_destroy_cq (close_cq r1) in
  close_ret r1 = Val (usd_destroy_cq (cqh_ucq hcq)) /\
  freed_cq r1 = false /\
  cq_list (close_cq r1) = post /\
  close_ret r2 = Val 0 /\
  freed_cq r2 = true /\
  cq_list (close_cq r2) = [] /\
  destroyed r1 ++ destroyed r2 = ucqs_of pre ++ ucqs_of post /\
  freed_bindings r1 ++ freed_bindings r2 = addrs_of pre ++ addrs_of post.
Proof.
  intros Href Hsoft Hlist Hpre Hpost Hh Hucq Hfail r1.
  assert (r1 =
          {| close_ret := Val (usd_destroy_cq (cqh_ucq hcq));
             close_cq := set_cq_list post cq;
             destroyed := ucqs_of pre;
             freed_bindings := addrs_of pre;
             freed_cq := false |}) as ->.
  { subst r1. unfold usdf_cq_close.
    destruct (Z.ltb_spec 0 (cq_refcnt cq)); [lia |].
    rewrite Hsoft, Hlist, (close_soft_loop_released _ _ _ _ _ Hpre).
    cbn [close_soft_loop app].
    destruct (Z.ltb_spec 0 (cqh_refcnt hcq)); [lia |].
    destruct (Z.eqb_spec (cqh_ucq hcq) 0); [contradiction |].
    cbn [negb].
    destruct (Z.eqb_spec (usd_destroy_cq (cqh_ucq hcq)) 0);
      [contradiction |].
    reflexivity. }
  intros r2. subst r2. cbn [close_cq].
  assert (usdf_cq_close usd_destroy_cq (set_cq_list post cq) =
          {| close_ret := Val 0;
             close_cq := set_cq_list [] (set_cq_list post cq);
             destroyed := ucqs_of post;
             freed_bindings := addrs_of post;
             freed_cq := true |}) as ->.
  { unfold usdf_cq_close.
    replace (cq_refcnt (set_cq_list post cq)) with (cq_refcnt cq)
      by reflexivity.
    destruct (Z.ltb_spec 0 (cq_refcnt cq)); [lia |].
    rewrite close_keeps_mode, Hsoft.
    replace (cq_list (set_cq_list post cq)) with (post ++ [])
      by (rewrite app_nil_r; reflexivity).
    rewrite (close_soft_loop_released _ _ _ _ _ Hpost).
    reflexivity. }
  cbn [close_ret close_cq destroyed freed_bindings freed_cq].
  repeat split; reflexivity.
Qed.

Lemma close_again_after_destroy_failure_witness :
  let r1 := usdf_cq_close sample_destroy
              (set_cq_list
                 [ {| cqh_addr := 8192; cqh_ucq := 3; cqh_refcnt := 0 |};
                   {| cqh_addr := 8256; cqh_ucq := 1; cqh_refcnt := 0 |};
                   {| cqh_addr := 8320; cqh_ucq := 2; cqh_refcnt := 0 |} ]
                 (sample_soft_cq FI_CQ_FORMAT_MSG 4 4096)) in
  let r2 := usdf_cq_close sample_destroy (close_cq r1) in
  close_ret r1 = Val (-22) /\ close_ret r2 = Val 0 /\ freed_cq r2 = true /\
  destroyed r1 ++ destroyed r2 = [3; 2] /\
  freed_bindings r1 ++ freed_bindings r2 = [8192; 8320].
Proof.
  destruct (close_again_after_destroy_failure sample_destroy
              (set_cq_list
                 [ {| cqh_addr := 8192; cqh_ucq := 3; cqh_refcnt := 0 |};
                   {| cqh_addr := 8256; cqh_ucq := 1; cqh_refcnt := 0 |};
                   {| cqh_addr := 8320; cqh_ucq := 2; cqh_refcnt := 0 |} ]
                 (sample_soft_cq FI_CQ_FORMAT_MSG 4 4096))
              [ {| cqh_addr := 8192; cqh_ucq := 3; cqh_refcnt := 0 |} ]
              [ {| cqh_addr := 8320; cqh_ucq := 2; cqh_refcnt := 0 |} ]
              {| cqh_addr := 8256; cqh_ucq := 1; cqh_refcnt := 0 |})
    as (H1 & _ & _ & H2 & H3 & _ & H4 & H5).
  - simpl. lia.
  - reflexivity.
  - reflexivity.
  - repeat constructor; simpl; try lia; right; reflexivity.
  - repeat constructor; simpl; try lia; right; reflexivity.
  - simpl. lia.
  - simpl. lia.
  - simpl. discriminate.
  - repeat split; assumption.
Defined.

(** ** Lengths outside the range of the rule *)

(** X16.  The length [usdf_cq_adjust_len] leaves is the length of the rule
    reduced modulo [2 ^ 64], whatever the raw length.  A receive outside
    header-prefix mode that is shorter than the header is therefore
    reported with a length just below [2 ^ 64], not with a negative one or
    with zero. *)
Theorem adjust_len_wraps (K : usdf_consts) (src : usd_completion) (L : Z) :
  0 <= L < 2 ^ 64 ->
  usdf_cq_adjust_len K src L = spec_reported_len K src L mod 2 ^ 64 /\
  0 <= usdf_cq_adjust_len K src L < 2 ^ 64 /\
  (uc_type src = USD_COMPTYPE_RECV -> prefix_mode K src = false ->
   L < sizeof_usd_udp_hdr K <= 2 ^ 64 ->
   usdf_cq_adjust_len K src L = 2 ^ 64 - (sizeof_usd_udp_hdr K - L)).
Proof.
  intros HL.
  assert (usdf_cq_adjust_len K src L = spec_reported_len K src L mod 2 ^ 64)
    as Hmod.
  { unfold usdf_cq_adjust_len, spec_reported_len, wrap64.
    destruct (uc_type src), (prefix_mode K src); cbn [is_recv];
      rewrite ?Zplus_mod_idemp_r; try reflexivity;
      symmetry; apply Z.mod_small; exact HL. }
  split; [exact Hmod |]. split.
  - rewrite Hmod. apply Z.mod_pos_bound. lia.
  - intros Ht Hp Hshort. rewrite Hmod. unfold spec_reported_len.
    rewrite Ht, Hp.
    replace (L - sizeof_usd_udp_hdr K)
      with (2 ^ 64 - (sizeof_usd_udp_hdr K - L) + (-1) * 2 ^ 64) by lia.
    rewrite Z.mod_add by lia. apply Z.mod_small. lia.
Qed.

Lemma adjust_len_wraps_witness :
  usdf_cq_adjust_len sample_consts
    (sample_comp USD_COMPTYPE_RECV USD_COMPSTAT_SUCCESS 7 10) 10 =
  2 ^ 64 - 32.
Proof.
  destruct (adjust_len_wraps sample_consts
              (sample_comp USD_COMPTYPE_RECV USD_COMPSTAT_SUCCESS 7 10) 10)
    as (_ & _ & H); [lia |].
  apply H; [reflexivity | reflexivity | simpl; lia].
Defined.

(** ** The soft error-read on a ring that holds entries *)

Lemma ring_contents_last_op (cq : usdf_cq) (o : soft_cq_op) :
  cq_head cq <> cq_tail cq \/ cq_last_op cq = o ->
  ring_contents (set_cq_last_op o cq) = ring_contents cq.
Proof.
  intros [Hne | Ho].
  - unfold ring_contents, ring_items, ring_len, ring_cap, cq_comps.
    cbn [cq_slots cq_end c_word0 cq_head cq_tail cq_last_op set_cq_last_op].
    destruct (Z.eqb_spec (cq_head cq - c_word0 cq)
                (cq_tail cq - c_word0 cq)); [lia | reflexivity].
  - unfold ring_contents. cbn. now rewrite Ho.
Qed.

(** X17.  The soft error-read on a ring whose oldest entry is [bad]
    returns [1] with the context and the provider error of [bad] and
    [FI_EIO] as the error, and moves the tail past it without recording a
    read.  The entries behind [bad] are what the ring holds afterwards,
    unless [bad] was the only entry and the last operation on the ring was a
    write: then head and tail meet with the write still recorded, and the
    ring counts as full, all of its slots readable again. *)
Theorem readerr_soft_consumes (K : usdf_consts) (cq : usdf_cq)
    (bad : usdf_cq_soft_entry) (rest : list usdf_cq_soft_entry) :
  ring_wf cq ->
  ring_contents cq = bad :: rest ->
  let '(r, e, cq') := usdf_cq_readerr_soft K cq in
  r = Val 1 /\
  e = Some {| err_op_context := cse_context bad; err_flags := 0;
              err_err := errno_val K FI_EIO;
              err_prov_errno := cse_prov_errno bad |} /\
  ring_wf cq' /\
  cq_last_op cq' = cq_last_op cq /\
  (rest <> [] \/ cq_last_op cq = USDF_SOFT_CQ_READ ->
   ring_contents cq' = rest) /\
  (rest = [] -> cq_last_op cq = USDF_SOFT_CQ_WRITE ->
   ring_full cq' = true /\
   length (ring_contents cq') = Z.to_nat (ring_cap cq)).
Proof.
  intros Hwf Hc. unfold usdf_cq_readerr_soft.
  assert (ring_empty cq = false) as Hne.
  { destruct (ring_empty cq) eqn:He; [| reflexivity].
    apply (ring_empty_length cq Hwf) in He. congruence. }
  destruct (ring_pop cq Hwf Hne) as [Hwf' Hpop].
  rewrite Hc in Hpop. injection Hpop as Hbad Hrest.
  set (t' := advance_tail cq (cq_tail cq)) in *.
  assert (ring_wf (set_cq_tail t' cq)) as Hwf2 by exact Hwf'.
  assert (set_cq_tail t' (set_cq_last_op USDF_SOFT_CQ_READ cq) =
          set_cq_last_op USDF_SOFT_CQ_READ (set_cq_tail t' cq)) as Hswap
    by reflexivity.
  rewrite Hswap in Hrest.
  split; [reflexivity |]. split; [now rewrite Hbad |].
  split; [exact Hwf2 |]. split; [reflexivity |].
  assert (cq_head cq = t' ->
          ring_contents (set_cq_last_op USDF_SOFT_CQ_READ
                           (set_cq_tail t' cq)) = []) as Hmeet.
  { intros Heq. apply ring_empty_length; [exact Hwf' |].
    unfold ring_empty. cbn. rewrite Heq, Z.eqb_refl. reflexivity. }
  split.
  - intros Hcase. rewrite Hrest. symmetry. apply ring_contents_last_op.
    cbn [cq_head cq_tail cq_last_op set_cq_tail].
    destruct Hcase as [Hsome | Hread]; [| right; exact Hread].
    left. intros Heq. apply Hsome. rewrite Hrest. now apply Hmeet.
  - intros Hnil Hwrite.
    assert (cq_head cq = t') as Heq.
    { destruct (Z.eq_dec (cq_head cq) t') as [Heq | Hneq]; [exact Heq |].
      exfalso.
      assert (ring_contents (set_cq_tail t' cq) = []) as Hempty.
      { rewrite <- (ring_contents_last_op (set_cq_tail t' cq)
                      USDF_SOFT_CQ_READ) by (left; exact Hneq).
        now rewrite <- Hrest. }
      apply (ring_empty_length _ Hwf2) in Hempty.
      unfold ring_empty in Hempty. cbn in Hempty.
      rewrite Hwrite in Hempty. cbn in Hempty.
      now rewrite andb_false_r in Hempty. }
    assert (ring_full (set_cq_tail t' cq) = true) as Hfull.
    { unfold ring_full. cbn. rewrite Heq, Z.eqb_refl, Hwrite. reflexivity. }
    split; [exact Hfull |].
    apply (ring_full_length _ Hwf2) in Hfull. exact Hfull.
Qed.

Lemma readerr_soft_consumes_witness :
  let cq := usdf_cq_post_soft (sample_soft_cq FI_CQ_FORMAT_MSG 4 4096)
              7 0 5 in
  let '(r, e, cq') := usdf_cq_readerr_soft sample_consts cq in
  r = Val 1 /\
  e = Some {| err_op_context := 7; err_flags := 0; err_err := 5;
              err_prov_errno := 5 |} /\
  ring_full cq' = true /\
  length (ring_contents cq') = 4%nat.
Proof.
  pose proof (readerr_soft_consumes sample_consts
                (usdf_cq_post_soft (sample_soft_cq FI_CQ_FORMAT_MSG 4 4096)
                   7 0 5)
                {| cse_context := 7; cse_flags := 0; cse_len := 0;
                   cse_buf := 0; cse_data := 0; cse_prov_errno := 5 |} []
                ltac:(ring_wf_eval) eq_refl) as H.
  cbv zeta.
  destruct (usdf_cq_readerr_soft sample_consts
              (usdf_cq_post_soft (sample_soft_cq FI_CQ_FORMAT_MSG 4 4096)
                 7 0 5)) as [[r e] cq'].
  destruct H as (Hr & He & _ & _ & _ & Hfull).
  destruct (Hfull eq_refl eq_refl) as [Hf Hlen].
  repeat split; assumption.
Defined.
